(** * DynamicVLN: the path-block synthesizer and the navigation agent

    A shallow embedding of
      - [Inpainting/block_edge.py] (the offline edge-blocking tool), and
      - [VLN-DUET/map_nav_src_dyvln/r2r/agent.py] (teacher policy, action
        resolution, the search fallback and the end of a rollout
        iteration of [GMapNavAgent]),
    followed by the properties established about them.

    Python exceptions are modelled by the error monad [result]; the
    libraries the scripts call (networkx, torch, the simulator, [GraphMap])
    appear through their interface only. *)

From stdpp Require Import gmap strings list fin_maps fin_sets.
From Stdlib Require Import ZArith Floats.

Open Scope string_scope.
Open Scope list_scope.
Open Scope Z_scope.

(** ** Exceptions *)

Inductive exn :=
  | NetworkXError      (* edge or node missing in a graph operation *)
  | NodeNotFound       (* source or target of a path query not in the graph *)
  | NetworkXNoPath     (* no path between the two nodes *)
  | KeyError
  | IndexError
  | ValueError
  | AssertionError
  | RuntimeError
  | NameError
  | SystemExit.

Inductive result (A : Type) :=
  | Ok (a : A)
  | Raise (e : exn).
Arguments Ok {A} a.
Arguments Raise {A} e.

Global Instance result_ret : MRet result := λ A a, Ok a.
Global Instance result_bind : MBind result := λ A B f m,
  match m with
  | Ok a => f a
  | Raise e => Raise e
  end.
Global Instance result_fmap : FMap result := λ A B f m,
  match m with
  | Ok a => Ok (f a)
  | Raise e => Raise e
  end.

Definition of_option {A} (e : exn) (o : option A) : result A :=
  match o with
  | Some a => Ok a
  | None => Raise e
  end.

(** ** Python list helpers *)

(** [l[:i]] and [l[i:]] with Python's treatment of negative and
    out-of-range bounds. *)
Definition py_bound {A} (l : list A) (i : Z) : nat :=
  if i <? 0 then Z.to_nat (Z.max 0 (Z.of_nat (length l) + i))
  else Z.to_nat i.

Definition slice_to {A} (l : list A) (i : Z) : list A := take (py_bound l i) l.
Definition slice_from {A} (l : list A) (i : Z) : list A := drop (py_bound l i) l.

(** [l[i]], negative [i] counting from the end. *)
Definition py_get {A} (l : list A) (i : Z) : result A :=
  let j := if i <? 0 then Z.of_nat (length l) + i else i in
  if j <? 0 then Raise IndexError
  else of_option IndexError (l !! Z.to_nat j).

(** [l.index(x)]: position of the first occurrence, [ValueError] if absent. *)
Fixpoint index_of {A} `{EqDecision A} (x : A) (l : list A) : result Z :=
  match l with
  | [] => Raise ValueError
  | y :: l' =>
      if bool_decide (x = y) then Ok 0 else i ← index_of x l'; Ok (i + 1)
  end.

Definition mem (x : string) (l : list string) : bool := bool_decide (x ∈ l).

(** [d[k] = v] on a dict: the value of a key that is present is
    replaced where it stands, a new key goes to the end. *)
Fixpoint dict_set {V} (k : string) (v : V) (d : list (string * V))
    : list (string * V) :=
  match d with
  | [] => [(k, v)]
  | (k', v') :: d' =>
      if String.eqb k' k then (k, v) :: d' else (k', v') :: dict_set k v d'
  end.

Fixpoint take_while {A} (p : A → bool) (l : list A) : list A :=
  match l with
  | [] => []
  | x :: l' => if p x then x :: take_while p l' else []
  end.

(** [itertools.combinations(l, k)], in itertools' order. *)
Fixpoint combinations {A} (l : list A) (k : nat) : list (list A) :=
  match k with
  | O => [[]]
  | S k' =>
      match l with
      | [] => []
      | x :: l' => (cons x <$> combinations l' k') ++ combinations l' (S k')
      end
  end.

(** ** networkx.Graph, as far as block_edge.py uses it *)

Module NX.

Record Graph := mkGraph {
  node_set : gset string;
  edge_set : gset (string * string);
}.

Definition empty_graph : Graph := mkGraph ∅ ∅.

Definition has_node (G : Graph) (v : string) : bool :=
  bool_decide (v ∈ node_set G).

(** Edges are undirected: a stored pair stands for both directions. *)
Definition has_edge (G : Graph) (u v : string) : bool :=
  bool_decide ((u, v) ∈ edge_set G ∨ (v, u) ∈ edge_set G).

Definition add_edge (G : Graph) (u v : string) : Graph :=
  mkGraph ({[u; v]} ∪ node_set G) ({[(u, v)]} ∪ edge_set G).

Definition from_edges (es : list (string * string)) : Graph :=
  foldl (λ G e, add_edge G e.1 e.2) empty_graph es.

(** [G.remove_edge(u, v)]: the nodes stay, a missing edge raises. *)
Definition remove_edge (G : Graph) (u v : string) : result Graph :=
  if has_edge G u v
  then Ok (mkGraph (node_set G) (edge_set G ∖ {[(u, v); (v, u)]}))
  else Raise NetworkXError.

Definition adj (G : Graph) (v : string) : gset string :=
  set_map snd (filter (λ e, e.1 = v) (edge_set G))
  ∪ set_map fst (filter (λ e, e.2 = v) (edge_set G)).

(** [G.neighbors(v)] *)
Definition neighbors (G : Graph) (v : string) : result (gset string) :=
  if has_node G v then Ok (adj G v) else Raise NetworkXError.

(** Every stored edge joins two nodes of the graph. *)
Definition wf (G : Graph) : Prop :=
  ∀ u v, (u, v) ∈ edge_set G → u ∈ node_set G ∧ v ∈ node_set G.

(** Connectivity as a relation: a walk along edges. *)
Definition linked (G : Graph) (u v : string) : Prop :=
  (u, v) ∈ edge_set G ∨ (v, u) ∈ edge_set G.

Definition connected (G : Graph) : relation string := rtc (linked G).

(** [nx.has_path(G, s, t)]: the nodes one more hop away are added,
    as many times as the graph has nodes. *)
Definition expand (G : Graph) (R : gset string) : gset string :=
  R ∪ set_bind (adj G) R.

Fixpoint reach (G : Graph) (n : nat) (R : gset string) : gset string :=
  match n with
  | O => R
  | S n' => expand G (reach G n' R)
  end.

Definition component (G : Graph) (a : string) : gset string :=
  reach G (size (node_set G)) {[a]}.

Definition has_path (G : Graph) (s t : string) : result bool :=
  if has_node G s && has_node G t
  then Ok (bool_decide (t ∈ component G s))
  else Raise NodeNotFound.

(** [nx.shortest_path(G, s, t)] (unweighted).  Which of several shortest
    paths networkx returns depends on its internals, so the synthesizer is
    stated over any function of this type; [bfs_shortest_path] is one. *)
Definition path_oracle : Type := Graph → string → string → result (list string).

Definition head_is (t : string) (p : list string) : bool :=
  match p with
  | h :: _ => String.eqb h t
  | [] => false
  end.

Definition bfs_extend (G : Graph) (acc : gset string * list (list string))
    (p : list string) : gset string * list (list string) :=
  match p with
  | [] => acc
  | h :: _ =>
      foldl (λ a w,
               if bool_decide (w ∈ a.1) then a
               else ({[w]} ∪ a.1, a.2 ++ [w :: p]))
            acc (elements (adj G h))
  end.

Fixpoint bfs_layers (G : Graph) (fuel : nat) (seen : gset string)
    (frontier : list (list string)) (t : string) : result (list string) :=
  match fuel with
  | O => Raise NetworkXNoPath
  | S fuel' =>
      match List.find (head_is t) frontier with
      | Some p => Ok (rev p)
      | None =>
          let nxt := foldl (bfs_extend G) (seen, []) frontier in
          match nxt.2 with
          | [] => Raise NetworkXNoPath
          | _ => bfs_layers G fuel' nxt.1 nxt.2 t
          end
      end
  end.

Definition bfs_shortest_path : path_oracle := λ G s t,
  if has_node G s && has_node G t
  then bfs_layers G (S (size (node_set G))) {[s]} [[s]] t
  else Raise NodeNotFound.

End NX.

(** ** block_edge.py *)

Module BlockEdge.
Import NX.

(** [edges = [(path[i], path[i+1]) for i in range(len(path)-1)]] *)
Definition path_edges (path : list string) : list (string * string) :=
  zip path (tail path).

(** Lines 83-87: the edges of the combination are removed one after the
    other; after each removal the endpoints of the edge just removed are
    tested. *)
Fixpoint check_comb (G : Graph) (comb : list (string * string)) (flag : bool)
    : result (Graph * bool) :=
  match comb with
  | [] => Ok (G, flag)
  | edge :: comb' =>
      G' ← remove_edge G edge.1 edge.2;
      joined ← has_path G' edge.1 edge.2;
      check_comb G' comb' (if joined : bool then flag else false)
  end.

(** The residual graph: every edge of the combination removed at once. *)
Definition remove_edges (G : Graph) (comb : list (string * string)) : Graph :=
  mkGraph (node_set G)
          (edge_set G ∖ list_to_set (comb ++ (prod_swap <$> comb))).

(** State of the walk of lines 90-118. *)
Record walk_state := mkWalk {
  cand_vps : gset string;
  new_path : list string;
  original_path : list string;
}.

Definition walk_init : walk_state := mkWalk ∅ [] [].

(** Lines 107-112: [real_bypass], built from the end of the bypass. *)
Definition real_bypass (new_path bypass : list string) : list string :=
  take_while (λ v, negb (mem v new_path)) (rev bypass).

(** Lines 114-118: the loop over [real_bypass[::-1]]. *)
Fixpoint grow (G : Graph) (last_vp : string) (vs : list string)
    (cand : gset string) : result (gset string) :=
  match vs with
  | [] => Ok cand
  | v :: vs' =>
      if String.eqb v last_vp then Ok cand
      else
        nb ← neighbors G v;
        grow G last_vp vs' (cand ∪ {[v]} ∪ nb)
  end.

(** One iteration of [for vp in path] (lines 95-118); [last_vp] is
    [path[-1]]. *)
Definition walk_step (sp : path_oracle) (G : Graph) (last_vp : string)
    (st : walk_state) (vp : string) : result walk_state :=
  if mem vp (new_path st) then Ok st
  else
    let original := original_path st ++ [vp] in
    if (length (new_path st) =? 0)%nat || bool_decide (vp ∈ cand_vps st) then
      nb ← neighbors G vp;
      Ok (mkWalk (cand_vps st ∪ {[vp]} ∪ nb) (new_path st ++ [vp]) original)
    else
      kept ← of_option IndexError (last (new_path st));
      full ← sp G kept vp;
      let bypass := tail full in
      cand ← grow G last_vp (rev (real_bypass (new_path st) bypass)) (cand_vps st);
      Ok (mkWalk cand (new_path st) original).

Fixpoint walk_loop (sp : path_oracle) (G : Graph) (last_vp : string)
    (st : walk_state) (vps : list string) : result walk_state :=
  match vps with
  | [] => Ok st
  | vp :: vps' =>
      st' ← walk_step sp G last_vp st vp;
      walk_loop sp G last_vp st' vps'
  end.

Definition walk (sp : path_oracle) (G : Graph) (path : list string)
    : result walk_state :=
  match last path with
  | None => Ok walk_init
  | Some last_vp => walk_loop sp G last_vp walk_init path
  end.

(** Lines 120-125: the detailed path. *)
Fixpoint detail_loop (sp : path_oracle) (G : Graph) (path : list string)
    (comb : list (string * string)) (detailed_path : list string)
    (adjustment : Z) : result (list string) :=
  match comb with
  | [] => Ok detailed_path
  | edge :: comb' =>
      bypass ← sp G edge.1 edge.2;
      i ← index_of edge.1 path;
      let edge_idx := i + adjustment in
      let detailed_path' :=
        slice_to detailed_path edge_idx ++ bypass
        ++ slice_from detailed_path (edge_idx + 2) in
      detail_loop sp G path comb' detailed_path'
        (adjustment + (Z.of_nat (length bypass) - 2))
  end.

Definition detail (sp : path_oracle) (G : Graph) (path : list string)
    (comb : list (string * string)) : result (list string) :=
  detail_loop sp G path comb path 0.

(** Following the spec's words for the detailed path: every blocked edge,
    given with the position of its first endpoint in the reference path,
    has its two consecutive positions replaced by the bypass, and the
    later positions are shifted by (bypass length - 2). *)
Fixpoint substitute_bypasses (bypass_of : string → string → result (list string))
    (blocked : list (nat * (string * string))) (detailed_path : list string)
    (offset : Z) : result (list string) :=
  match blocked with
  | [] => Ok detailed_path
  | (pos, edge) :: blocked' =>
      bypass ← bypass_of edge.1 edge.2;
      let idx := Z.of_nat pos + offset in
      substitute_bypasses bypass_of blocked'
        (slice_to detailed_path idx ++ bypass
         ++ slice_from detailed_path (idx + 2))
        (offset + (Z.of_nat (length bypass) - 2))
  end.

(** One element of [block_list[scan][path_id]]: the tuple
    [(comb, new_path, original_path, detailed_path)]. *)
Record block_record := mkRecord {
  rec_comb : list (string * string);
  rec_new_path : list string;
  rec_original_path : list string;
  rec_detailed_path : list string;
}.

(** The module-level variables of the script. *)
Record State := mkState {
  block_list : gmap string (gmap Z (list block_record));
  paths : list Z;
  path_num : Z;
  path_block_num : Z;
  duplicate_num : Z;
  no_end_num : Z;
  max_dist : Z;
  original_lengths : list Z;
  modified_lengths : list Z;
}.

Definition init_state : State := mkState ∅ [] 0 0 0 0 0 [] [].

(** [block_list[scan][path_id]] on the nested [defaultdict]. *)
Definition block_entry (bl : gmap string (gmap Z (list block_record)))
    (scan : string) (path_id : Z) : list block_record :=
  default [] (default ∅ (bl !! scan) !! path_id).

Definition set_block_entry (bl : gmap string (gmap Z (list block_record)))
    (scan : string) (path_id : Z) (rs : list block_record)
    : gmap string (gmap Z (list block_record)) :=
  <[scan := <[path_id := rs]> (default ∅ (bl !! scan))]> bl.

(** Lines 127-137. *)
Definition record_comb (st : State) (scan : string) (path_id : Z)
    (comb : list (string * string)) (w : walk_state)
    (detailed : list string) : State :=
  if (length (new_path w) <=? 15)%nat then
    let rs := block_entry (block_list st) scan path_id
              ++ [mkRecord comb (new_path w) (original_path w) detailed] in
    mkState (set_block_entry (block_list st) scan path_id rs)
            (paths st) (path_num st) (path_block_num st)
            (if (length (new_path w) =? size (list_to_set (C:=gset string) (new_path w)))%nat
             then duplicate_num st else duplicate_num st + 1)
            (no_end_num st) (max_dist st) (original_lengths st)
            (modified_lengths st ++ [Z.of_nat (length detailed)])
  else st.

(** Body of [for comb in combs] (lines 82-145); the graph is restored
    from [backup_G] afterwards, so only the script state is returned. *)
Definition process_comb (sp : path_oracle) (G : Graph) (scan : string)
    (path_id : Z) (path : list string) (st : State)
    (comb : list (string * string)) : result State :=
  '(G', flag) ← check_comb G comb true;
  if flag : bool then
    w ← walk sp G' path;
    detailed ← detail sp G' path comb;
    Ok (record_comb st scan path_id comb w detailed)
  else Ok st.

Fixpoint process_combs (sp : path_oracle) (G : Graph) (scan : string)
    (path_id : Z) (path : list string) (st : State)
    (combs : list (list (string * string))) : result State :=
  match combs with
  | [] => Ok st
  | comb :: combs' =>
      st' ← process_comb sp G scan path_id path st comb;
      process_combs sp G scan path_id path st' combs'
  end.

(** Body of [for x in tqdm(data)] (lines 65-148); [nums] is [args.nums]. *)
Definition process_path (sp : path_oracle) (nums : nat) (G : Graph)
    (scan : string) (path_id : Z) (path : list string) (st : State)
    : result State :=
  if bool_decide (path_id ∈ paths st) then Raise SystemExit
  else
    let st1 := mkState (block_list st) (paths st ++ [path_id]) (path_num st)
                 (path_block_num st) (duplicate_num st) (no_end_num st)
                 (max_dist st)
                 (original_lengths st ++ [Z.of_nat (length path)])
                 (modified_lengths st) in
    st2 ← process_combs sp G scan path_id path st1
            (combinations (path_edges path) nums);
    let rs := block_entry (block_list st2) scan path_id in
    Ok (mkState (set_block_entry (block_list st2) scan path_id rs)
          (paths st2) (path_num st2)
          (if (0 <? length rs)%nat then path_block_num st2 + 1
           else path_block_num st2)
          (duplicate_num st2) (no_end_num st2) (max_dist st2)
          (original_lengths st2) (modified_lengths st2)).

(** The records one combination adds, starting from an empty state. *)
Definition emitted (sp : path_oracle) (G : Graph) (scan : string)
    (path_id : Z) (path : list string) (comb : list (string * string))
    : result (list block_record) :=
  st ← process_comb sp G scan path_id path init_state comb;
  Ok (block_entry (block_list st) scan path_id).

(** Following the amended words for the third component of a record:
    the reference path is walked, [placed] holding the waypoints put in
    the reduced path so far; a waypoint already placed is left out, any
    other one is listed, whether it is placed in its turn or passed
    over.  The last two arguments are the waypoints placed and the
    waypoints listed from here on. *)
Inductive listed
    : list string → list string → list string → list string → Prop :=
  | listed_end placed : listed placed [] [] []
  | listed_left_out placed vp path reduced original :
      vp ∈ placed →
      listed placed path reduced original →
      listed placed (vp :: path) reduced original
  | listed_placed placed vp path reduced original :
      vp ∉ placed →
      listed (placed ++ [vp]) path reduced original →
      listed placed (vp :: path) (vp :: reduced) (vp :: original)
  | listed_passed placed vp path reduced original :
      vp ∉ placed →
      listed placed path reduced original →
      listed placed (vp :: path) reduced (vp :: original).

(** The counters the script prints at the end. *)
Definition counters (st : State) : list Z :=
  [path_num st; path_block_num st; duplicate_num st; no_end_num st; max_dist st].

(** Some printed counter went up by one between two states. *)
Definition counter_incremented (st st' : State) : Prop :=
  ∃ i c, counters st !! i = Some c ∧ counters st' !! i = Some (c + 1).

(** A list of viewpoints in which each one is linked to the next. *)
Definition is_walk (G : Graph) (p : list string) : Prop :=
  ∀ (i : nat) a b, p !! i = Some a → p !! S i = Some b → linked G a b.

(** The answer of a path query that can be followed: it goes from the
    source to the target along edges of the graph. *)
Definition sound_oracle (sp : path_oracle) (G : Graph) : Prop :=
  ∀ u v p, sp G u v = Ok p → head p = Some u ∧ last p = Some v ∧ is_walk G p.

(** What a record of the output is made of. *)
Definition record_of (sp : path_oracle) (G : Graph) (path : list string)
    (r : block_record) : Prop :=
  ∃ G' (w : walk_state),
    check_comb G (rec_comb r) true = Ok (G', true)
    ∧ walk sp G' path = Ok w
    ∧ detail sp G' path (rec_comb r) = Ok (rec_detailed_path r)
    ∧ rec_new_path r = new_path w
    ∧ rec_original_path r = original_path w
    ∧ (length (new_path w) ≤ 15)%nat.

(** The records and the statistics a run adds to the script state. *)
Definition extends_by (scan : string) (path_id : Z) (st st' : State)
    (rs : list block_record) : Prop :=
  block_entry (block_list st') scan path_id
  = block_entry (block_list st) scan path_id ++ rs
  ∧ (∀ scan' path_id',
       (scan', path_id') ≠ (scan, path_id) →
       block_entry (block_list st') scan' path_id'
       = block_entry (block_list st) scan' path_id')
  ∧ modified_lengths st'
    = modified_lengths st
      ++ ((λ r, Z.of_nat (length (rec_detailed_path r))) <$> rs)
  ∧ duplicate_num st' = duplicate_num st
  ∧ no_end_num st' = no_end_num st
  ∧ max_dist st' = max_dist st.

(** Some path has a record. *)
Definition has_record (st : State) : Prop :=
  ∃ scan path_id, block_entry (block_list st) scan path_id ≠ [].

(** *** The script as a whole *)

(** One element of an annotation file: [x['scan']], [x['path']],
    [x['path_id']]. *)
Record Annotation := mkAnnotation {
  x_scan : string;
  x_path : list string;
  x_path_id : Z;
}.

(** [for x in tqdm(data)] (lines 65-148), with the graphs of the split.
    The test on [path_id] comes before [graphs[scan]] is read. *)
Fixpoint run_data (sp : path_oracle) (nums : nat)
    (graphs : gmap string Graph) (data : list Annotation) (st : State)
    : result State :=
  match data with
  | [] => Ok st
  | x :: data' =>
      if bool_decide (x_path_id x ∈ paths st) then Raise SystemExit
      else
        G ← of_option KeyError (graphs !! x_scan x);
        st' ← process_path sp nums G (x_scan x) (x_path_id x) (x_path x) st;
        run_data sp nums graphs data' st'
  end.

(** Body of [for split in splits] (lines 58-152).  [load] stands for
    [load_nav_graphs(connectivity_dir, scans)], which reads the
    connectivity files of the scans. *)
Definition run_split (sp : path_oracle) (nums : nat)
    (load : gset string → result (gmap string Graph))
    (data : list Annotation) (st : State) : result State :=
  graphs ← load (list_to_set (x_scan <$> data));
  st' ← run_data sp nums graphs data st;
  Ok (mkState (block_list st') (paths st')
        (path_num st' + Z.of_nat (length data)) (path_block_num st')
        (duplicate_num st') (no_end_num st') (max_dist st')
        (original_lengths st') (modified_lengths st')).

Fixpoint run_splits (sp : path_oracle) (nums : nat)
    (load : gset string → result (gmap string Graph))
    (splits : list (list Annotation)) (st : State) : result State :=
  match splits with
  | [] => Ok st
  | data :: splits' =>
      st' ← run_split sp nums load data st;
      run_splits sp nums load splits' st'
  end.

(** [np.min(l)] and [np.max(l)]: an empty list has no minimum. *)
Definition np_min (l : list Z) : result Z :=
  match l with
  | [] => Raise ValueError
  | x :: l' => Ok (foldl Z.min x l')
  end.

Definition np_max (l : list Z) : result Z :=
  match l with
  | [] => Raise ValueError
  | x :: l' => Ok (foldl Z.max x l')
  end.

(** Lines 153-183: the statistics that are printed, then the dump of
    [block_list].  [np.mean] of an empty list is a NaN with a warning;
    the quotient of line 161 is reached with a [modified_lengths] that
    is not empty. *)
Definition report (st : State)
    : result (gmap string (gmap Z (list block_record))) :=
  _ ← np_min (original_lengths st);
  _ ← np_min (modified_lengths st);
  _ ← np_max (original_lengths st);
  _ ← np_max (modified_lengths st);
  Ok (block_list st).

(** The script: [splits] holds the annotations of train, val_seen and
    val_unseen; the result is what is written to
    [block_<nums>_edge_list.json]. *)
Definition main (sp : path_oracle) (nums : nat)
    (load : gset string → result (gmap string Graph))
    (splits : list (list Annotation))
    : result (gmap string (gmap Z (list block_record))) :=
  st ← run_splits sp nums load splits init_state;
  report st.

(** *** The loader of the connectivity graphs *)

(** An entry of a connectivity file, as far as [load_nav_graphs] reads
    it; the numbers of [pose] are floats. *)
Record Item := mkItem {
  image_id : string;
  included : bool;
  unobstructed : list bool;
  pose : list float;
}.

(** [for i, x in enumerate(l)] with a body that can raise. *)
Fixpoint for_enumerate {A St} (body : nat → A → St → result St) (i : nat)
    (l : list A) (s : St) : result St :=
  match l with
  | [] => Ok s
  | x :: l' => s' ← body i x s; for_enumerate body (S i) l' s'
  end.

(** [distance(pose1, pose2)] (lines 22-26).  [fpow] stands for [**] on
    floats, which raises on overflow. *)
Definition distance (fpow : float → float → result float)
    (pose1 pose2 : Item) : result float :=
  a1 ← py_get (pose pose1) 3;
  a2 ← py_get (pose pose2) 3;
  x ← fpow (PrimFloat.sub a1 a2) 0x1p+1%float;
  b1 ← py_get (pose pose1) 7;
  b2 ← py_get (pose pose2) 7;
  y ← fpow (PrimFloat.sub b1 b2) 0x1p+1%float;
  c1 ← py_get (pose pose1) 11;
  c2 ← py_get (pose pose2) 11;
  z ← fpow (PrimFloat.sub c1 c2) 0x1p+1%float;
  fpow (PrimFloat.add (PrimFloat.add x y) z) 0x1p-1%float.

(** Body of [for j, conn in enumerate(item['unobstructed'])] (lines
    36-41).  The [position] attribute is not kept by the graph model;
    what is left of line 38 are its three reads of [item['pose']]. *)
Definition link (fpow : float → float → result float) (data : list Item)
    (i : nat) (item : Item) (j : nat) (conn : bool) (G : Graph)
    : result Graph :=
  if conn then
    other ← of_option IndexError (data !! j);
    if included other then
      _ ← py_get (pose item) 3;
      _ ← py_get (pose item) 7;
      _ ← py_get (pose item) 11;
      back ← of_option IndexError (unobstructed other !! i);
      if back : bool then
        _ ← distance fpow item other;
        Ok (add_edge G (image_id item) (image_id other))
      else Raise AssertionError
    else Ok G
  else Ok G.

(** The graph of one connectivity file (lines 31-42). *)
Definition graph_of_scan (fpow : float → float → result float)
    (data : list Item) : result Graph :=
  for_enumerate
    (λ i item G,
       if included item
       then for_enumerate (link fpow data i item) 0 (unobstructed item) G
       else Ok G)
    0 data empty_graph.

(** [for scan in scans] (lines 29-43).  [read] stands for opening and
    parsing the connectivity file of a scan. *)
Fixpoint load_loop (read : string → result (list Item))
    (fpow : float → float → result float) (scans : list string)
    (graphs : gmap string Graph) : result (gmap string Graph) :=
  match scans with
  | [] => Ok graphs
  | scan :: scans' =>
      data ← read scan;
      G ← graph_of_scan fpow data;
      load_loop read fpow scans' (<[scan := G]> graphs)
  end.

(** [load_nav_graphs(connectivity_dir, scans)] (lines 19-44); [scans]
    lists the scans in the order of the iteration. *)
Definition load_nav_graphs (read : string → result (list Item))
    (fpow : float → float → result float) (scans : list string)
    : result (gmap string Graph) :=
  load_loop read fpow scans ∅.

(** Entry [i] of the file is included and lists entry [j], included
    too, as unobstructed. *)
Definition sees (data : list Item) (i j : nat) (a b : Item) : Prop :=
  data !! i = Some a ∧ data !! j = Some b
  ∧ included a = true ∧ included b = true
  ∧ unobstructed a !! j = Some true.

(** What the loops over a file have established once the pairs of
    positions in [D] are done. *)
Definition loaded (data : list Item) (D : nat → nat → Prop) (G : Graph)
    : Prop :=
  (∀ u v, (u, v) ∈ edge_set G ↔
          ∃ i j a b, D i j ∧ sees data i j a b
                     ∧ u = image_id a ∧ v = image_id b)
  ∧ (∀ v, v ∈ node_set G ↔ ∃ u, linked G u v)
  ∧ (∀ i j a b, D i j → sees data i j a b → unobstructed b !! i = Some true).

End BlockEdge.

(** ** agent.py *)

Module Agent.

(** Python floats are binary64. *)
Abbreviation float := PrimFloat.float.

(** [x >= y] *)
Definition fge (x y : float) : bool := PrimFloat.leb y x.

(** The distance from which a node counts as unreachable. *)
Definition sentinel : float := 0x1.312dp+23%float.   (* 1e7 *)

(** [float(n)] for an integer of less than 63 bits. *)
Definition float_of_Z (z : Z) : float :=
  match z with
  | Z0 => PrimFloat.zero
  | Zpos _ => PrimFloat.of_uint63 (Uint63.of_Z z)
  | Zneg _ => PrimFloat.opp (PrimFloat.of_uint63 (Uint63.of_Z (- z)))
  end.

(** [pat in s] on strings. *)
Fixpoint contains (pat s : string) : bool :=
  String.prefix pat s
  || match s with
     | EmptyString => false
     | String _ s' => contains pat s'
     end.

(** *** Configuration ([self.args], [self.feedback]) *)

(** [--expert_policy] is one of these two; the teacher functions have no
    branch for anything else. *)
Inductive ExpertPolicy := spl | ndtw.
Inductive Fusion := local | global | dynamic.
Inductive Feedback := teacher | argmax | sample | expl_sample.

(** [self.feedback == 'teacher'] *)
Definition is_teacher (feedback : Feedback) : bool :=
  match feedback with
  | teacher => true
  | _ => false
  end.

Record Args := mkArgs {
  ignoreid : Z;
  expert_policy : ExpertPolicy;
  fusion : Fusion;
  max_action_len : Z;
  act_visited_nodes : bool;
  enc_full_graph : bool;
  search_target : bool;
  seen_stop : bool;
}.

(** *** Observations *)

Record Cand := mkCand {
  viewpointId : string;
  pointId : Z;
}.

Record Ob := mkOb {
  scan : string;
  viewpoint : string;
  gt_path : list string;
  original_path : list string;
  block : list (string * string);
  endpoint : string;
  candidate : list Cand;
  seen_node : list Cand;
}.

(** *** Collaborators that are not part of agent.py *)

(** [models.graph_utils.GraphMap], through the attributes and methods the
    agent reads; [graph_distance] and [graph_path] also receive the [None]
    of the stop entry.  [node_stop_scores] is a dict that is iterated, so
    it keeps its keys in the order of their insertion. *)
Record GraphMap := mkGraphMap {
  graph_distance : string → option string → float;
  graph_visited : string → bool;
  graph_path : string → option string → result (list string);
  real_name : gmap string string;
  node_positions : list string;
  node_step_ids : gmap string Z;
  node_stop_scores : list (string * float);
}.

(** Keys of [self.env.shortest_distances]. *)
Inductive dist_key :=
  | ByScan (scan : string)
  | ByScanBlock (scan : string) (block : list (string * string))
  | ByIndexScan (i : Z) (scan : string).

Definition dist_table : Type := string → string → result float.

(** The environment tables and [eval_utils.cal_dtw(...)['nDTW']]. *)
Record Env := mkEnv {
  shortest_distances : dist_key → result dist_table;
  shortest_paths : string → string → string → result (list string);
  cal_dtw_nDTW : dist_table → list string → list string → float → result float;
}.

(** *** The teacher policy *)

(** [j > 0 and ((visited_masks is None) or (not visited_masks[i][j]))] *)
Definition legal (visited_masks : option (list bool)) (j : Z) : result bool :=
  if 0 <? j then
    match visited_masks with
    | None => Ok true
    | Some row => b ← py_get row j; Ok (negb b)
    end
  else Ok false.

(** The loop [for j, vpid in enumerate(vpids)] of the three teacher
    functions: [skip] is the test that ends an iteration early with
    [continue], [score] computes [dist]. *)
Fixpoint teacher_scan (skip : option string → bool)
    (score : option string → result float)
    (visited_masks : option (list bool)) (j : Z)
    (vpids : list (option string)) (min_idx : Z) (min_dist : float)
    : result Z :=
  match vpids with
  | [] => Ok min_idx
  | vpid :: vpids' =>
      if skip vpid then
        teacher_scan skip score visited_masks (j + 1) vpids' min_idx min_dist
      else
        ok ← legal visited_masks j;
        if ok : bool then
          dist ← score vpid;
          if PrimFloat.ltb dist min_dist
          then teacher_scan skip score visited_masks (j + 1) vpids' j dist
          else teacher_scan skip score visited_masks (j + 1) vpids'
                 min_idx min_dist
        else
          teacher_scan skip score visited_masks (j + 1) vpids' min_idx min_dist
  end.

(** [for j, vpid in enumerate(vpids): if goal_vp == vpid: a = j; break],
    with [a] initially 0. *)
Fixpoint match_goal (goal_vp : string) (j : Z) (vpids : list (option string))
    : Z :=
  match vpids with
  | [] => 0
  | vpid :: vpids' =>
      if bool_decide (vpid = Some goal_vp) then j
      else match_goal goal_vp (j + 1) vpids'
  end.

(** [sum(traj['path'], [])] *)
Definition flatten (segments : list (list string)) : list string :=
  concat segments.

(** The ndtw score (lines 443-448 and 503-508). *)
Definition ndtw_dist (env : Env) (ob : Ob) (traj_path : list (list string))
    (vpid : option string) : result float :=
  vp ← of_option KeyError vpid;
  table ← shortest_distances env (ByScan (scan ob));
  sp ← shortest_paths env (scan ob) (viewpoint ob) vp;
  d ← cal_dtw_nDTW env table (flatten traj_path ++ tail sp) (gt_path ob)
        0x1.8p+1%float;
  Ok (PrimFloat.opp d).

(** The spl score towards [goal] (lines 451-452, 512-513, 555-556). *)
Definition spl_dist (env : Env) (ob : Ob) (goal : string) (vp : string)
    : result float :=
  table ← shortest_distances env (ByScanBlock (scan ob) (block ob));
  d1 ← table vp goal;
  d2 ← table (viewpoint ob) vp;
  Ok (PrimFloat.add d1 d2).

(** [_teacher_action], for element [i] of the batch. *)
Definition _teacher_action (args : Args) (env : Env) (i : Z) (ob : Ob)
    (vpids : list (option string)) (ended : bool)
    (visited_masks : option (list bool)) : result Z :=
  if ended then Ok (ignoreid args)
  else
    final ← py_get (gt_path ob) (-1);
    if String.eqb (viewpoint ob) final then Ok 0
    else
      teacher_scan
        (λ _, false)
        (λ vpid,
           vp ← of_option KeyError vpid;
           table ← shortest_distances env (ByIndexScan i (scan ob));
           d1 ← table vp final;
           d2 ← table (viewpoint ob) vp;
           Ok (PrimFloat.add d1 d2))
        visited_masks 0 vpids (ignoreid args) PrimFloat.infinity.

(** [_teacher_action_r4r], for one element of the batch. *)
Definition _teacher_action_r4r (args : Args) (env : Env) (gmap : GraphMap)
    (ob : Ob) (vpids : list (option string)) (ended : bool)
    (visited_masks : option (list bool)) (imitation_learning : bool)
    (t : Z) (traj_path : list (list string)) : result Z :=
  if ended then Ok (ignoreid args)
  else if imitation_learning then
    cur ← py_get (gt_path ob) t;
    if negb (String.eqb (viewpoint ob) cur) then Raise AssertionError
    else if t =? Z.of_nat (length (gt_path ob)) - 1 then Ok 0
    else
      goal_vp ← py_get (gt_path ob) (t + 1);
      Ok (match_goal goal_vp 0 vpids)
  else
    final ← py_get (gt_path ob) (-1);
    if String.eqb (viewpoint ob) final then Ok 0
    else
      teacher_scan
        (λ vpid, fge (graph_distance gmap (viewpoint ob) vpid) sentinel)
        (λ vpid,
           match expert_policy args with
           | ndtw => ndtw_dist env ob traj_path vpid
           | spl =>
               vp ← of_option KeyError vpid;
               spl_dist env ob (endpoint ob) vp
           end)
        visited_masks 0 vpids (ignoreid args) PrimFloat.infinity.

(** [_teacher_action_r4r_vln], for one element of the batch; [t] is
    [t[i]]. *)
Definition _teacher_action_r4r_vln (args : Args) (env : Env) (gmap : GraphMap)
    (ob : Ob) (vpids : list (option string)) (ended : bool)
    (visited_masks : option (list bool)) (imitation_learning : bool)
    (t : Z) (traj_path : list (list string)) (base_t : Z) : result Z :=
  if ended then Ok (ignoreid args)
  else if imitation_learning then
    match (cur ← py_get (gt_path ob) t;
           orig ← py_get (original_path ob) base_t;
           Ok (String.eqb (viewpoint ob) cur
               && String.eqb (viewpoint ob) orig)) with
    | Ok true =>
        if t =? Z.of_nat (length (gt_path ob)) - 1 then Ok 0
        else
          goal_vp ← py_get (original_path ob) (base_t + 1);
          Ok (match_goal goal_vp 0 vpids)
    | _ => Raise SystemExit
    end
  else
    final ← py_get (gt_path ob) (-1);
    if String.eqb (viewpoint ob) final then Ok 0
    else
      teacher_scan
        (λ _, false)
        (λ vpid,
           match expert_policy args with
           | ndtw => ndtw_dist env ob traj_path vpid
           | spl =>
               vp ← of_option KeyError vpid;
               real_vpid ← (if contains "seen_node" vp
                            then of_option KeyError (real_name gmap !! vp)
                            else Ok vp);
               spl_dist env ob (endpoint ob) real_vpid
           end)
        visited_masks 0 vpids (ignoreid args) PrimFloat.infinity.

(** [_teacher_action_r4r_search] *)
Definition _teacher_action_r4r_search (args : Args) (env : Env)
    (gmap : GraphMap) (ob : Ob) (vpids : list (option string)) (ended : bool)
    (target : string) (visited_masks : option (list bool))
    (imitation_learning : bool) (t : Z) : result Z :=
  if ended then Ok (ignoreid args)
  else if imitation_learning then
    cur ← py_get (gt_path ob) t;
    if negb (String.eqb (viewpoint ob) cur) then Raise AssertionError
    else if t =? Z.of_nat (length (gt_path ob)) - 1 then Ok 0
    else
      goal_vp ← py_get (gt_path ob) (t + 1);
      Ok (match_goal goal_vp 0 vpids)
  else
    if String.eqb (viewpoint ob) target then Ok 0
    else
      teacher_scan
        (λ vpid, fge (graph_distance gmap (viewpoint ob) vpid) sentinel)
        (λ vpid, vp ← of_option KeyError vpid; spl_dist env ob target vp)
        visited_masks 0 vpids (ignoreid args) PrimFloat.infinity.

(** What the scoring loop of a teacher function selects: [a] is the
    ignore index and no candidate that takes part scores below infinity,
    or [a] is the position of a candidate that takes part and no other
    one has a smaller score.  [takes_part j vpid] says that the entry at
    position [j] is scored. *)
Definition closest_candidate (vpids : list (option string))
    (takes_part : Z → option string → Prop)
    (score : option string → result float) (ignore a : Z) : Prop :=
  (a = ignore
   ∧ ∀ (k : nat) vpid d,
       vpids !! k = Some vpid → takes_part (Z.of_nat k) vpid →
       score vpid = Ok d → PrimFloat.ltb d PrimFloat.infinity = false)
  ∨ ∃ vpid d_a,
      0 < a ∧ vpids !! Z.to_nat a = Some vpid ∧ takes_part a vpid
      ∧ score vpid = Ok d_a
      ∧ PrimFloat.ltb d_a PrimFloat.infinity = true
      ∧ ∀ (k : nat) vpid' d,
          vpids !! k = Some vpid' → takes_part (Z.of_nat k) vpid' →
          score vpid' = Ok d → PrimFloat.ltb d d_a = false.

(** *** Action resolution *)

Definition radians_30 : float := 0x1.0c152382d7365p-1%float.   (* math.radians(30) *)

Definition heading_of (viewidx : Z) : float :=
  PrimFloat.mul (float_of_Z (viewidx mod 12)) radians_30.

Definition elevation_of (viewidx : Z) : float :=
  PrimFloat.mul (float_of_Z (viewidx / 12 - 1)) radians_30.

(** ['%s_%s' % (scan, vp)] *)
Definition scanvp_key (scan vp : string) : string := scan +:+ "_" +:+ vp.

(** [self.scanvp_cands] *)
Abbreviation cand_cache := (gmap string (gmap string Z)).

Definition update_row (row : gmap string Z) (cands : list Cand) : gmap string Z :=
  foldl (λ r c, <[viewpointId c := pointId c]> r) row cands.

(** [_update_scanvp_cands_search] *)
Definition _update_scanvp_cands_search (cache : cand_cache) (ob : Ob)
    : cand_cache :=
  let scanvp := scanvp_key (scan ob) (viewpoint ob) in
  <[scanvp := update_row (default ∅ (cache !! scanvp)) (candidate ob)]> cache.

(** [_update_scanvp_cands] *)
Definition _update_scanvp_cands (cache : cand_cache) (obs : list Ob)
    : cand_cache :=
  foldl _update_scanvp_cands_search cache obs.

(** What [sims[i].newEpisode([scan], [vp], [heading], [elevation])]
    leaves in simulator [i]. *)
Record Sim := mkSim {
  sim_scan : string;
  sim_viewpoint : string;
  sim_heading : float;
  sim_elevation : float;
}.

(** The lines shared by [make_equiv_action], [make_equiv_action_vln] and
    [make_equiv_action_search] for an action that is not [None]
    (573-581, 592-600, 616-626): the new [traj['path']] and the call of
    [newEpisode]. *)
Definition take_hop (cache : cand_cache) (gmap : GraphMap) (ob : Ob)
    (traj_path : list (list string)) (action : string)
    : result (list (list string) * Sim) :=
  hops ← graph_path gmap (viewpoint ob) (Some action);
  let traj_path' := traj_path ++ [hops] in
  prev_vp ← (if (length hops =? 1)%nat
             then seg ← py_get traj_path' (-2); py_get seg (-1)
             else py_get hops (-2));
  row ← of_option KeyError (cache !! scanvp_key (scan ob) prev_vp);
  viewidx ← of_option KeyError (row !! action);
  Ok (traj_path',
      mkSim (scan ob) action (heading_of viewidx) (elevation_of viewidx)).

(** One lane of the batch: what the rollout keeps per episode. *)
Record Lane := mkLane {
  lane_gmap : GraphMap;
  lane_ob : Ob;
  lane_traj : list (list string);
  lane_sim : Sim;
}.

(** [make_equiv_action], body of the loop for one lane. *)
Definition make_equiv_action (cache : cand_cache) (action : option string)
    (ln : Lane) : result Lane :=
  match action with
  | None => Ok ln
  | Some vp =>
      '(traj_path, sim) ← take_hop cache (lane_gmap ln) (lane_ob ln)
                            (lane_traj ln) vp;
      Ok (mkLane (lane_gmap ln) (lane_ob ln) traj_path sim)
  end.

(** [make_equiv_action_search] *)
Definition make_equiv_action_search (cache : cand_cache)
    (action : option string) (ln : Lane) : result Lane :=
  match action with
  | None => Ok ln
  | Some vp =>
      '(traj_path, sim) ← take_hop cache (lane_gmap ln) (lane_ob ln)
                            (lane_traj ln) vp;
      Ok (mkLane (lane_gmap ln) (lane_ob ln) traj_path sim)
  end.

(** *** The inputs of the navigation network *)

Record NavInputs := mkNav {
  gmap_vpids : list (option string);
  gmap_visited_masks : list bool;
  no_vp_left : bool;
  seen_mask : list bool;
  vp_cand_vpids : list (option string);
  vp_nav_masks : list bool;
}.

(** The three lists filled by the loop over [gmap.node_positions.keys()]
    (lines 246-258). *)
Definition is_visited (args : Args) (gmap : GraphMap) (ob : Ob) (k : string)
    : bool :=
  if act_visited_nodes args then String.eqb k (viewpoint ob)
  else graph_visited gmap k.

Definition visited_vpids (args : Args) (gmap : GraphMap) (ob : Ob)
    : list string :=
  filter (λ k, is_visited args gmap ob k = true) (node_positions gmap).

Definition unvisited_vpids (args : Args) (gmap : GraphMap) (ob : Ob)
    : list string :=
  filter (λ k, is_visited args gmap ob k = false) (node_positions gmap).

Definition is_seen (args : Args) (gmap : GraphMap) (ob : Ob) (k : string)
    : bool :=
  negb (act_visited_nodes args)
  && negb (graph_visited gmap k)
  && fge (graph_distance gmap (viewpoint ob) (Some k)) sentinel.

Definition seen_vp (args : Args) (gmap : GraphMap) (ob : Ob) : list string :=
  filter (λ k, is_seen args gmap ob k = true) (node_positions gmap).


(** [seen_mask = ones(L); seen_mask[0, seen_id] = 0] *)
Definition clear_at (mask : list bool) (ids : list Z) : list bool :=
  foldl (λ m i, <[Z.to_nat i := false]> m) mask ids.

(** [_nav_gmap_variable_search] and [_nav_vp_variable_search], as far as
    the choice of the next hop reads them.  The [IndexError] is that of
    [gmap_img_embeds[0]] (line 275) when the map offers no node besides
    the stop entry. *)
Definition _nav_gmap_variable_search (args : Args) (gmap : GraphMap) (ob : Ob)
    : result NavInputs :=
  let visited := visited_vpids args gmap ob in
  let unvisited := unvisited_vpids args gmap ob in
  let no_left :=
    (length unvisited =? 0)%nat || forallb (contains "seen_node") unvisited in
  let vpids :=
    if enc_full_graph args
    then None :: (Some <$> visited) ++ (Some <$> unvisited)
    else None :: (Some <$> unvisited) in
  let masks :=
    if enc_full_graph args
    then false :: replicate (length visited) true
               ++ replicate (length unvisited) false
    else replicate (length vpids) false in
  seen_id ← mapM (λ x, index_of (Some x) vpids) (seen_vp args gmap ob);
  if (length vpids <=? 1)%nat then Raise IndexError
  else
    Ok (mkNav vpids masks no_left
          (clear_at (replicate (length vpids) true) seen_id)
          (None :: (Some ∘ viewpointId <$> candidate ob))
          (true :: replicate (length (candidate ob) + length (seen_node ob)) true
           ++ replicate
                (36 - size (list_to_set (C:=gset Z)
                              (pointId <$> candidate ob ++ seen_node ob)))
                false)).

(** *** torch operations *)

(** [logits.masked_fill_(mask, value)] on one row; the mask has to have
    the length of the row or length 1. *)
Definition masked_fill (logits : list float) (mask : list bool) (value : float)
    : result (list float) :=
  if (length mask =? length logits)%nat
  then Ok (zip_with (λ x (m : bool), if m then value else x) logits mask)
  else if (length mask =? 1)%nat
  then Ok ((λ x, if default false (head mask) then value else x) <$> logits)
  else Raise RuntimeError.

(** [row.max()]: the index of the first maximal entry; a NaN counts as
    maximal. *)
Fixpoint argmax_from (best_i : Z) (best : float) (j : Z) (l : list float) : Z :=
  match l with
  | [] => best_i
  | x :: l' =>
      if negb (PrimFloat.is_nan best)
         && (PrimFloat.is_nan x || PrimFloat.ltb best x)
      then argmax_from j x (j + 1) l'
      else argmax_from best_i best (j + 1) l'
  end.

Definition row_argmax (l : list float) : result Z :=
  match l with
  | [] => Raise RuntimeError
  | x :: l' => Ok (argmax_from 0 x 1 l')
  end.

Record NavOuts := mkOuts {
  local_logits : list float;
  global_logits : list float;
  fused_logits : list float;
  visited_global_logits : list float;
}.

(** What the agent calls and does not define: the network (given the map,
    the observation, the search target, the viewpoint the search started
    from and the step), torch's softmax, loss and sampling, numpy's random
    numbers, the simulator and [GraphMap.update_graph].  [H] is whatever
    these keep between calls (node embeddings, random state). *)
Record World (H : Type) := mkWorld {
  vln_bert : H → GraphMap → Ob → string → string → Z → NavOuts * H;
  softmax : list float → list float;
  criterion : list float → Z → float;
  categorical_sample : H → list float → result (Z * H);
  rand_explores : H → bool * H;
  random_choice : H → list Z → result (Z * H);
  get_ob : Sim → Ob;
  update_graph : GraphMap → Ob → GraphMap;
  env : Env;
}.
Arguments mkWorld {H}.
Arguments vln_bert {H}.
Arguments softmax {H}.
Arguments criterion {H}.
Arguments categorical_sample {H}.
Arguments rand_explores {H}.
Arguments random_choice {H}.
Arguments get_ob {H}.
Arguments update_graph {H}.
Arguments env {H}.



(** *** The search fallback *)

(** [nav_logits], [nav_vpids] by fusion mode (lines 724-732). *)
Definition select_fusion (args : Args) (outs : NavOuts) (nav : NavInputs)
    : list float * list (option string) :=
  match fusion args with
  | local => (local_logits outs, vp_cand_vpids nav)
  | global => (global_logits outs, gmap_vpids nav)
  | dynamic => (fused_logits outs, gmap_vpids nav)
  end.

(** [np.arange(len(mask))[mask]] *)
Definition true_indices (mask : list bool) : list Z :=
  omap (λ p : nat * bool, if p.2 then Some (Z.of_nat p.1) else None)
       (imap pair mask).

(** "Determinate the next navigation viewpoint" (lines 754-776).
    [gmap_masks] is all true for the single row of the search. *)
Definition choose {H} (W : World H) (args : Args) (feedback : Feedback)
    (nav_targets : option Z) (nav : NavInputs)
    (nav_logits nav_probs : list float) (h : H) : result (Z * H) :=
  match feedback with
  | teacher => a ← of_option NameError nav_targets; Ok (a, h)
  | argmax => a ← row_argmax nav_logits; Ok (a, h)
  | sample => categorical_sample W h nav_probs
  | expl_sample =>
      a ← row_argmax nav_probs;
      let '(explore, h1) := rand_explores W h in
      let cpu_nav_masks :=
        match fusion args with
        | local => vp_nav_masks nav
        | _ => negb <$> gmap_visited_masks nav
        end in
      if explore : bool then random_choice W h1 (true_indices cpu_nav_masks)
      else Ok (a, h1)
  end.

(** What the search loop carries from one iteration to the next. *)
Record SearchState (H : Type) := mkSearch {
  st_lane : Lane;
  st_cands : cand_cache;
  st_hidden : H;
  st_loss : float;
}.
Arguments mkSearch {H}.
Arguments st_lane {H}.
Arguments st_cands {H}.
Arguments st_hidden {H}.
Arguments st_loss {H}.

Definition set_step_id (gmap : GraphMap) (vp : string) (n : Z) : GraphMap :=
  mkGraphMap (graph_distance gmap) (graph_visited gmap) (graph_path gmap)
    (real_name gmap) (node_positions gmap)
    (<[vp := n]> (node_step_ids gmap)) (node_stop_scores gmap).

Definition set_stop_score (gmap : GraphMap) (vp : string) (p : float)
    : GraphMap :=
  mkGraphMap (graph_distance gmap) (graph_visited gmap) (graph_path gmap)
    (real_name gmap) (node_positions gmap)
    (node_step_ids gmap) (dict_set vp p (node_stop_scores gmap)).

(** The decision of one iteration of [search_rollout] (lines 687-788):
    the loss, the environment action [cpu_a_t[0]] and the map with its
    bookkeeping done. *)
Definition search_decide {H} (W : World H) (args : Args) (feedback : Feedback)
    (train_ml : option float) (target real_target search_start_vp : string)
    (start_step step : Z) (s : SearchState H)
    : result (option string * GraphMap * H * float) :=
  let ob := lane_ob (st_lane s) in
  let gmap0 := lane_gmap (st_lane s) in
  let gmap1 := if negb (step =? start_step)
               then set_step_id gmap0 (viewpoint ob) (step + 1) else gmap0 in
  let '(nav_outs, h1) :=
    vln_bert W (st_hidden s) gmap1 ob target search_start_vp step in
  nav ← _nav_gmap_variable_search args gmap1 ob;
  let '(logits0, nav_vpids) := select_fusion args nav_outs nav in
  nav_logits ← masked_fill logits0 (negb <$> seen_mask nav)
                  PrimFloat.neg_infinity;
  let nav_probs := softmax W nav_logits in
  stop_prob ← py_get nav_probs 0;
  let gmap2 := set_stop_score gmap1 (viewpoint ob) stop_prob in
  '(nav_targets, loss) ←
     match train_ml with
     | None => Ok (None, st_loss s)
     | Some _ =>
         a ← _teacher_action_r4r_search args (env W) gmap2 ob nav_vpids false
               real_target
               (match fusion args with
                | local => None
                | _ => Some (gmap_visited_masks nav)
                end)
               (is_teacher feedback) step;
         Ok (Some a, PrimFloat.add (st_loss s) (criterion W nav_logits a))
     end;
  '(a_t, h2) ← choose W args feedback nav_targets nav nav_logits nav_probs h1;
  let a_t_stop :=
    match feedback with
    | teacher | sample => String.eqb (viewpoint ob) real_target
    | _ => (a_t =? 0) || graph_visited gmap2 target
    end in
  cpu_a_t ← (if a_t_stop || no_vp_left nav
                || (step =? max_action_len args - 1)
             then Ok None
             else py_get nav_vpids a_t);
  Ok (cpu_a_t, gmap2, h2, loss).

(** [search_rollout]: the loop, with [fuel] bounding the number of
    iterations ([None] when the fuel runs out).  [ended] is false
    whenever an iteration starts, since the loop is left as soon as it
    becomes true. *)
Fixpoint search_loop {H} (fuel : nat) (W : World H) (args : Args)
    (feedback : Feedback) (train_ml : option float)
    (target real_target search_start_vp : string) (start_step step : Z)
    (s : SearchState H) : option (result (Z * SearchState H)) :=
  match fuel with
  | O => None
  | S fuel' =>
      match search_decide W args feedback train_ml target real_target
              search_start_vp start_step step s with
      | Raise e => Some (Raise e)
      | Ok (cpu_a_t, gmap, h, loss) =>
          let ln := st_lane s in
          match make_equiv_action_search (st_cands s) cpu_a_t
                  (mkLane gmap (lane_ob ln) (lane_traj ln) (lane_sim ln)) with
          | Raise e => Some (Raise e)
          | Ok ln1 =>
              let ob' := get_ob W (lane_sim ln1) in
              let s' :=
                mkSearch
                  (mkLane (update_graph W (lane_gmap ln1) ob') ob'
                     (lane_traj ln1) (lane_sim ln1))
                  (_update_scanvp_cands_search (st_cands s) ob') h loss in
              match cpu_a_t with
              | None => Some (Ok (step, s'))
              | Some _ =>
                  search_loop fuel' W args feedback train_ml target
                    real_target search_start_vp start_step (step + 1) s'
              end
          end
      end
  end.

Definition search_rollout {H} (fuel : nat) (W : World H) (args : Args)
    (feedback : Feedback) (train_ml : option float)
    (target real_target : string) (start_step : Z) (s : SearchState H)
    : option (result (Z * SearchState H)) :=
  search_loop fuel W args feedback train_ml target real_target
    (viewpoint (lane_ob (st_lane s))) start_step start_step
    (mkSearch (st_lane s) (st_cands s) (st_hidden s) PrimFloat.zero).

(** What [make_equiv_action_vln] leaves for lane [i]. *)
Record Resolved (H : Type) := mkResolved {
  res_a_t : option string;        (* a_t[i] *)
  res_step : Z;                   (* steps[i] *)
  res_just_ended : bool;          (* just_ended[i] *)
  res_ml_loss : float;
  res_state : SearchState H;
}.
Arguments mkResolved {H}.
Arguments res_a_t {H}.
Arguments res_step {H}.
Arguments res_just_ended {H}.
Arguments res_ml_loss {H}.
Arguments res_state {H}.

(** [make_equiv_action_vln], body of the loop for lane [i]; [s] holds the
    lane, the cache and the collaborators' state, [st_loss s] is
    [ml_loss]. *)
Definition make_equiv_action_vln {H} (fuel : nat) (W : World H) (args : Args)
    (feedback : Feedback) (train_ml : option float) (a_t : option string)
    (step : Z) (just_ended : bool) (s : SearchState H)
    : option (result (Resolved H)) :=
  match a_t with
  | None => Some (Ok (mkResolved a_t step just_ended (st_loss s) s))
  | Some action =>
      let ln := st_lane s in
      if PrimFloat.ltb
           (graph_distance (lane_gmap ln) (viewpoint (lane_ob ln)) (Some action))
           sentinel
      then
        Some (ln' ← make_equiv_action (st_cands s) a_t ln;
              Ok (mkResolved a_t step just_ended (st_loss s)
                    (mkSearch ln' (st_cands s) (st_hidden s) (st_loss s))))
      else
        match real_name (lane_gmap ln) !! action with
        | None => Some (Raise KeyError)
        | Some real_target =>
            match search_rollout fuel W args feedback train_ml action
                    real_target step s with
            | None => None
            | Some (Raise e) => Some (Raise e)
            | Some (Ok (step', s')) =>
                let ml_loss := PrimFloat.add (st_loss s) (st_loss s') in
                let budget_spent := step' =? max_action_len args - 1 in
                Some (Ok (mkResolved
                            (if budget_spent then None else a_t)
                            step'
                            (if budget_spent then true else just_ended)
                            ml_loss
                            (mkSearch (st_lane s') (st_cands s') (st_hidden s')
                               ml_loss)))
            end
        end
  end.

(** *** The end of an iteration of [rollout] (lines 963-1033) *)

(** "Determine stop actions" (lines 964-968), for one lane. *)
Definition stop_flag (feedback : Feedback) (ob : Ob) (a_t : Z) : result bool :=
  match feedback with
  | teacher | sample =>
      final ← py_get (gt_path ob) (-1);
      Ok (String.eqb (viewpoint ob) final)
  | _ => Ok (a_t =? 0)
  end.

(** "Prepare environment action" (lines 971-977): [cpu_a_t[i]] and
    [just_ended[i]]. *)
Definition prepare_action (args : Args) (a_t_stop ended : bool)
    (nav : NavInputs) (step : Z) (nav_vpids : list (option string)) (a_t : Z)
    (just_ended : bool) : result (option string * bool) :=
  if a_t_stop || ended || no_vp_left nav || (step =? max_action_len args - 1)
  then Ok (None, true)
  else vpid ← py_get nav_vpids a_t; Ok (vpid, just_ended).

(** The loop of [_stop_action] (lines 650-655). *)
Fixpoint stop_scan (env : Env) (ob : Ob) (visited_masks : list bool) (i : Z)
    (vpids : list (option string)) (min_idx : Z) (min_dist : float)
    : result Z :=
  match vpids with
  | [] => Ok min_idx
  | vpid :: vpids' =>
      ok ← (if 0 <? i then py_get visited_masks i else Ok false);
      if ok : bool then
        table ← shortest_distances env (ByScanBlock (scan ob) (block ob));
        vp ← of_option KeyError vpid;
        dist ← table vp (endpoint ob);
        if PrimFloat.ltb dist min_dist
        then stop_scan env ob visited_masks (i + 1) vpids' i dist
        else stop_scan env ob visited_masks (i + 1) vpids' min_idx min_dist
      else stop_scan env ob visited_masks (i + 1) vpids' min_idx min_dist
  end.

(** [_stop_action] *)
Definition _stop_action (args : Args) (env : Env) (ob : Ob)
    (vpids : list (option string)) (visited_masks : list bool) : result Z :=
  stop_scan env ob visited_masks 0 vpids (ignoreid args) PrimFloat.infinity.

(** The loop over [node_stop_scores.items()] of lines 1007-1010. *)
Fixpoint best_stop (scores : list (string * float))
    (stop_node : option string) (stop_score : float) : option string :=
  match scores with
  | [] => stop_node
  | (k, v) :: scores' =>
      if PrimFloat.ltb stop_score v then best_stop scores' (Some k) v
      else best_stop scores' stop_node stop_score
  end.

(** "Determinate the stop viewpoint" (lines 986-1019), for one lane: the
    new [traj[i]['path']] and [ml_loss].  [ob] is [obs[i]], the
    observation the iteration started with; [gmap] and [traj_path] are
    what the resolver has left.  The entries of [traj[i]['details']] are
    left out. *)
Definition stop_viewpoint {H} (W : World H) (args : Args)
    (feedback : Feedback) (train_ml : option float) (ended just_ended : bool)
    (ob : Ob) (nav_vpids : list (option string)) (nav : NavInputs)
    (outs : NavOuts) (gmap : GraphMap) (traj_path : list (list string))
    (ml_loss : float) : result (list (list string) * float) :=
  if negb ended && just_ended then
    if seen_stop args then
      let stop_logits := visited_global_logits outs in
      ml_loss' ← match train_ml with
                 | None => Ok ml_loss
                 | Some _ =>
                     stop_targets ← _stop_action args (env W) ob nav_vpids
                                      (gmap_visited_masks nav);
                     Ok (PrimFloat.add ml_loss
                           (criterion W stop_logits stop_targets))
                 end;
      match feedback with
      | teacher =>
          final ← py_get (gt_path ob) (-1);
          if String.eqb (viewpoint ob) final then Ok (traj_path, ml_loss')
          else Raise AssertionError
      | _ =>
          s_t ← row_argmax stop_logits;
          stop_node ← py_get nav_vpids s_t;
          if bool_decide (stop_node = Some (viewpoint ob))
          then Ok (traj_path, ml_loss')
          else
            hops ← graph_path gmap (viewpoint ob) stop_node;
            Ok (traj_path ++ [hops], ml_loss')
      end
    else
      match best_stop (node_stop_scores gmap) None PrimFloat.neg_infinity with
      | Some stop_node =>
          if String.eqb (viewpoint ob) stop_node then Ok (traj_path, ml_loss)
          else
            hops ← graph_path gmap (viewpoint ob) (Some stop_node);
            Ok (traj_path ++ [hops], ml_loss)
      | None => Ok (traj_path, ml_loss)
      end
  else Ok (traj_path, ml_loss).

(** [ended[:] = np.logical_or(ended, [x is None for x in cpu_a_t])]
    (line 1028), for one lane; [cpu_a_t] is the list
    [make_equiv_action_vln] has written to. *)
Definition rollout_ended (ended : bool) (cpu_a_t : option string) : bool :=
  ended || bool_decide (cpu_a_t = None).

(** What an iteration of [rollout] leaves of a lane. *)
Record Episode (H : Type) := mkEpisode {
  ep_state : SearchState H;
  ep_step : Z;
  ep_ended : bool;
  ep_just_ended : bool;
}.
Arguments mkEpisode {H}.
Arguments ep_state {H}.
Arguments ep_step {H}.
Arguments ep_ended {H}.
Arguments ep_just_ended {H}.

(** Lines 963-1033 of [rollout] for a batch of one lane, from the index
    [a_t] the iteration has chosen: the environment action, its
    resolution, the stop viewpoint, the new observation and the update of
    [ended] and [steps]. *)
Definition rollout_act {H} (fuel : nat) (W : World H) (args : Args)
    (feedback : Feedback) (train_ml : option float)
    (nav_vpids : list (option string)) (nav : NavInputs) (outs : NavOuts)
    (a_t : Z) (step : Z) (ended just_ended : bool) (s : SearchState H)
    : option (result (Episode H)) :=
  let ob := lane_ob (st_lane s) in
  match (a_t_stop ← stop_flag feedback ob a_t;
         prepare_action args a_t_stop ended nav step nav_vpids a_t
           just_ended) with
  | Raise e => Some (Raise e)
  | Ok (cpu_a_t, just_ended1) =>
      match (if search_target args
             then make_equiv_action_vln fuel W args feedback train_ml cpu_a_t
                    step just_ended1 s
             else Some (ln ← make_equiv_action (st_cands s) cpu_a_t (st_lane s);
                        Ok (mkResolved cpu_a_t step just_ended1 (st_loss s)
                              (mkSearch ln (st_cands s) (st_hidden s)
                                 (st_loss s))))) with
      | None => None
      | Some (Raise e) => Some (Raise e)
      | Some (Ok r) =>
          let ln := st_lane (res_state r) in
          Some ('(traj_path, ml_loss) ←
                   stop_viewpoint W args feedback train_ml ended
                     (res_just_ended r) ob nav_vpids nav outs (lane_gmap ln)
                     (lane_traj ln) (res_ml_loss r);
                let ob' := get_ob W (lane_sim ln) in
                let gmap' := if ended then lane_gmap ln
                             else update_graph W (lane_gmap ln) ob' in
                let ended' := rollout_ended ended (res_a_t r) in
                Ok (mkEpisode
                      (mkSearch (mkLane gmap' ob' traj_path (lane_sim ln))
                         (_update_scanvp_cands (st_cands (res_state r)) [ob'])
                         (st_hidden (res_state r)) ml_loss)
                      (if ended' then res_step r else res_step r + 1)
                      ended' (res_just_ended r)))
      end
  end.

(** Lines 894-895 of [rollout]. *)
Definition rollout_mask (args : Args) (nav_logits : list float)
    (nav : NavInputs) : result (list float) :=
  if negb (search_target args)
  then masked_fill nav_logits (negb <$> seen_mask nav) PrimFloat.neg_infinity
  else Ok nav_logits.

(** *** The navigation inputs of a batch *)

(** [pad_sequence(rows, batch_first=True)]: every row is filled up to
    the length of the longest with the padding value. *)
Definition pad {A} (x : A) (n : nat) (l : list A) : list A :=
  l ++ replicate (n - length l) x.

Definition longest {A} (rows : list (list A)) : nat :=
  foldr (λ row n, Nat.max (length row) n) 0%nat rows.

(** One turn of the loop over the lanes in [_nav_gmap_variable] (lines
    160-213): [gmap_vpids], [gmap_visited_masks], [no_vp_left] and
    [seen_id]. *)
Definition nav_lane (args : Args) (gmap : GraphMap) (ob : Ob)
    : result (list (option string) * list bool * bool * list Z) :=
  let visited := visited_vpids args gmap ob in
  let unvisited := unvisited_vpids args gmap ob in
  let no_left :=
    (length unvisited =? 0)%nat || forallb (contains "seen_node") unvisited in
  let vpids :=
    if enc_full_graph args
    then None :: (Some <$> visited) ++ (Some <$> unvisited)
    else None :: (Some <$> unvisited) in
  let masks :=
    if enc_full_graph args
    then false :: replicate (length visited) true
               ++ replicate (length unvisited) false
    else replicate (length vpids) false in
  seen_id ← mapM (λ x, index_of (Some x) vpids) (seen_vp args gmap ob);
  if (length vpids <=? 1)%nat then Raise IndexError
  else Ok (vpids, masks, no_left, seen_id).

(** [nav_types] of one lane in [_panorama_feature_variable] (lines
    66-83), as booleans [nav_types == 1]. *)
Definition nav_types (ob : Ob) : list bool :=
  replicate (length (candidate ob) + length (seen_node ob)) true
  ++ replicate
       (36 - size (list_to_set (C:=gset Z)
                     (pointId <$> candidate ob ++ seen_node ob)))
       false.

(** [_nav_gmap_variable] and [_nav_vp_variable] for a batch that is not
    empty, as far as the choice of the next hop reads them: one row per
    lane, the masks padded to the longest row of the batch. *)
Definition _nav_gmap_variable (args : Args) (lane : GraphMap * Ob)
    (lanes : list (GraphMap * Ob)) : result (list NavInputs) :=
  rows ← mapM (λ l : GraphMap * Ob, nav_lane args l.1 l.2) (lane :: lanes);
  let max_gmap_len := longest ((λ r, r.1.1.1) <$> rows) in
  let max_views := longest (nav_types ∘ snd <$> lane :: lanes) in
  Ok (zip_with
        (λ (r : list (option string) * list bool * bool * list Z)
           (l : GraphMap * Ob),
           mkNav r.1.1.1 (pad false max_gmap_len r.1.1.2) r.1.2
             (clear_at (replicate max_gmap_len true) r.2)
             (None :: (Some ∘ viewpointId <$> candidate l.2))
             (true :: pad false max_views (nav_types l.2)))
        rows (lane :: lanes)).

(** *** The rollout of one episode *)

(** The head of an iteration of [rollout] (lines 846-962) for a batch of
    one lane that has not ended: the map bookkeeping, the navigation
    inputs, the network, the teacher and the choice of [a_t].
    [nav_bert] stands for the panorama and navigation passes of the
    network and the node embeddings it leaves in the map; [--dataset]
    is r2r or r4r, which take the same branch. *)
Definition rollout_decide {H} (W : World H)
    (nav_bert : H → GraphMap → Ob → NavOuts * H) (args : Args)
    (feedback : Feedback) (train_ml : option float) (step base_t : Z)
    (s : SearchState H)
    : result (Z * list (option string) * NavInputs * NavOuts * SearchState H) :=
  let ln := st_lane s in
  let ob := lane_ob ln in
  let gmap1 := set_step_id (lane_gmap ln) (viewpoint ob) (step + 1) in
  let '(nav_outs, h1) := nav_bert (st_hidden s) gmap1 ob in
  navs ← _nav_gmap_variable args (gmap1, ob) [];
  nav ← py_get navs 0;
  let '(logits0, nav_vpids) := select_fusion args nav_outs nav in
  nav_logits ← rollout_mask args logits0 nav;
  let nav_probs := softmax W nav_logits in
  stop_prob ← py_get nav_probs 0;
  let gmap2 := set_stop_score gmap1 (viewpoint ob) stop_prob in
  '(nav_targets, loss) ←
     match train_ml with
     | None => Ok (None, st_loss s)
     | Some _ =>
         let visited_masks :=
           match fusion args with
           | local => None
           | _ => Some (gmap_visited_masks nav)
           end in
         a ← (if search_target args
              then _teacher_action_r4r_vln args (env W) gmap2 ob nav_vpids
                     false visited_masks (is_teacher feedback) step
                     (lane_traj ln) base_t
              else _teacher_action_r4r args (env W) gmap2 ob nav_vpids false
                     visited_masks (is_teacher feedback) base_t
                     (lane_traj ln));
         Ok (Some a, PrimFloat.add (st_loss s) (criterion W nav_logits a))
     end;
  '(a_t, h2) ← choose W args feedback nav_targets nav nav_logits nav_probs h1;
  Ok (a_t, nav_vpids, nav, nav_outs,
      mkSearch (mkLane gmap2 ob (lane_traj ln) (lane_sim ln)) (st_cands s) h2
        loss).

(** The loop of [rollout] (lines 845-1033) for a batch of one lane; the
    fuel bounds the iterations of this loop and of the searches it
    starts. *)
Fixpoint rollout_loop {H} (fuel : nat) (W : World H)
    (nav_bert : H → GraphMap → Ob → NavOuts * H) (args : Args)
    (feedback : Feedback) (train_ml : option float) (step base_t : Z)
    (just_ended : bool) (s : SearchState H) : option (result (Episode H)) :=
  match fuel with
  | O => None
  | S fuel' =>
      match rollout_decide W nav_bert args feedback train_ml step base_t s with
      | Raise e => Some (Raise e)
      | Ok (a_t, nav_vpids, nav, outs, s1) =>
          match rollout_act fuel' W args feedback train_ml nav_vpids nav outs
                  a_t step false just_ended s1 with
          | None => None
          | Some (Raise e) => Some (Raise e)
          | Some (Ok ep) =>
              if ep_ended ep then Some (Ok ep)
              else rollout_loop fuel' W nav_bert args feedback train_ml
                     (ep_step ep) (base_t + 1) (ep_just_ended ep)
                     (ep_state ep)
          end
      end
  end.

(** [rollout] for one episode, from the first observation: the cache is
    updated, the map is built from the start viewpoint
    ([new_gmap] stands for [GraphMap(ob['viewpoint'])]) and the
    trajectory starts there; the result is [traj[0]['path']]. *)
Definition rollout {H} (fuel : nat) (W : World H)
    (nav_bert : H → GraphMap → Ob → NavOuts * H)
    (new_gmap : string → GraphMap) (args : Args) (feedback : Feedback)
    (train_ml : option float) (cache : cand_cache) (h : H) (sim : Sim)
    : option (result (list (list string))) :=
  let ob := get_ob W sim in
  let s := mkSearch
             (mkLane (update_graph W (new_gmap (viewpoint ob)) ob) ob
                [[viewpoint ob]] sim)
             (_update_scanvp_cands cache [ob]) h PrimFloat.zero in
  match rollout_loop fuel W nav_bert args feedback train_ml 0 0 false s with
  | None => None
  | Some (Raise e) => Some (Raise e)
  | Some (Ok ep) => Some (Ok (lane_traj (st_lane (ep_state ep))))
  end.

End Agent.

(** ** Scenarios *)

Module Scenario.
Import NX BlockEdge.

(** Path A-B-C-D with the detour B-X-C. *)
Definition G_abcd : Graph :=
  from_edges [("A", "B"); ("B", "C"); ("C", "D"); ("B", "X"); ("X", "C")].

Definition path_abcd : list string := ["A"; "B"; "C"; "D"].


(** A triangle, and a path through it that passes A twice. *)
Definition G_tri : Graph := from_edges [("A", "B"); ("B", "C"); ("A", "C")].

Definition path_abac : list string := ["A"; "B"; "A"; "C"].

(** Sixteen waypoints in a line, with the shortcut P00-P02. *)
Definition path_16 : list string :=
  ["P00"; "P01"; "P02"; "P03"; "P04"; "P05"; "P06"; "P07";
   "P08"; "P09"; "P10"; "P11"; "P12"; "P13"; "P14"; "P15"].

Definition G_16 : Graph := from_edges (("P00", "P02") :: path_edges path_16).

(** An agent at A that sees the reachable B and a surrogate node that the
    map does not reach yet. *)
Definition ob_A : Agent.Ob :=
  Agent.mkOb "scan" "A" ["A"; "B"; "G"] ["A"; "B"; "G"] [] "G"
    [Agent.mkCand "B" 3] [Agent.mkCand "seen_node_0" 17].

Definition gmap_A : Agent.GraphMap :=
  Agent.mkGraphMap
    (λ a b, if bool_decide (b = Some "B") then 0x1p+0%float
            else 0x1.657a33bb7p+36%float)   (* 95959595959 *)
    (λ v, bool_decide (v = "A"))
    (λ a b, Ok (option_list b))
    {["seen_node_0" := "G"]}
    ["A"; "B"; "seen_node_0"]
    ∅ [].

(** Every pair of viewpoints two units apart. *)
Definition env_flat : Agent.Env :=
  Agent.mkEnv (λ _, Ok (λ _ _, Ok 0x1p+1%float))
    (λ _ a b, Ok [a; b])
    (λ _ _ _ _, Ok 0x1p-1%float).

Definition args_spl : Agent.Args :=
  Agent.mkArgs (-100) Agent.spl Agent.dynamic 15 false true true true.

(** The cache after the first observation, and the lane before and after
    the hop from A to B. *)
Definition cache_A : Agent.cand_cache := Agent._update_scanvp_cands ∅ [ob_A].

Definition lane_A : Agent.Lane :=
  Agent.mkLane gmap_A ob_A [["A"]]
    (Agent.mkSim "scan" "A" PrimFloat.zero PrimFloat.zero).

Definition lane_B : Agent.Lane :=
  Agent.mkLane gmap_A ob_A [["A"]; ["B"]]
    (Agent.mkSim "scan" "B" (Agent.heading_of 3) (Agent.elevation_of 3)).

(** Collaborators for the scenarios.  The network returns the same
    logits at every call; no exponential is at hand, so the weights that
    stand for the softmax keep the positive logits and give zero to the
    others, and the draw takes the heaviest entry. *)
Definition positive_part (l : list PrimFloat.float) : list PrimFloat.float :=
  (λ x, if PrimFloat.ltb PrimFloat.zero x then x else PrimFloat.zero) <$> l.

Definition draw_heaviest (h : unit) (p : list PrimFloat.float) : result (Z * unit) :=
  a ← Agent.row_argmax p;
  x ← py_get p a;
  if PrimFloat.ltb PrimFloat.zero x then Ok (a, h) else Raise ValueError.

Definition ob_at (sim : Agent.Sim) : Agent.Ob :=
  Agent.mkOb (Agent.sim_scan sim) (Agent.sim_viewpoint sim)
    ["A"; "B"; "G"] ["A"; "B"; "G"] [] "G"
    [Agent.mkCand "B" 3; Agent.mkCand "A" 9] [Agent.mkCand "seen_node_0" 17].

Definition world_with (logits : list PrimFloat.float) : Agent.World unit :=
  Agent.mkWorld
    (λ h _ _ _ _ _, (Agent.mkOuts [] logits logits logits, h))
    positive_part
    (λ _ _, PrimFloat.zero)
    draw_heaviest
    (λ h, (false, h))
    (λ _ _, Raise ValueError)
    ob_at
    (λ g _, g)
    env_flat.

(** Logits over [None, A, B, seen_node_0]: the surrogate node has the
    highest one. *)
Definition world_loop : Agent.World unit :=
  world_with [PrimFloat.zero; PrimFloat.zero; 0x1.4p+2%float; 0x1.2p+3%float].



Definition vpids_A : list (option string) :=
  [None; Some "B"; Some "seen_node_0"].

Definition vpids_seen_first : list (option string) :=
  [None; Some "seen_node_0"; Some "B"].

(** Teacher forcing with a budget of two steps: the agent stands on A,
    the next waypoint of its reference path, G, is known to the map but
    out of its reach, and the path to follow goes through B. *)
Definition args_teacher : Agent.Args :=
  Agent.mkArgs (-100) Agent.spl Agent.dynamic 2 false true true true.

Definition ob_T : Agent.Ob :=
  Agent.mkOb "scan" "A" ["A"; "B"; "G"] ["A"; "G"] [("A", "G")] "G"
    [Agent.mkCand "B" 3] [Agent.mkCand "G" 17].

Definition gmap_T : Agent.GraphMap :=
  Agent.mkGraphMap
    (λ a b, if bool_decide (b = Some "B") then 0x1p+0%float
            else 0x1.657a33bb7p+36%float)
    (λ v, bool_decide (v = "A"))
    (λ a b, Ok (option_list b))
    {["G" := "G"]}
    ["A"; "B"; "G"]
    ∅ [].

Definition search_T : Agent.SearchState unit :=
  Agent.mkSearch
    (Agent.mkLane gmap_T ob_T [["A"]]
       (Agent.mkSim "scan" "A" PrimFloat.zero PrimFloat.zero))
    (Agent._update_scanvp_cands ∅ [ob_T]) tt PrimFloat.zero.

Definition vpids_T : list (option string) :=
  [None; Some "A"; Some "B"; Some "G"].

Definition nav_T : Agent.NavInputs :=
  Agent.mkNav vpids_T [false; true; false; false] false
    [true; true; true; false] [] [].

Definition outs_T : Agent.NavOuts :=
  Agent.mkOuts [] [] [] [PrimFloat.zero; 0x1p+0%float; PrimFloat.zero;
                         PrimFloat.zero].

(** The same agent once it stands on the goal G. *)
Definition ob_G : Agent.Ob :=
  Agent.mkOb "scan" "G" ["A"; "B"; "G"] ["A"; "B"; "G"] [] "G"
    [Agent.mkCand "B" 21] [].

(** A script run over one annotation, and over one whose path walks the
    edge A-B in both directions. *)
(** A connectivity file of three entries: A and B see each other, C is
    not included. *)
Definition conn_abc : list Item :=
  [ mkItem "A" true [false; true; true]
      (replicate 12 PrimFloat.zero);
    mkItem "B" true [true; false; false]
      (replicate 12 PrimFloat.one);
    mkItem "C" false [true; false; false]
      (replicate 12 PrimFloat.zero) ].

(** Squares and square roots, for the two uses of [**] in [distance]. *)
Definition fpow_T (x y : float) : result float :=
  Ok (if PrimFloat.ltb PrimFloat.one y then PrimFloat.mul x x
      else PrimFloat.sqrt x).

Definition load_abcd (scans : gset string)
    : result (gmap string NX.Graph) :=
  Ok {["scan" := G_abcd]}.

Definition data_abcd : list BlockEdge.Annotation :=
  [BlockEdge.mkAnnotation "scan" path_abcd 7].

Definition path_aba : list string := ["A"; "B"; "A"].

(** The network of the rollout for the scenarios: the same logits at
    every call, the highest one on the last node. *)
Definition nav_bert_T (h : unit) (g : Agent.GraphMap) (o : Agent.Ob)
    : Agent.NavOuts * unit :=
  (Agent.mkOuts []
     [PrimFloat.zero; PrimFloat.zero; 0x1.4p+2%float; 0x1.2p+3%float]
     [PrimFloat.zero; PrimFloat.zero; 0x1.4p+2%float; 0x1.2p+3%float]
     [PrimFloat.zero; 0x1p+0%float; PrimFloat.zero; PrimFloat.zero], h).

End Scenario.

(** * Properties *)

(** A decidable statement about closed terms, settled by evaluation. *)
Ltac vm_compute_decide :=
  lazymatch goal with
  | |- ?P => apply (bool_decide_unpack P); vm_compute; exact I
  end.

(** ** The graph model *)

Section graph_facts.
Import NX.
Implicit Types (G : Graph) (R : gset string) (u v w : string).

Lemma elem_of_adj G v w : w ∈ adj G v ↔ linked G v w.
Proof.
  unfold adj, linked. rewrite elem_of_union, !elem_of_map. split.
  - intros [[[a b] [-> [Hf Hin]%elem_of_filter]]
           |[[a b] [-> [Hf Hin]%elem_of_filter]]];
      simpl in *; subst; auto.
  - intros [H|H]; [left; exists (v, w)|right; exists (w, v)];
      rewrite elem_of_filter; auto.
Qed.

Lemma linked_sym G : Symmetric (linked G).
Proof. intros u v [H|H]; [right|left]; exact H. Qed.

Lemma connected_sym G : Symmetric (connected G).
Proof.
  intros u v H. induction H as [|a b c Hab _ IH]; [constructor|].
  eapply rtc_r; [exact IH|]. by apply linked_sym.
Qed.

Lemma elem_of_expand G R x :
  x ∈ expand G R ↔ x ∈ R ∨ ∃ a, a ∈ R ∧ linked G a x.
Proof.
  unfold expand. rewrite elem_of_union, elem_of_set_bind.
  by setoid_rewrite elem_of_adj.
Qed.

Lemma expand_incl G R : R ⊆ expand G R.
Proof. intros x Hx. apply elem_of_expand. by left. Qed.

Lemma reach_incl G n R : R ⊆ reach G n R.
Proof.
  induction n as [|n IH]; simpl; [done|].
  etrans; [exact IH|apply expand_incl].
Qed.

Lemma reach_sound G n R x :
  x ∈ reach G n R → ∃ a, a ∈ R ∧ connected G a x.
Proof.
  revert x. induction n as [|n IH]; simpl; intros x Hx.
  - exists x. split; [done|constructor].
  - apply elem_of_expand in Hx as [Hx|(b & Hb & Hl)]; [by apply IH|].
    destruct (IH b Hb) as (a & Ha & Hab). exists a. split; [done|].
    eapply rtc_r; eauto.
Qed.

Lemma closed_complete G R a x :
  expand G R ⊆ R → a ∈ R → connected G a x → x ∈ R.
Proof.
  intros Hcl Ha Hax. induction Hax as [|a b c Hab _ IH]; [done|].
  apply IH, Hcl, elem_of_expand. right. by exists a.
Qed.

Lemma expand_nodes G R : wf G → R ⊆ node_set G → expand G R ⊆ node_set G.
Proof.
  intros Hwf HR x [Hx|(a & _ & [Hl|Hl])]%elem_of_expand; [by apply HR| |];
    by destruct (Hwf _ _ Hl).
Qed.

Lemma reach_nodes G n R : wf G → R ⊆ node_set G → reach G n R ⊆ node_set G.
Proof.
  intros Hwf HR. induction n as [|n IH]; simpl; [done|].
  by apply expand_nodes.
Qed.

(** Either the closure has stabilised or it has gained a node per round. *)
Lemma reach_progress G R n :
  expand G (reach G n R) ⊆ reach G n R
  ∨ (size R + n ≤ size (reach G n R))%nat.
Proof.
  induction n as [|n IH]; [right; simpl; lia|].
  assert (Hstab : expand G (reach G n R) ⊆ reach G n R →
                  expand G (reach G (S n) R) ⊆ reach G (S n) R).
  { intros Hcl. simpl.
    assert (expand G (reach G n R) = reach G n R) as ->; [|done].
    apply set_eq. intros x. split; [apply Hcl|apply expand_incl]. }
  destruct IH as [Hcl|Hsz]; [left; auto|].
  destruct (decide (expand G (reach G n R) ⊆ reach G n R)) as [Hcl|Hncl];
    [left; auto|].
  right. simpl.
  assert (reach G n R ⊂ expand G (reach G n R)) as Hlt%subset_size; [|lia].
  split; [apply expand_incl|done].
Qed.

Lemma component_closed G a :
  wf G → a ∈ node_set G → expand G (component G a) ⊆ component G a.
Proof.
  intros Hwf Ha. unfold component.
  destruct (reach_progress G {[a]} (size (node_set G))) as [Hcl|Hsz]; [done|].
  rewrite size_singleton in Hsz.
  assert (size (reach G (size (node_set G)) {[a]}) ≤ size (node_set G))%nat.
  { apply subseteq_size, reach_nodes; [done|set_solver]. }
  lia.
Qed.

Lemma elem_of_component G a x :
  wf G → a ∈ node_set G → x ∈ component G a ↔ connected G a x.
Proof.
  intros Hwf Ha. split.
  - intros (b & ->%elem_of_singleton & H)%reach_sound. exact H.
  - apply closed_complete; [by apply component_closed|].
    apply reach_incl. set_solver.
Qed.

(** [nx.has_path] answers connectivity, for nodes of the graph. *)
Lemma has_path_spec G s t b :
  wf G → has_path G s t = Ok b → (b = true ↔ connected G s t).
Proof.
  intros Hwf. unfold has_path, has_node.
  destruct (bool_decide (s ∈ node_set G)) eqn:Hs; simpl; [|done].
  destruct (bool_decide (t ∈ node_set G)); simpl; [|done].
  intros [= <-]. apply bool_decide_eq_true in Hs.
  rewrite bool_decide_eq_true. by apply elem_of_component.
Qed.

Lemma wf_add_edge G u v : wf G → wf (add_edge G u v).
Proof.
  intros Hwf a b. unfold add_edge. simpl.
  rewrite elem_of_union, elem_of_singleton.
  intros [[= -> ->]|H]; [set_solver|].
  destruct (Hwf _ _ H). set_solver.
Qed.

Lemma wf_from_edges es : wf (from_edges es).
Proof.
  unfold from_edges.
  assert (Hgen : ∀ G, wf G → wf (foldl (λ G e, add_edge G e.1 e.2) G es)).
  { induction es as [|e es IH]; simpl; [done|].
    intros G HG. by apply IH, wf_add_edge. }
  apply Hgen. intros u v H. simpl in H. set_solver.
Qed.

Lemma remove_edge_Ok G u v G' :
  remove_edge G u v = Ok G' →
  linked G u v ∧ node_set G' = node_set G
  ∧ edge_set G' = edge_set G ∖ {[(u, v); (v, u)]}.
Proof.
  unfold remove_edge, has_edge. case_bool_decide; [|done].
  intros [= <-]. done.
Qed.

Lemma wf_remove_edge G u v G' : wf G → remove_edge G u v = Ok G' → wf G'.
Proof.
  intros Hwf (_ & Hn & He)%remove_edge_Ok a b. rewrite Hn, He.
  intros [H _]%elem_of_difference. by apply Hwf.
Qed.
End graph_facts.

(** ** Combination filtering *)

Section check_comb_facts.
Import NX BlockEdge.
Implicit Types (G : Graph) (comb : list (string * string)).

Lemma linked_remove_edges G comb a b :
  linked (remove_edges G comb) a b
  ↔ linked G a b ∧ ((a, b) ∉ comb) ∧ ((b, a) ∉ comb).
Proof.
  unfold linked, remove_edges. simpl.
  rewrite !elem_of_difference, !elem_of_list_to_set, !elem_of_app,
    !list_elem_of_fmap.
  split.
  - intros [[H Hn]|[H Hn]]; (split; [tauto|]); split; intros Hc;
      apply Hn; first [by left|right; by eexists (_, _)].
  - intros ([H|H] & Hab & Hba); [left|right]; (split; [done|]);
      intros [Hc|([x y] & [= -> ->] & Hc)]; done.
Qed.

Lemma connected_mono G1 G2 a b :
  (∀ x y, linked G1 x y → linked G2 x y) →
  connected G1 a b → connected G2 a b.
Proof. intros Hsub. apply rtc_subrel. exact Hsub. Qed.

Lemma connected_remove_edges G comb a b :
  connected (remove_edges G comb) a b → connected G a b.
Proof.
  apply connected_mono. intros x y H%linked_remove_edges. tauto.
Qed.

(** If every removed edge has a detour in the residual graph, nothing
    that was connected becomes disconnected. *)
Lemma connected_detour G comb a b :
  (∀ e, e ∈ comb → connected (remove_edges G comb) e.1 e.2) →
  connected G a b → connected (remove_edges G comb) a b.
Proof.
  intros Hdet H. induction H as [|x y z Hxy _ IH]; [constructor|].
  etrans; [|exact IH]. clear IH.
  destruct (decide ((x, y) ∈ comb)) as [Hin|Hn1].
  { exact (Hdet _ Hin). }
  destruct (decide ((y, x) ∈ comb)) as [Hin|Hn2].
  { apply connected_sym. exact (Hdet _ Hin). }
  apply rtc_once, linked_remove_edges. done.
Qed.

Lemma remove_edges_cons G G1 u v comb :
  remove_edge G u v = Ok G1 →
  remove_edges G1 comb = remove_edges G ((u, v) :: comb).
Proof.
  intros (_ & Hn & He)%remove_edge_Ok. unfold remove_edges.
  rewrite Hn, He. f_equal. apply set_eq. intros [a b].
  rewrite !elem_of_difference, !elem_of_list_to_set. simpl.
  rewrite !elem_of_app, !elem_of_cons, !elem_of_union, !elem_of_singleton.
  rewrite elem_of_app, elem_of_cons. tauto.
Qed.

Lemma remove_edges_nil G : remove_edges G [] = G.
Proof.
  destruct G as [N E]. unfold remove_edges. simpl. f_equal.
  apply set_eq. intros x. set_solver.
Qed.

Lemma wf_remove_edges G comb : wf G → wf (remove_edges G comb).
Proof.
  intros Hwf a b. simpl. intros [H _]%elem_of_difference. by apply Hwf.
Qed.

Lemma check_comb_spec comb : ∀ G flag0 G' flag,
  wf G →
  check_comb G comb flag0 = Ok (G', flag) →
  G' = remove_edges G comb
  ∧ (flag = true ↔
     flag0 = true ∧ ∀ e, e ∈ comb → connected (remove_edges G comb) e.1 e.2).
Proof.
  induction comb as [|[u v] comb IH]; intros G flag0 G' flag Hwf; simpl.
  - intros [= <- <-]. rewrite remove_edges_nil. split; [done|].
    split; [intros ->; split; [done|]; intros e He; inversion He|tauto].
  - destruct (remove_edge G u v) as [G1|] eqn:Hrm; simpl; [|done].
    destruct (has_path G1 u v) as [joined|] eqn:Hhp; simpl; [|done].
    intros Hrest.
    assert (Hwf1 : wf G1) by eauto using wf_remove_edge.
    destruct (IH _ _ _ _ Hwf1 Hrest) as [-> Hflag].
    pose proof (has_path_spec _ _ _ _ Hwf1 Hhp) as Hj.
    rewrite (remove_edges_cons _ _ _ _ _ Hrm) in *.
    split; [done|]. rewrite Hflag. clear Hflag.
    rewrite <-(remove_edges_cons _ _ _ _ comb Hrm).
    split.
    + intros [Hf Hall]. destruct joined; [|done]. split; [done|].
      intros e [-> |He]%elem_of_cons; [|by apply Hall]. simpl.
      apply connected_detour; [done|]. by apply Hj.
    + intros [-> Hall].
      assert (joined = true) as ->.
      { apply Hj. eapply connected_remove_edges.
        apply (Hall (u, v)). by left. }
      split; [done|]. intros e He. apply Hall. by right.
Qed.

Lemma remove_edges_perm G comb comb' :
  comb ≡ₚ comb' → remove_edges G comb = remove_edges G comb'.
Proof.
  intros Hp. unfold remove_edges. f_equal. apply set_eq. intros x.
  rewrite !elem_of_difference, !elem_of_list_to_set, !elem_of_app.
  by rewrite Hp.
Qed.
End check_comb_facts.

(** ** The walk along the reference path *)

Section walk_facts.
Import NX BlockEdge.
Context (sp : path_oracle) (G : Graph) (last_vp : string).
Implicit Types (st : walk_state) (vp : string).

Lemma grow_incl vs : ∀ cand cand',
  grow G last_vp vs cand = Ok cand' → cand ⊆ cand'.
Proof.
  induction vs as [|v vs IH]; simpl; intros cand cand'.
  - by intros [= ->].
  - destruct (String.eqb v last_vp); [by intros [= ->]|].
    destruct (neighbors G v) as [nb|]; simpl; [|done].
    intros H%IH. set_solver.
Qed.

Lemma walk_step_skip st vp :
  vp ∈ new_path st → walk_step sp G last_vp st vp = Ok st.
Proof.
  intros H. unfold walk_step, mem. by rewrite bool_decide_eq_true_2.
Qed.

Lemma walk_step_keep st vp :
  vp ∉ new_path st →
  new_path st = [] ∨ vp ∈ cand_vps st →
  vp ∈ node_set G →
  walk_step sp G last_vp st vp
  = Ok (mkWalk (cand_vps st ∪ {[vp]} ∪ adj G vp) (new_path st ++ [vp])
               (original_path st ++ [vp])).
Proof.
  intros Hn Hk Hv. unfold walk_step, mem, neighbors, has_node.
  rewrite (bool_decide_eq_false_2 _ Hn), (bool_decide_eq_true_2 _ Hv).
  destruct Hk as [->|Hc]; simpl; [done|].
  rewrite (bool_decide_eq_true_2 _ Hc). by rewrite orb_true_r.
Qed.

Lemma walk_step_bypass st vp kept full cand' :
  vp ∉ new_path st →
  last (new_path st) = Some kept →
  vp ∉ cand_vps st →
  sp G kept vp = Ok full →
  grow G last_vp (rev (real_bypass (new_path st) (tail full))) (cand_vps st)
  = Ok cand' →
  walk_step sp G last_vp st vp
  = Ok (mkWalk cand' (new_path st) (original_path st ++ [vp])).
Proof.
  intros Hn Hl Hc Hsp Hg. unfold walk_step, mem.
  rewrite (bool_decide_eq_false_2 _ Hn), (bool_decide_eq_false_2 _ Hc).
  destruct (new_path st) as [|x l] eqn:Hnp; [done|]. simpl length. simpl orb.
  cbv iota. rewrite Hl. simpl. rewrite Hsp. simpl. by rewrite Hg.
Qed.

(** The three ways an iteration can end. *)
Lemma walk_step_cases st vp st' :
  walk_step sp G last_vp st vp = Ok st' →
  (vp ∈ new_path st ∧ st' = st)
  ∨ ((vp ∉ new_path st) ∧ (new_path st = [] ∨ vp ∈ cand_vps st)
     ∧ new_path st' = new_path st ++ [vp]
     ∧ original_path st' = original_path st ++ [vp]
     ∧ cand_vps st' = cand_vps st ∪ {[vp]} ∪ adj G vp)
  ∨ ((vp ∉ new_path st) ∧ (new_path st ≠ []) ∧ (vp ∉ cand_vps st)
     ∧ new_path st' = new_path st
     ∧ original_path st' = original_path st ++ [vp]
     ∧ ∃ kept full,
         last (new_path st) = Some kept ∧ sp G kept vp = Ok full
         ∧ grow G last_vp (rev (real_bypass (new_path st) (tail full)))
              (cand_vps st) = Ok (cand_vps st')).
Proof.
  unfold walk_step, mem. case_bool_decide as Hin.
  { intros [= <-]. by left. }
  destruct ((length (new_path st) =? 0)%nat || bool_decide (vp ∈ cand_vps st))
    eqn:Hk.
  - unfold neighbors.
    destruct (has_node G vp); simpl; [|done]. intros [= <-]. simpl.
    right. left. split_and!; try done.
    apply orb_true_iff in Hk as [Hk%Nat.eqb_eq|Hk%bool_decide_eq_true];
      [left; by destruct (new_path st)|by right].
  - apply orb_false_iff in Hk as [Hk%Nat.eqb_neq Hc%bool_decide_eq_false].
    destruct (last (new_path st)) as [kept|] eqn:Hl; simpl; [|done].
    destruct (sp G kept vp) as [full|] eqn:Hsp; simpl; [|done].
    destruct (grow _ _ _ _) as [cand'|] eqn:Hg; simpl; [|done].
    intros [= <-]. simpl. right. right. split_and!; try done.
    + intros Hnil. by rewrite Hnil in Hk.
    + by exists kept, full.
Qed.

(** What a run of iterations appends to the two lists. *)
Lemma walk_loop_appends vps : ∀ st st',
  walk_loop sp G last_vp st vps = Ok st' →
  ∃ k o, new_path st' = new_path st ++ k
         ∧ original_path st' = original_path st ++ o
         ∧ k `sublist_of` o ∧ o `sublist_of` vps.
Proof.
  induction vps as [|vp vps IH]; simpl; intros st st'.
  { intros [= <-]. exists [], []. by rewrite !app_nil_r. }
  destruct (walk_step sp G last_vp st vp) as [st1|] eqn:Hstep; simpl; [|done].
  intros (k & o & Hk & Ho & Hko & Hov)%IH.
  apply walk_step_cases in Hstep
    as [[_ ->]|[(_ & _ & Hn1 & Ho1 & _)|(_ & _ & _ & Hn1 & Ho1 & _)]].
  - exists k, o. split_and!; try done. by apply sublist_cons.
  - exists (vp :: k), (vp :: o). rewrite Hk, Ho, Hn1, Ho1, <-!app_assoc.
    split_and!; try done; by apply sublist_skip.
  - exists k, (vp :: o). rewrite Hk, Ho, Hn1, Ho1, <-!app_assoc.
    split_and!; try done; [by apply sublist_cons|by apply sublist_skip].
Qed.



End walk_facts.

(** ** The synthesizer *)

Section synthesizer_facts.
Import NX BlockEdge.
Implicit Types (G : Graph) (path : list string).

Lemma bind_Ok {A B} (a : A) (f : A → result B) : Ok a ≫= f = f a.
Proof. reflexivity. Qed.

Lemma walk_loop_cons sp G last_vp (st : walk_state) vp st1 vps :
  walk_step sp G last_vp st vp = Ok st1 →
  walk_loop sp G last_vp st (vp :: vps) = walk_loop sp G last_vp st1 vps.
Proof. intros H. simpl. by rewrite H. Qed.

Lemma linked_nodes G u v :
  wf G → linked G u v → u ∈ node_set G ∧ v ∈ node_set G.
Proof. intros Hwf [H|H]; destruct (Hwf _ _ H); done. Qed.

Lemma block_entry_set bl scan path_id rs :
  block_entry (set_block_entry bl scan path_id rs) scan path_id = rs.
Proof.
  unfold block_entry, set_block_entry.
  by rewrite lookup_insert_eq; simpl; rewrite lookup_insert_eq.
Qed.


Lemma index_of_lookup {A} `{EqDecision A} (l : list A) : ∀ i x,
  NoDup l → l !! i = Some x → index_of x l = Ok (Z.of_nat i).
Proof.
  induction l as [|y l IH]; intros i x Hnd Hi; [done|].
  apply NoDup_cons in Hnd as [Hy Hnd]. simpl.
  destruct i as [|i]; simpl in Hi.
  - injection Hi as ->. by rewrite bool_decide_eq_true_2.
  - case_bool_decide as Hxy.
    { subst y. exfalso. apply Hy. by eapply list_elem_of_lookup_2. }
    rewrite (IH i x Hnd Hi). simpl. f_equal. lia.
Qed.

(** On a reference path without repeated waypoints the detailed path is
    the substitution the spec describes. *)
Lemma detail_loop_NoDup sp G path blocked : ∀ detailed adjustment,
  NoDup path →
  Forall (λ b, path !! b.1 = Some b.2.1) blocked →
  detail_loop sp G path (snd <$> blocked) detailed adjustment
  = substitute_bypasses (sp G) blocked detailed adjustment.
Proof.
  induction blocked as [|[pos [u v]] blocked IH]; intros detailed adjustment
    Hnd Hall; [done|].
  apply Forall_cons in Hall as [Hpos Hall]. simpl in *.
  destruct (sp G u v) as [bypass|]; simpl; [|done].
  rewrite (index_of_lookup _ _ _ Hnd Hpos). simpl.
  by apply IH.
Qed.
End synthesizer_facts.

(** ** Results on the path-block synthesizer *)

Section synthesizer_results.
Import NX BlockEdge Scenario.

(** C2.  A combination passes the connectivity test ([flag = true])
    exactly when every blocked edge still has its endpoints connected in
    the residual graph, the graph with all edges of the combination
    removed.  The test decides what the script does with it: a
    combination that fails it leaves the script state untouched, and one
    that passes it goes on to the walk on the residual graph and, when
    the walk and the detailed path succeed and the reduced path has at
    most 15 waypoints, has its record appended to
    [block_list[scan][path_id]].  The verdict and the residual graph do
    not depend on the order of removal. *)
Theorem check_comb_residual_connectivity G comb G' flag :
  wf G →
  check_comb G comb true = Ok (G', flag) →
  G' = remove_edges G comb
  ∧ (flag = true ↔
     ∀ e, e ∈ comb → connected (remove_edges G comb) e.1 e.2)
  ∧ (flag = false →
     ∀ sp scan path_id path st,
       process_comb sp G scan path_id path st comb = Ok st)
  ∧ (flag = true →
     ∀ sp scan path_id path st (w : walk_state) detailed,
       walk sp (remove_edges G comb) path = Ok w →
       detail sp (remove_edges G comb) path comb = Ok detailed →
       (length (new_path w) ≤ 15)%nat →
       ∃ st',
         process_comb sp G scan path_id path st comb = Ok st'
         ∧ block_entry (block_list st') scan path_id
           = block_entry (block_list st) scan path_id
             ++ [mkRecord comb (new_path w) (original_path w) detailed])
  ∧ (∀ comb' G'' flag',
       comb' ≡ₚ comb →
       check_comb G comb' true = Ok (G'', flag') →
       G'' = G' ∧ flag' = flag).
Proof.
  intros Hwf Hc. destruct (check_comb_spec _ _ _ _ _ Hwf Hc) as [-> Hflag].
  split_and!; [done|rewrite Hflag; naive_solver| | |].
  - intros -> sp scan path_id path st. unfold process_comb.
    by rewrite Hc.
  - intros -> sp scan path_id path st w detailed Hw Hd Hlen.
    unfold process_comb. rewrite Hc. simpl. rewrite Hw. simpl.
    rewrite Hd. simpl. eexists. split; [done|].
    unfold record_comb.
    assert ((length (new_path w) <=? 15)%nat = true) as ->
      by by apply Nat.leb_le.
    simpl. by rewrite block_entry_set.
  - intros comb' G'' flag' Hp Hc'.
    destruct (check_comb_spec _ _ _ _ _ Hwf Hc') as [-> Hflag'].
    rewrite (remove_edges_perm _ _ _ Hp) in *. split; [done|].
    assert (flag' = true ↔ flag = true) as Hiff.
    { rewrite Hflag, Hflag'. by setoid_rewrite Hp. }
    destruct flag, flag'; naive_solver.
Qed.

Lemma check_comb_residual_connectivity_witness :
  connected (remove_edges G_abcd [("B", "C")]) "B" "C"
  ∧ ∃ st',
      process_comb bfs_shortest_path G_abcd "scan" 7 path_abcd init_state
        [("B", "C")] = Ok st'
      ∧ block_entry (block_list st') "scan" 7
        = block_entry (block_list init_state) "scan" 7
          ++ [mkRecord [("B", "C")] ["A"; "B"; "D"] ["A"; "B"; "C"; "D"]
                ["A"; "B"; "X"; "C"; "D"]].
Proof.
  assert (Hc : check_comb G_abcd [("B", "C")] true
               = Ok (remove_edges G_abcd [("B", "C")], true))
    by (vm_compute; reflexivity).
  destruct (check_comb_residual_connectivity _ _ _ _
              (wf_from_edges _) Hc) as (_ & Hflag & _ & Hkeep & _).
  split.
  - apply (proj1 Hflag eq_refl ("B", "C")). by left.
  - apply (Hkeep eq_refl bfs_shortest_path "scan" 7 path_abcd init_state
             (mkWalk (list_to_set ["A"; "B"; "X"; "D"; "C"])
                ["A"; "B"; "D"] ["A"; "B"; "C"; "D"])
             ["A"; "B"; "X"; "C"; "D"]).
    + vm_compute. reflexivity.
    + vm_compute. reflexivity.
    + simpl. lia.
Defined.

(** C1, as the code has it.  A waypoint that is not yet a candidate is
    left out of the reduced path and no bypass node is put in: the
    reduced path stays as it was and only the candidate frontier grows,
    so the reduced path is a sub-sequence of the reference path.  For
    the path [A,B,C,D] with (B,C) blocked and the detour B-X-C the
    reduced path is [A,B,C,D] when C is adjacent to A in the residual
    graph and [A,B,D] otherwise. *)
Theorem reduced_path_skips_non_candidates (sp : path_oracle) (G : Graph) :
  (∀ last_vp (st st' : walk_state) vp,
     vp ∉ new_path st → new_path st ≠ [] → vp ∉ cand_vps st →
     walk_step sp G last_vp st vp = Ok st' →
     new_path st' = new_path st
     ∧ original_path st' = original_path st ++ [vp]
     ∧ cand_vps st ⊆ cand_vps st'
     ∧ ∃ kept full,
         last (new_path st) = Some kept ∧ sp G kept vp = Ok full
         ∧ grow G last_vp (rev (real_bypass (new_path st) (tail full)))
              (cand_vps st) = Ok (cand_vps st'))
  ∧ (∀ path w, walk sp G path = Ok w → new_path w `sublist_of` path)
  ∧ (∀ A B C D X : string,
       wf G → NoDup [A; B; C; D; X] →
       linked G A B → linked G C D → linked G B X → linked G X C →
       ¬ linked G B C →
       sp G B C = Ok [B; X; C] →
       new_path <$> walk sp G [A; B; C; D]
       = Ok (if bool_decide (linked G A C)
             then [A; B; C; D] else [A; B; D])).
Proof.
  split_and!.
  - intros last_vp st st' vp Hn Hne Hc Hstep.
    apply walk_step_cases in Hstep
      as [[? _]|[(_ & [?|?] & _)|(_ & _ & _ & Hn1 & Ho1 & kept & full & Hl & Hsp & Hg)]];
      try done.
    split_and!; try done; [by eapply grow_incl|by exists kept, full].
  - intros path w. unfold walk. destruct (last path) as [last_vp|].
    + intros (k & o & Hk & _ & Hko & Hov)%walk_loop_appends.
      simpl in Hk. rewrite Hk. by etrans.
    + intros [= <-]. apply sublist_nil_l.
  - intros A B C D X Hwf Hnd HAB HCD HBX HXC HnBC Hsp.
    destruct (linked_nodes _ _ _ Hwf HAB) as [HA HB].
    destruct (linked_nodes _ _ _ Hwf HCD) as [HC HD].
    destruct (linked_nodes _ _ _ Hwf HBX) as [_ HX].
    rewrite !NoDup_cons, !not_elem_of_cons in Hnd.
    destruct Hnd as ((HAB' & HAC & HAD & HAX & _) & (HBC & HBD & HBX' & _)
                     & (HCD' & HCX & _) & (HDX & _) & _).
    set (c1 := (∅ : gset string) ∪ {[A]} ∪ adj G A).
    set (c2 := c1 ∪ {[B]} ∪ adj G B).
    assert (H1 : walk_step sp G D walk_init A = Ok (mkWalk c1 [A] [A])).
    { rewrite walk_step_keep; [done|simpl; set_solver|by left|done]. }
    assert (H2 : walk_step sp G D (mkWalk c1 [A] [A]) B
                 = Ok (mkWalk c2 [A; B] [A; B])).
    { rewrite walk_step_keep; [done|simpl; set_solver| |done].
      right. simpl. unfold c1. rewrite !elem_of_union, elem_of_adj. auto. }
    assert (HCc2 : C ∈ c2 ↔ linked G A C).
    { unfold c2, c1. rewrite !elem_of_union, !elem_of_singleton, !elem_of_adj.
      split; [|auto].
      intros [[[[H|H]|H]|H]|H];
        first [done|by symmetry in H|by apply not_elem_of_empty in H]. }
    unfold walk. cbn [last].
    rewrite (walk_loop_cons _ _ _ _ _ _ _ H1), (walk_loop_cons _ _ _ _ _ _ _ H2).
    case_bool_decide as HACl.
    + set (c3 := c2 ∪ {[C]} ∪ adj G C).
      assert (H3 : walk_step sp G D (mkWalk c2 [A; B] [A; B]) C
                   = Ok (mkWalk c3 [A; B; C] [A; B; C])).
      { rewrite walk_step_keep; [done|simpl; set_solver| |done].
        right. simpl. by apply HCc2. }
      assert (H4 : walk_step sp G D (mkWalk c3 [A; B; C] [A; B; C]) D
                   = Ok (mkWalk (c3 ∪ {[D]} ∪ adj G D) [A; B; C; D]
                                [A; B; C; D])).
      { rewrite walk_step_keep; [done|simpl; set_solver| |done].
        right. simpl. unfold c3. rewrite !elem_of_union, !elem_of_adj. auto. }
      rewrite (walk_loop_cons _ _ _ _ _ _ _ H3),
        (walk_loop_cons _ _ _ _ _ _ _ H4). done.
    + set (c3 := c2 ∪ {[X]} ∪ adj G X ∪ {[C]} ∪ adj G C).
      assert (Hrb : real_bypass [A; B] [X; C] = [C; X]).
      { unfold real_bypass, mem. simpl.
        rewrite !bool_decide_eq_false_2 by set_solver. done. }
      assert (Hg : grow G D [X; C] c2 = Ok c3).
      { simpl. unfold neighbors, has_node.
        rewrite (proj2 (String.eqb_neq X D)) by done.
        rewrite (proj2 (String.eqb_neq C D)) by done.
        rewrite !bool_decide_eq_true_2 by done. done. }
      assert (H3 : walk_step sp G D (mkWalk c2 [A; B] [A; B]) C
                   = Ok (mkWalk c3 [A; B] [A; B; C])).
      { apply (walk_step_bypass sp G D (mkWalk c2 [A; B] [A; B]) C B
                 [B; X; C] c3); simpl;
          [set_solver|done|by rewrite HCc2|done|].
        by rewrite Hrb. }
      assert (H4 : walk_step sp G D (mkWalk c3 [A; B] [A; B; C]) D
                   = Ok (mkWalk (c3 ∪ {[D]} ∪ adj G D) [A; B; D]
                                [A; B; C; D])).
      { rewrite walk_step_keep; [done|simpl; set_solver| |done].
        right. simpl. unfold c3. rewrite !elem_of_union, !elem_of_adj. auto. }
      rewrite (walk_loop_cons _ _ _ _ _ _ _ H3),
        (walk_loop_cons _ _ _ _ _ _ _ H4). done.
Qed.

Lemma reduced_path_skips_non_candidates_witness :
  new_path <$> walk bfs_shortest_path (remove_edges G_abcd [("B", "C")])
                 ["A"; "B"; "C"; "D"]
  = Ok ["A"; "B"; "D"].
Proof.
  refine (eq_trans
    (proj2 (proj2 (reduced_path_skips_non_candidates bfs_shortest_path
                     (remove_edges G_abcd [("B", "C")])))
       "A" "B" "C" "D" "X" _ _ _ _ _ _ _ _) _).
  - apply wf_remove_edges, wf_from_edges.
  - vm_compute_decide.
  - unfold linked. vm_compute_decide.
  - unfold linked. vm_compute_decide.
  - unfold linked. vm_compute_decide.
  - unfold linked. vm_compute_decide.
  - unfold linked. vm_compute_decide.
  - vm_compute. reflexivity.
  - vm_compute. reflexivity.
Defined.

(** C1 as stated fails: with (B,C) blocked and the detour B-X-C, the
    shortest-path bypass of C is [X,C], yet the emitted reduced path is
    [A,B,D], neither [A,B,X,C,D] nor [A,B,C,D]. *)
Lemma reduced_path_counterexample :
  bfs_shortest_path (remove_edges G_abcd [("B", "C")]) "B" "C"
  = Ok ["B"; "X"; "C"]
  ∧ emitted bfs_shortest_path G_abcd "scan" 7 path_abcd [("B", "C")]
    = Ok [mkRecord [("B", "C")] ["A"; "B"; "D"] ["A"; "B"; "C"; "D"]
            ["A"; "B"; "X"; "C"; "D"]]
  ∧ ["A"; "B"; "D"] ≠ ["A"; "B"; "X"; "C"; "D"]
  ∧ ["A"; "B"; "D"] ≠ ["A"; "B"; "C"; "D"].
Proof. split_and!; [by vm_compute|by vm_compute|done|done]. Qed.



(** What the listing rules out: on the walk A,B,A,C the second A, already
    in the reduced path, cannot be listed. *)
Lemma listed_leaves_out_placed :
  ¬ listed [] path_abac ["A"; "B"; "C"] ["A"; "B"; "A"; "C"].
Proof.
  unfold path_abac. intros Hl.
  repeat match goal with
         | H : listed _ _ _ _ |- _ => inversion H; clear H; simplify_eq
         end; set_solver.
Qed.


(** C6 at a path that passes a waypoint twice.  On the walk A,B,A,C in
    the triangle A,B,C with the edge (A,C) at positions 2,3 blocked,
    the bypass is A-B-C; replacing positions 2,3 gives [A,B,A,B,C],
    but the script looks the edge up by the first occurrence of A and
    emits [A,B,C,A,C]. *)
Theorem detailed_path_repeated_waypoint :
  path_edges path_abac !! 2%nat = Some ("A", "C")
  ∧ [("A", "C")] ∈ combinations (path_edges path_abac) 1
  ∧ bfs_shortest_path (remove_edges G_tri [("A", "C")]) "A" "C"
    = Ok ["A"; "B"; "C"]
  ∧ emitted bfs_shortest_path G_tri "scan" 7 path_abac [("A", "C")]
    = Ok [mkRecord [("A", "C")] ["A"; "B"; "C"] ["A"; "B"; "C"]
            ["A"; "B"; "C"; "A"; "C"]]
  ∧ substitute_bypasses
      (bfs_shortest_path (remove_edges G_tri [("A", "C")]))
      [(2%nat, ("A", "C"))] path_abac 0
    = Ok ["A"; "B"; "A"; "B"; "C"].
Proof.
  split_and!; [done|vm_compute; set_solver|by vm_compute..].
Qed.

(** C7, as the code has it.  A combination whose reduced path has more
    than 15 nodes leaves the whole script state as it was: no record is
    added, no exception is raised, and no counter changes. *)
Theorem too_long_combination_leaves_state sp G scan path_id path
    (st : State) comb G' w d :
  check_comb G comb true = Ok (G', true) →
  walk sp G' path = Ok w →
  detail sp G' path comb = Ok d →
  (15 < length (new_path w))%nat →
  process_comb sp G scan path_id path st comb = Ok st
  ∧ ¬ counter_incremented st st.
Proof.
  intros Hc Hw Hd Hlen. split.
  - unfold process_comb. rewrite Hc. simpl. rewrite Hw. simpl.
    rewrite Hd. simpl. unfold record_comb.
    by rewrite (proj2 (Nat.leb_gt _ _) Hlen).
  - intros (i & c & H1 & H2). rewrite H1 in H2. injection H2. lia.
Qed.

Lemma too_long_combination_leaves_state_witness :
  process_comb bfs_shortest_path G_16 "scan" 7 path_16 init_state
    [("P01", "P02")] = Ok init_state
  ∧ ¬ counter_incremented init_state init_state.
Proof.
  eapply (too_long_combination_leaves_state bfs_shortest_path G_16
            "scan" 7 path_16 init_state [("P01", "P02")]).
  - vm_compute. reflexivity.
  - vm_compute. reflexivity.
  - vm_compute. reflexivity.
  - vm_compute. lia.
Defined.

(** C7 as stated fails in its last part: the sixteen-node reduced path
    is discarded, and afterwards no counter of the script is higher
    than before. *)
Lemma too_long_counter_counterexample :
  new_path <$> walk bfs_shortest_path
                 (remove_edges G_16 [("P01", "P02")]) path_16
  = Ok path_16
  ∧ length path_16 = 16%nat
  ∧ ∃ st', process_comb bfs_shortest_path G_16 "scan" 7 path_16
             init_state [("P01", "P02")] = Ok st'
           ∧ block_list st' = ∅
           ∧ ¬ counter_incremented init_state st'.
Proof.
  split_and!; [by vm_compute|done|].
  exists init_state. split_and!; [by vm_compute|done|].
  intros (i & c & H1 & H2). rewrite H1 in H2. injection H2. lia.
Qed.
End synthesizer_results.

(** ** The teacher policy *)

Section teacher_facts.
Import Agent.

Lemma legal_positive vm j : legal vm j = Ok true → 0 < j.
Proof.
  unfold legal. destruct (0 <? j) eqn:Hj; [|done]. intros _. lia.
Qed.

(** A selected index is the initial one or that of an entry that was not
    skipped. *)
Lemma teacher_scan_selected skip score vm vpids : ∀ j m0 d0 a,
  teacher_scan skip score vm j vpids m0 d0 = Ok a →
  a = m0
  ∨ ∃ k vpid, vpids !! k = Some vpid ∧ a = j + Z.of_nat k
              ∧ skip vpid = false ∧ 0 < a.
Proof.
  induction vpids as [|vpid vpids IH]; intros j m0 d0 a; simpl.
  { intros [= <-]. by left. }
  assert (Hshift : ∀ m d,
    teacher_scan skip score vm (j + 1) vpids m d = Ok a →
    a = m ∨ ∃ k v, (vpid :: vpids) !! k = Some v ∧ a = j + Z.of_nat k
                   ∧ skip v = false ∧ 0 < a).
  { intros m d [->|(k & v & Hk & -> & Hs & Hpos)]%IH; [by left|].
    right. exists (S k), v. split_and!; [done|lia|done|done]. }
  destruct (skip vpid) eqn:Hskip; [apply Hshift|].
  destruct (legal vm j) as [[]|] eqn:Hl; simpl; [|apply Hshift|done].
  destruct (score vpid) as [dist|]; simpl; [|done].
  destruct (PrimFloat.ltb dist d0); [|apply Hshift].
  intros [->|H]%Hshift; [|by right].
  right. exists 0%nat, vpid. apply legal_positive in Hl.
  split_and!; [done|lia|done|done].
Qed.

(** Entries that are skipped do not take part in the scoring. *)
Lemma teacher_scan_ext skip score1 score2 vm vpids : ∀ j m0 d0,
  (∀ vpid, vpid ∈ vpids → skip vpid = false → score1 vpid = score2 vpid) →
  teacher_scan skip score1 vm j vpids m0 d0
  = teacher_scan skip score2 vm j vpids m0 d0.
Proof.
  induction vpids as [|vpid vpids IH]; intros j m0 d0 Hext; [done|]. simpl.
  assert (Hrest : ∀ v, v ∈ vpids → skip v = false → score1 v = score2 v).
  { intros v Hv. apply Hext. by right. }
  destruct (skip vpid) eqn:Hskip; [by apply IH|].
  rewrite <-(Hext vpid) by (done || by left).
  destruct (legal vm j) as [[]|]; simpl; [|by apply IH|done].
  destruct (score1 vpid) as [dist|]; simpl; [|done].
  destruct (PrimFloat.ltb dist d0); by apply IH.
Qed.

Lemma teacher_scan_never_skipped skip score vm vpids m0 a j vpid :
  teacher_scan skip score vm 0 vpids m0 PrimFloat.infinity = Ok a →
  m0 < 0 →
  vpids !! j = Some vpid → skip vpid = true → a ≠ Z.of_nat j.
Proof.
  intros [->|(k & v & Hk & -> & Hs & _)]%teacher_scan_selected Hm Hj Hskip;
    [lia|].
  intros Heq. assert (k = j) as -> by lia. congruence.
Qed.
End teacher_facts.

(** ** Results on the teacher policy *)

Section teacher_results.
Import Agent Scenario.

(** C3, as the code has it.  In [_teacher_action_r4r] and
    [_teacher_action_r4r_search] (objective mode), a candidate whose map
    distance from the current viewpoint is at least the sentinel takes no
    part in the scoring and its index is never returned.
    [_teacher_action_r4r_vln] has no such test. *)
Theorem unreachable_candidates_never_selected
    (args : Args) (env : Env) (gmap : GraphMap) (ob : Ob)
    (vpids : list (option string)) (vm : option (list bool)) :
  (∀ score1 score2 m d,
     (∀ vpid, vpid ∈ vpids →
        fge (graph_distance gmap (viewpoint ob) vpid) sentinel = false →
        score1 vpid = score2 vpid) →
     teacher_scan
       (λ vpid, fge (graph_distance gmap (viewpoint ob) vpid) sentinel)
       score1 vm 0 vpids m d
     = teacher_scan
         (λ vpid, fge (graph_distance gmap (viewpoint ob) vpid) sentinel)
         score2 vm 0 vpids m d)
  ∧ (∀ t traj target a (j : nat) vpid,
       ignoreid args < 0 →
       _teacher_action_r4r args env gmap ob vpids false vm false t traj = Ok a
       ∨ _teacher_action_r4r_search args env gmap ob vpids false target vm
           false t = Ok a →
       (0 < j)%nat →
       vpids !! j = Some vpid →
       fge (graph_distance gmap (viewpoint ob) vpid) sentinel = true →
       a ≠ Z.of_nat j).
Proof.
  split.
  - intros score1 score2 m d Hext. by apply teacher_scan_ext.
  - intros t traj target a j vpid Hneg Hrun Hj Hvp Hfar.
    destruct Hrun as [Hrun|Hrun].
    + unfold _teacher_action_r4r in Hrun. simpl in Hrun.
      destruct (py_get (gt_path ob) (-1)) as [final|]; simpl in Hrun; [|done].
      destruct (String.eqb (viewpoint ob) final).
      { injection Hrun as <-. lia. }
      by eapply teacher_scan_never_skipped.
    + unfold _teacher_action_r4r_search in Hrun. simpl in Hrun.
      destruct (String.eqb (viewpoint ob) target).
      { injection Hrun as <-. lia. }
      by eapply teacher_scan_never_skipped.
Qed.

Lemma unreachable_candidates_never_selected_witness :
  _teacher_action_r4r args_spl env_flat gmap_A ob_A vpids_A false None false
    0 [["A"]] = Ok 1
  ∧ vpids_A !! 2%nat = Some (Some "seen_node_0")
  ∧ 1 ≠ Z.of_nat 2.
Proof.
  split_and!; [vm_compute; reflexivity|reflexivity|].
  apply (proj2 (unreachable_candidates_never_selected args_spl env_flat
                  gmap_A ob_A vpids_A None)
           0 [["A"]] "G" 1 2%nat (Some "seen_node_0")).
  - reflexivity.
  - left. vm_compute. reflexivity.
  - lia.
  - reflexivity.
  - vm_compute. reflexivity.
Defined.

(** C3 as stated fails for [_teacher_action_r4r_vln]: the surrogate node
    at index 1 lies at sentinel distance from the current viewpoint and
    index 1 is returned, where [_teacher_action_r4r] returns index 2. *)
Lemma unreachable_candidate_counterexample :
  vpids_seen_first !! 1%nat = Some (Some "seen_node_0")
  ∧ fge (graph_distance gmap_A (viewpoint ob_A) (Some "seen_node_0")) sentinel
    = true
  ∧ _teacher_action_r4r_vln args_spl env_flat gmap_A ob_A vpids_seen_first
      false None false 0 [["A"]] 0 = Ok 1
  ∧ _teacher_action_r4r args_spl env_flat gmap_A ob_A vpids_seen_first
      false None false 0 [["A"]] = Ok 2.
Proof. split_and!; by vm_compute. Qed.

(** C4.  In objective mode, for an episode that has not ended, every
    teacher function returns the stop index 0 as soon as the current
    viewpoint is the terminal goal: the last node of the ground-truth
    path, or the real target in the search variant; this holds for both
    expert policies. *)
Theorem stop_when_at_goal (args : Args) (env : Env) (gmap : GraphMap)
    (ob : Ob) (vpids : list (option string)) (vm : option (list bool))
    (t base_t i : Z) (traj : list (list string)) (target : string) :
  (py_get (gt_path ob) (-1) = Ok (viewpoint ob) →
   _teacher_action args env i ob vpids false vm = Ok 0
   ∧ _teacher_action_r4r args env gmap ob vpids false vm false t traj = Ok 0
   ∧ _teacher_action_r4r_vln args env gmap ob vpids false vm false t traj
       base_t = Ok 0)
  ∧ (viewpoint ob = target →
     _teacher_action_r4r_search args env gmap ob vpids false target vm false t
     = Ok 0).
Proof.
  split.
  - intros Hgoal.
    unfold _teacher_action, _teacher_action_r4r, _teacher_action_r4r_vln.
    simpl. rewrite Hgoal. simpl. by rewrite String.eqb_refl.
  - intros <-. unfold _teacher_action_r4r_search. simpl.
    by rewrite String.eqb_refl.
Qed.

Lemma stop_when_at_goal_witness :
  (_teacher_action args_spl env_flat 0 ob_G vpids_A false None = Ok 0
   ∧ _teacher_action_r4r args_spl env_flat gmap_A ob_G vpids_A false None
       false 0 [["A"]] = Ok 0
   ∧ _teacher_action_r4r_vln args_spl env_flat gmap_A ob_G vpids_A false None
       false 0 [["A"]] 0 = Ok 0)
  ∧ _teacher_action_r4r_search args_spl env_flat gmap_A ob_G vpids_A false
      "G" None false 0 = Ok 0.
Proof.
  pose proof (stop_when_at_goal args_spl env_flat gmap_A ob_G vpids_A None
                0 0 0 [["A"]] "G") as [H1 H2].
  split; [apply H1|apply H2]; reflexivity.
Defined.
End teacher_results.

(** ** Action resolution *)

Section resolver_facts.
Import Agent.

Lemma py_get_last {A} (l : list A) :
  py_get l (-1) = of_option IndexError (last l).
Proof.
  unfold py_get. simpl. rewrite last_lookup.
  destruct l as [|x l]; [done|].
  assert ((Z.of_nat (length (x :: l)) + -1 <? 0) = false) as ->
    by (apply Z.ltb_ge; simpl length; lia).
  do 2 f_equal. simpl. lia.
Qed.

Lemma py_get_before_last {A} (l : list A) (a : A) :
  py_get (l ++ [a]) (-2) = py_get l (-1).
Proof.
  unfold py_get. simpl. rewrite length_app. simpl.
  destruct l as [|x l]; [done|].
  assert ((Z.of_nat (length (x :: l) + 1) + -2 <? 0) = false) as ->
    by (apply Z.ltb_ge; simpl length; lia).
  assert ((Z.of_nat (length (x :: l)) + -1 <? 0) = false) as ->
    by (apply Z.ltb_ge; simpl length; lia).
  f_equal.
  replace (Z.to_nat (Z.of_nat (length (x :: l) + 1) + -2))
    with (Z.to_nat (Z.of_nat (length (x :: l)) + -1)) by lia.
  apply lookup_app_l. simpl. lia.
Qed.

Lemma update_row_snoc row cands c :
  update_row row (cands ++ [c])
  = <[viewpointId c := pointId c]> (update_row row cands).
Proof. unfold update_row. by rewrite foldl_app. Qed.

Lemma update_row_lookup row cands c :
  c ∈ cands →
  (∀ c', c' ∈ cands → viewpointId c' = viewpointId c → pointId c' = pointId c) →
  update_row row cands !! viewpointId c = Some (pointId c).
Proof.
  induction cands as [|c0 cands IH] using rev_ind; [by inversion 1|].
  intros Hin Hfun. rewrite update_row_snoc.
  destruct (decide (viewpointId c0 = viewpointId c)) as [Heq|Hne].
  - rewrite Heq, lookup_insert_eq. f_equal. apply Hfun; [|done].
    apply elem_of_app. right. by left.
  - rewrite lookup_insert_ne by done.
    apply elem_of_app in Hin as [Hin|Hin%list_elem_of_singleton];
      [|by subst].
    apply IH; [done|]. intros c' Hc'. apply Hfun, elem_of_app. by left.
Qed.

Lemma take_hop_pose cache gmap ob traj action traj' sim :
  take_hop cache gmap ob traj action = Ok (traj', sim) →
  ∃ hops prev_vp row viewidx,
    graph_path gmap (viewpoint ob) (Some action) = Ok hops
    ∧ traj' = traj ++ [hops]
    ∧ ((length hops = 1%nat
        ∧ ∃ seg, last traj = Some seg ∧ last seg = Some prev_vp)
       ∨ (length hops ≠ 1%nat ∧ py_get hops (-2) = Ok prev_vp))
    ∧ cache !! scanvp_key (scan ob) prev_vp = Some row
    ∧ row !! action = Some viewidx
    ∧ sim = mkSim (scan ob) action
              (PrimFloat.mul (float_of_Z (viewidx mod 12)) radians_30)
              (PrimFloat.mul (float_of_Z (viewidx / 12 - 1)) radians_30).
Proof.
  unfold take_hop.
  destruct (graph_path gmap (viewpoint ob) (Some action)) as [hops|];
    simpl; [|done].
  destruct (if (length hops =? 1)%nat then _ else _) as [prev_vp|] eqn:Hprev;
    simpl; [|done].
  destruct (cache !! scanvp_key (scan ob) prev_vp) as [row|] eqn:Hrow;
    simpl; [|done].
  destruct (row !! action) as [viewidx|] eqn:Hidx; simpl; [|done].
  intros [= <- <-]. exists hops, prev_vp, row, viewidx.
  split_and!; try done.
  destruct (length hops =? 1)%nat eqn:Hlen.
  - left. apply Nat.eqb_eq in Hlen. split; [done|].
    rewrite py_get_before_last, py_get_last in Hprev.
    destruct (last traj) as [seg|]; simpl in Hprev; [|done].
    rewrite py_get_last in Hprev.
    destruct (last seg) as [v|] eqn:Hseg; simpl in Hprev; [|done].
    injection Hprev as ->. by exists seg.
  - right. apply Nat.eqb_neq in Hlen. done.
Qed.
End resolver_facts.

(** ** Results on action resolution *)

Section resolver_results.
Import Agent Scenario.

(** C9.  Whichever resolver executes a hop to [action], the simulator
    receives heading (viewidx mod 12) x radians(30) and elevation
    (viewidx div 12 - 1) x radians(30), where viewidx is the cached
    direction index of [action] in the entry of the viewpoint the hop
    leaves from (the last viewpoint before [action] on the traversed
    path); the cache entry of key scan_viewpoint is written when that
    viewpoint is observed, from the observation's candidate list, and no
    other entry is touched. *)
Theorem pose_from_cached_viewidx (cache : cand_cache) :
  (∀ (ln ln' : Lane) action,
     make_equiv_action cache (Some action) ln = Ok ln'
     ∨ make_equiv_action_search cache (Some action) ln = Ok ln' →
     ∃ hops prev_vp row viewidx,
       graph_path (lane_gmap ln) (viewpoint (lane_ob ln)) (Some action)
       = Ok hops
       ∧ lane_traj ln' = lane_traj ln ++ [hops]
       ∧ ((length hops = 1%nat
           ∧ ∃ seg, last (lane_traj ln) = Some seg ∧ last seg = Some prev_vp)
          ∨ (length hops ≠ 1%nat ∧ py_get hops (-2) = Ok prev_vp))
       ∧ cache !! scanvp_key (scan (lane_ob ln)) prev_vp = Some row
       ∧ row !! action = Some viewidx
       ∧ sim_heading (lane_sim ln')
         = PrimFloat.mul (float_of_Z (viewidx mod 12)) radians_30
       ∧ sim_elevation (lane_sim ln')
         = PrimFloat.mul (float_of_Z (viewidx / 12 - 1)) radians_30)
  ∧ (∀ (ob : Ob) c,
       c ∈ candidate ob →
       (∀ c', c' ∈ candidate ob →
          viewpointId c' = viewpointId c → pointId c' = pointId c) →
       ∃ row,
         _update_scanvp_cands_search cache ob
           !! scanvp_key (scan ob) (viewpoint ob) = Some row
         ∧ row !! viewpointId c = Some (pointId c))
  ∧ (∀ (ob : Ob) key,
       key ≠ scanvp_key (scan ob) (viewpoint ob) →
       _update_scanvp_cands_search cache ob !! key = cache !! key).
Proof.
  split_and!.
  - intros ln ln' action Hrun.
    assert (∃ traj' sim,
              take_hop cache (lane_gmap ln) (lane_ob ln) (lane_traj ln) action
              = Ok (traj', sim)
              ∧ ln' = mkLane (lane_gmap ln) (lane_ob ln) traj' sim)
      as (traj' & sim & Hhop & ->).
    { destruct Hrun as [Hrun|Hrun]; simpl in Hrun;
        destruct (take_hop _ _ _ _ _) as [[traj' sim]|]; simpl in Hrun;
        try done; injection Hrun as <-; by eauto. }
    apply take_hop_pose in Hhop
      as (hops & prev_vp & row & viewidx & Hp & -> & Hprev & Hrow & Hidx & ->).
    exists hops, prev_vp, row, viewidx. simpl. split_and!; done.
  - intros ob c Hc Hfun. unfold _update_scanvp_cands_search.
    rewrite lookup_insert_eq. eexists. split; [done|].
    by apply update_row_lookup.
  - intros ob key Hkey. unfold _update_scanvp_cands_search.
    by rewrite lookup_insert_ne.
Qed.

Lemma pose_from_cached_viewidx_witness :
  ∃ hops prev_vp row viewidx,
    graph_path (lane_gmap lane_A) (viewpoint (lane_ob lane_A)) (Some "B")
    = Ok hops
    ∧ lane_traj lane_B = lane_traj lane_A ++ [hops]
    ∧ ((length hops = 1%nat
        ∧ ∃ seg, last (lane_traj lane_A) = Some seg ∧ last seg = Some prev_vp)
       ∨ (length hops ≠ 1%nat ∧ py_get hops (-2) = Ok prev_vp))
    ∧ cache_A !! scanvp_key (scan (lane_ob lane_A)) prev_vp = Some row
    ∧ row !! "B" = Some viewidx
    ∧ sim_heading (lane_sim lane_B)
      = PrimFloat.mul (float_of_Z (viewidx mod 12)) radians_30
    ∧ sim_elevation (lane_sim lane_B)
      = PrimFloat.mul (float_of_Z (viewidx / 12 - 1)) radians_30.
Proof.
  apply (proj1 (pose_from_cached_viewidx cache_A) lane_A lane_B "B").
  left. vm_compute. reflexivity.
Defined.
End resolver_results.

(** ** The search fallback *)

Section search_facts.
Import Agent.
Context {H : Type} (W : World H) (args : Args) (feedback : Feedback)
  (train_ml : option float) (target real_target search_start_vp : string)
  (start_step : Z).

(** At the last step of the budget the environment action is [None]. *)
Lemma search_decide_budget step (s : SearchState H) cpu_a_t gmap h loss :
  search_decide W args feedback train_ml target real_target search_start_vp
    start_step step s = Ok (cpu_a_t, gmap, h, loss) →
  step = max_action_len args - 1 →
  cpu_a_t = None.
Proof.
  intros Hd Hb. unfold search_decide in Hd.
  destruct (vln_bert W _ _ _ _ _ _) as [outs h1].
  destruct (_nav_gmap_variable_search _ _ _) as [nav|]; simpl in Hd; [|done].
  destruct (select_fusion args outs nav) as [logits0 nav_vpids].
  destruct (masked_fill _ _ _) as [nav_logits|]; simpl in Hd; [|done].
  destruct (py_get _ 0) as [stop_prob|]; simpl in Hd; [|done].
  destruct (match train_ml with Some _ => _ | None => _ end)
    as [[nav_targets l]|]; simpl in Hd; [|done].
  destruct (choose _ _ _ _ _ _ _ _) as [[a_t h2]|]; simpl in Hd; [|done].
  rewrite Hb, Z.eqb_refl, orb_true_r in Hd. simpl in Hd. congruence.
Qed.

(** The loop returns once the fuel covers what is left of the budget. *)
Lemma search_loop_terminates fuel : ∀ step (s : SearchState H),
  step ≤ max_action_len args - 1 →
  (Z.to_nat (max_action_len args - 1 - step) < fuel)%nat →
  search_loop fuel W args feedback train_ml target real_target
    search_start_vp start_step step s ≠ None.
Proof.
  induction fuel as [|fuel IH]; intros step s Hle Hfuel; [lia|]. simpl.
  destruct (search_decide _ _ _ _ _ _ _ _ _ _) as [[[[cpu_a_t gmap] h] loss]|e]
    eqn:Hd; [|done].
  destruct (make_equiv_action_search _ _ _) as [ln1|e]; [|done].
  destruct cpu_a_t as [vp|]; [|done].
  assert (step ≠ max_action_len args - 1) as Hne.
  { intros Hb. by pose proof (search_decide_budget _ _ _ _ _ _ Hd Hb). }
  apply IH; lia.
Qed.

(** The step counter it returns stays within the budget. *)
Lemma search_loop_bounds fuel : ∀ step (s : SearchState H) step' s',
  step ≤ max_action_len args - 1 →
  search_loop fuel W args feedback train_ml target real_target
    search_start_vp start_step step s = Some (Ok (step', s')) →
  step ≤ step' ≤ max_action_len args - 1.
Proof.
  induction fuel as [|fuel IH]; intros step s step' s' Hle; [done|]. simpl.
  destruct (search_decide _ _ _ _ _ _ _ _ _ _) as [[[[cpu_a_t gmap] h] loss]|e]
    eqn:Hd; [|done].
  destruct (make_equiv_action_search _ _ _) as [ln1|e]; [|done].
  destruct cpu_a_t as [vp|].
  - assert (step ≠ max_action_len args - 1) as Hne.
    { intros Hb. by pose proof (search_decide_budget _ _ _ _ _ _ Hd Hb). }
    intros Hrec%IH; lia.
  - intros [= <- <-]. lia.
Qed.
End search_facts.

(** ** Results on the search fallback *)

Section search_results.
Import Agent Scenario.

(** C8.  The lane's next node is out of the map's reach, so the rollout
    hands it to the search.  The search returns within the budget; when it
    returns with the step counter at [max_action_len - 1],
    [make_equiv_action_vln] returns normally with [a_t[i] = None] and
    [just_ended[i] = True].  With [seen_stop] and teacher feedback the
    rollout then fails: its assertion that the lane stands on the goal
    reads the observation from before the search (or [_stop_action] has
    failed before it).  In every configuration in which the
    stop-viewpoint block returns, the iteration ends with the episode
    marked as ended. *)
Theorem search_budget_exhaustion_trips_assertion {H : Type} (W : World H)
    (args : Args) (feedback : Feedback) (train_ml : option float)
    (nav_vpids : list (option string)) (nav : NavInputs) (outs : NavOuts)
    (a_t : Z) (action real_target : string) (step : Z) (just_ended : bool)
    (s : SearchState H) :
  search_target args = true →
  step ≤ max_action_len args - 1 →
  stop_flag feedback (lane_ob (st_lane s)) a_t = Ok false →
  prepare_action args false false nav step nav_vpids a_t just_ended
  = Ok (Some action, just_ended) →
  PrimFloat.ltb
    (graph_distance (lane_gmap (st_lane s)) (viewpoint (lane_ob (st_lane s)))
       (Some action)) sentinel = false →
  real_name (lane_gmap (st_lane s)) !! action = Some real_target →
  (∀ fuel, (Z.to_nat (max_action_len args - 1 - step) < fuel)%nat →
     rollout_act fuel W args feedback train_ml nav_vpids nav outs a_t step
       false just_ended s ≠ None)
  ∧ (∀ fuel step' s',
       search_rollout fuel W args feedback train_ml action real_target step s
       = Some (Ok (step', s')) →
       step ≤ step' ≤ max_action_len args - 1
       ∧ (step' = max_action_len args - 1 →
          (∃ r, make_equiv_action_vln fuel W args feedback train_ml
                  (Some action) step just_ended s = Some (Ok r)
                ∧ res_a_t r = None
                ∧ res_just_ended r = true
                ∧ res_step r = max_action_len args - 1)
          ∧ (seen_stop args = true → feedback = teacher →
             ∃ e, rollout_act fuel W args feedback train_ml nav_vpids nav
                    outs a_t step false just_ended s = Some (Raise e)
                  ∧ (e = AssertionError
                     ∨ (train_ml ≠ None
                        ∧ _stop_action args (env W) (lane_ob (st_lane s))
                            nav_vpids (gmap_visited_masks nav) = Raise e)))
          ∧ (∀ traj_path ml_loss,
               stop_viewpoint W args feedback train_ml false true
                 (lane_ob (st_lane s)) nav_vpids nav outs
                 (lane_gmap (st_lane s')) (lane_traj (st_lane s'))
                 (PrimFloat.add (st_loss s) (st_loss s'))
               = Ok (traj_path, ml_loss) →
               ∃ ep, rollout_act fuel W args feedback train_ml nav_vpids nav
                       outs a_t step false just_ended s = Some (Ok ep)
                     ∧ ep_ended ep = true
                     ∧ ep_step ep = max_action_len args - 1))).
Proof.
  intros Hsearch Hle Hflag Hprep Hfar Hreal.
  assert (∀ fuel,
            rollout_act fuel W args feedback train_ml nav_vpids nav outs a_t
              step false just_ended s
            = match make_equiv_action_vln fuel W args feedback train_ml
                      (Some action) step just_ended s with
              | None => None
              | Some (Raise e) => Some (Raise e)
              | Some (Ok r) =>
                  Some ('(traj_path, ml_loss) ←
                          stop_viewpoint W args feedback train_ml false
                            (res_just_ended r) (lane_ob (st_lane s)) nav_vpids
                            nav outs (lane_gmap (st_lane (res_state r)))
                            (lane_traj (st_lane (res_state r)))
                            (res_ml_loss r);
                        let ob' := get_ob W (lane_sim (st_lane (res_state r))) in
                        Ok (mkEpisode
                              (mkSearch
                                 (mkLane
                                    (update_graph W
                                       (lane_gmap (st_lane (res_state r))) ob')
                                    ob' traj_path
                                    (lane_sim (st_lane (res_state r))))
                                 (_update_scanvp_cands
                                    (st_cands (res_state r)) [ob'])
                                 (st_hidden (res_state r)) ml_loss)
                              (if rollout_ended false (res_a_t r)
                               then res_step r else res_step r + 1)
                              (rollout_ended false (res_a_t r))
                              (res_just_ended r)))
              end) as Hact.
  { intros fuel. unfold rollout_act. rewrite Hflag. simpl.
    rewrite Hprep, Hsearch. done. }
  assert (∀ fuel,
            make_equiv_action_vln fuel W args feedback train_ml (Some action)
              step just_ended s
            = match search_rollout fuel W args feedback train_ml action
                      real_target step s with
              | None => None
              | Some (Raise e) => Some (Raise e)
              | Some (Ok (step', s')) =>
                  let ml_loss := PrimFloat.add (st_loss s) (st_loss s') in
                  let budget_spent := step' =? max_action_len args - 1 in
                  Some (Ok (mkResolved
                              (if budget_spent then None else Some action)
                              step'
                              (if budget_spent then true else just_ended)
                              ml_loss
                              (mkSearch (st_lane s') (st_cands s')
                                 (st_hidden s') ml_loss)))
              end) as Hvln.
  { intros fuel. unfold make_equiv_action_vln. by rewrite Hfar, Hreal. }
  split.
  - intros fuel Hfuel. rewrite Hact, Hvln.
    pose proof (search_loop_terminates W args feedback train_ml action
                  real_target (viewpoint (lane_ob (st_lane s))) step fuel step
                  (mkSearch (st_lane s) (st_cands s) (st_hidden s)
                     PrimFloat.zero) Hle Hfuel) as Hterm.
    unfold search_rollout.
    destruct (search_loop _ _ _ _ _ _ _ _ _ _ _) as [[[step' s']|e]|];
      [|done..]. simpl. by destruct (stop_viewpoint _ _ _ _ _ _ _ _ _ _ _ _ _).
  - intros fuel step' s' Hrun. split.
    + unfold search_rollout in Hrun. by eapply search_loop_bounds.
    + intros ->. specialize (Hact fuel). specialize (Hvln fuel).
      rewrite Hrun in Hvln. cbv zeta in Hvln. rewrite Z.eqb_refl in Hvln.
      rewrite Hvln in Hact. simpl in Hact. split_and!.
      * eexists. split; [exact Hvln|]. done.
      * intros Hseen ->. rewrite Hact. unfold stop_viewpoint. simpl.
        rewrite Hseen. simpl in Hflag.
        destruct (py_get (gt_path (lane_ob (st_lane s))) (-1)) as [final|]
          eqn:Hfinal; simpl in Hflag; [|done].
        injection Hflag as Hflag.
        destruct train_ml as [w|]; simpl.
        -- destruct (_stop_action _ _ _ _ _) as [t|e] eqn:Hstop; simpl.
           ++ rewrite Hflag. simpl. eexists. split; [done|]. by left.
           ++ eexists. split; [done|]. right. done.
        -- rewrite Hflag. simpl. eexists. split; [done|]. by left.
      * intros traj_path ml_loss Hstop. rewrite Hact, Hstop. simpl.
        eexists. split; [done|]. done.
Qed.

Lemma search_budget_exhaustion_trips_assertion_witness :
  _teacher_action_r4r_vln args_teacher env_flat gmap_T ob_T vpids_T false
    (Some (gmap_visited_masks nav_T)) true 0 [["A"]] 0 = Ok 3
  ∧ rollout_act 3 world_loop args_teacher teacher (Some 0x1p+0%float) vpids_T
      nav_T outs_T 3 0 false false search_T = Some (Raise AssertionError).
Proof.
  split; [vm_compute; reflexivity|].
  destruct (search_budget_exhaustion_trips_assertion world_loop args_teacher
              teacher (Some 0x1p+0%float) vpids_T nav_T outs_T 3 "G" "G" 0
              false search_T) as [_ Hspent].
  - reflexivity.
  - vm_compute. discriminate.
  - vm_compute. reflexivity.
  - vm_compute. reflexivity.
  - vm_compute. reflexivity.
  - vm_compute. reflexivity.
  - assert (∃ s', search_rollout 3 world_loop args_teacher teacher
                    (Some 0x1p+0%float) "G" "G" 0 search_T
                  = Some (Ok (1, s')))
      as [s' Hrun] by (eexists; vm_compute; reflexivity).
    destruct (proj2 (Hspent 3%nat 1 s' Hrun) eq_refl) as (_ & Hfail & _).
    destruct (Hfail eq_refl eq_refl) as (e & Hraise & [->|[_ Hstop]]);
      [exact Hraise|].
    vm_compute in Hstop. discriminate Hstop.
Defined.
(** The same lane under argmax feedback: the search spends the budget on
    the hop to B and the iteration ends with the episode marked as
    ended. *)
Lemma rollout_act_argmax_ends :
  ∃ ep, rollout_act 3 world_loop args_teacher argmax None vpids_T nav_T
          outs_T 3 0 false false search_T = Some (Ok ep)
        ∧ ep_ended ep = true
        ∧ ep_just_ended ep = true
        ∧ ep_step ep = 1
        ∧ lane_traj (st_lane (ep_state ep)) = [["A"]; ["B"]].
Proof. eexists. vm_compute. split_and!; reflexivity. Qed.
End search_results.

(** ** Masking of the nodes the map does not reach *)

Section mask_facts.
Import Agent.










Section nav_inputs.
Context (args : Args) (gmap : GraphMap) (ob : Ob) (nav : NavInputs).
Hypothesis Hnav : _nav_gmap_variable_search args gmap ob = Ok nav.
Hypothesis Hkeys : NoDup (node_positions gmap).






End nav_inputs.
End mask_facts.

(** ** Results on the masking *)

Section mask_results.
Import Agent Scenario.

(** The map as the decision sees it: the step bookkeeping leaves the
    graph as it is. *)
Lemma seen_vp_set_step_id args gmap ob vp n :
  seen_vp args (set_step_id gmap vp n) ob = seen_vp args gmap ob.
Proof. reflexivity. Qed.


Lemma py_get_lookup {A} (l : list A) (i : Z) x :
  0 ≤ i → py_get l i = Ok x ↔ l !! Z.to_nat i = Some x.
Proof.
  intros Hi. unfold py_get. cbv zeta.
  assert ((i <? 0) = false) as Hneg by (apply Z.ltb_ge; lia).
  rewrite Hneg. simpl. rewrite Hneg.
  destruct (l !! Z.to_nat i); simpl; split; congruence.
Qed.













End mask_results.

(** * Further properties *)

(** ** The path-block synthesizer *)

Section synthesizer_more_facts.
Import NX BlockEdge.

Lemma walk_loop_new_NoDup sp G last_vp vps : ∀ (st st' : walk_state),
  walk_loop sp G last_vp st vps = Ok st' →
  NoDup (new_path st) → NoDup (new_path st').
Proof.
  induction vps as [|vp vps IH]; simpl; intros st st'.
  { by intros [= <-]. }
  destruct (walk_step sp G last_vp st vp) as [st1|] eqn:Hstep; simpl; [|done].
  intros Hloop Hnd. apply (IH _ _ Hloop).
  apply walk_step_cases in Hstep
    as [[_ ->]|[(Hn & _ & -> & _)|(_ & _ & _ & -> & _)]]; [done| |done].
  apply NoDup_app. split_and!; [done| |apply NoDup_singleton].
  intros x Hx ->%list_elem_of_singleton. done.
Qed.

Lemma walk_heads sp G path (w : walk_state) :
  walk sp G path = Ok w →
  head (new_path w) = head path ∧ head (original_path w) = head path.
Proof.
  unfold walk. destruct path as [|vp path]; [by intros [= <-]|].
  destruct (last (vp :: path)) as [last_vp|] eqn:Hlast;
    [|by apply last_None in Hlast].
  simpl.
  destruct (walk_step sp G last_vp walk_init vp) as [st1|] eqn:Hstep;
    simpl; [|done].
  intros (k & o & -> & -> & _)%walk_loop_appends.
  apply walk_step_cases in Hstep
    as [[Hin _]|[(_ & _ & -> & -> & _)|(_ & Hne & _)]];
    [by inversion Hin|done|done].
Qed.

Lemma walk_NoDup sp G path (w : walk_state) :
  walk sp G path = Ok w → NoDup (new_path w).
Proof.
  unfold walk. destruct (last path) as [last_vp|].
  - intros H. eapply walk_loop_new_NoDup; [exact H|]. constructor.
  - intros [= <-]. constructor.
Qed.

Lemma walk_sublist sp G path (w : walk_state) :
  walk sp G path = Ok w → new_path w `sublist_of` path.
Proof.
  unfold walk. destruct (last path) as [last_vp|].
  - intros (k & o & -> & _ & Hko & Hov)%walk_loop_appends. simpl.
    by etrans.
  - intros [= <-]. apply sublist_nil_l.
Qed.

Lemma combinations_spec {A} (l : list A) : ∀ k c,
  c ∈ combinations l k → c `sublist_of` l ∧ length c = k.
Proof.
  induction l as [|x l IH]; intros k c.
  - destruct k; simpl; [|by inversion 1].
    intros ->%list_elem_of_singleton. split; [constructor|done].
  - destruct k as [|k]; simpl.
    { intros ->%list_elem_of_singleton. split; [apply sublist_nil_l|done]. }
    intros [(c' & -> & Hc')%list_elem_of_fmap|Hc]%elem_of_app.
    + destruct (IH _ _ Hc') as [Hs Hl]. split; [by apply sublist_skip|].
      simpl. by rewrite Hl.
    + destruct (IH _ _ Hc) as [Hs Hl]. split; [by apply sublist_cons|done].
Qed.

Lemma block_entry_set_ne bl scan path_id rs scan' path_id' :
  (scan', path_id') ≠ (scan, path_id) →
  block_entry (set_block_entry bl scan path_id rs) scan' path_id'
  = block_entry bl scan' path_id'.
Proof.
  intros Hne. unfold block_entry, set_block_entry.
  destruct (decide (scan' = scan)) as [->|Hs].
  - rewrite lookup_insert_eq. simpl. rewrite lookup_insert_ne; [done|].
    intros ->. done.
  - by rewrite lookup_insert_ne.
Qed.

Lemma process_comb_effect sp G scan path_id path (st st' : State) comb :
  process_comb sp G scan path_id path st comb = Ok st' →
  ∃ rs, extends_by scan path_id st st' rs
        ∧ paths st' = paths st
        ∧ path_num st' = path_num st
        ∧ path_block_num st' = path_block_num st
        ∧ BlockEdge.original_lengths st' = BlockEdge.original_lengths st
        ∧ (rs = [] ∨ ∃ r, rs = [r] ∧ rec_comb r = comb
                          ∧ record_of sp G path r).
Proof.
  unfold process_comb.
  destruct (check_comb G comb true) as [[G' flag]|] eqn:Hc; simpl; [|done].
  assert (extends_by scan path_id st st []) as Hsame.
  { unfold extends_by. rewrite !app_nil_r. done. }
  destruct flag; [|intros [= <-]; exists []; split_and!; auto].
  destruct (walk sp G' path) as [w|] eqn:Hw; simpl; [|done].
  destruct (detail sp G' path comb) as [d|] eqn:Hd; simpl; [|done].
  unfold record_comb.
  destruct (length (new_path w) <=? 15)%nat eqn:Hlen;
    [|intros [= <-]; exists []; split_and!; auto].
  intros [= <-].
  exists [mkRecord comb (new_path w) (BlockEdge.original_path w) d].
  unfold extends_by. simpl. rewrite block_entry_set.
  rewrite size_list_to_set, Nat.eqb_refl by by eapply walk_NoDup.
  split_and!; try done.
  - intros scan' id' Hne. by apply block_entry_set_ne.
  - right. eexists. split; [done|]. split; [done|].
    exists G', w. simpl. apply Nat.leb_le in Hlen. done.
Qed.

Lemma process_combs_effect sp G scan path_id path combs :
  ∀ (st st' : State),
    process_combs sp G scan path_id path st combs = Ok st' →
    ∃ rs, extends_by scan path_id st st' rs
          ∧ paths st' = paths st
          ∧ path_num st' = path_num st
          ∧ path_block_num st' = path_block_num st
          ∧ BlockEdge.original_lengths st' = BlockEdge.original_lengths st
          ∧ (rec_comb <$> rs) `sublist_of` combs
          ∧ Forall (record_of sp G path) rs.
Proof.
  induction combs as [|comb combs IH]; simpl; intros st st'.
  { intros [= <-]. exists []. unfold extends_by. rewrite !app_nil_r.
    split_and!; try done. }
  destruct (process_comb sp G scan path_id path st comb) as [st1|] eqn:H1;
    simpl; [|done].
  intros (rs2 & (E1 & E2 & E3 & E4 & E5 & E6) & F1 & F2 & F3 & F4 & Hsub
          & Hall)%IH.
  apply process_comb_effect in H1
    as (rs1 & (D1 & D2 & D3 & D4 & D5 & D6) & C1 & C2 & C3 & C4 & Hrs1).
  exists (rs1 ++ rs2). unfold extends_by.
  rewrite E1, D1, E3, D3, fmap_app, <-!app_assoc.
  split_and!; try congruence.
  - intros scan' id' Hne. by rewrite E2, D2.
  - destruct Hrs1 as [->|(r & -> & <- & _)]; simpl;
      [by apply sublist_cons|by apply sublist_skip].
  - apply Forall_app. split; [|done].
    destruct Hrs1 as [->|(r & -> & _ & Hr)]; [constructor|].
    by apply Forall_singleton.
Qed.

Lemma process_path_effect sp nums G scan path_id path (st st' : State) :
  process_path sp nums G scan path_id path st = Ok st' →
  (path_id ∉ paths st)
  ∧ paths st' = paths st ++ [path_id]
  ∧ path_num st' = path_num st
  ∧ BlockEdge.original_lengths st'
    = BlockEdge.original_lengths st ++ [Z.of_nat (length path)]
  ∧ ∃ rs, extends_by scan path_id st st' rs
          ∧ path_block_num st'
            = (if (0 <? length (block_entry (block_list st) scan path_id
                              ++ rs))%nat
               then path_block_num st + 1 else path_block_num st)
          ∧ (rec_comb <$> rs) `sublist_of` combinations (path_edges path) nums
          ∧ Forall (record_of sp G path) rs.
Proof.
  unfold process_path. case_bool_decide as Hdup; [done|].
  destruct (process_combs _ _ _ _ _ _ _) as [st2|] eqn:H2; simpl; [|done].
  intros [= <-].
  apply process_combs_effect in H2
    as (rs & (E1 & E2 & E3 & E4 & E5 & E6) & F1 & F2 & F3 & F4 & Hsub & Hall).
  simpl in *. split_and!; try done.
  exists rs. unfold extends_by. simpl. rewrite block_entry_set.
  split_and!; try done.
  - intros scan' id' Hne. rewrite block_entry_set_ne by done. by apply E2.
  - by rewrite E1, F3.
Qed.

Lemma is_walk_nil G : is_walk G [].
Proof. by intros i a b. Qed.

Lemma is_walk_singleton G x : is_walk G [x].
Proof. intros [|i] a b; [done|by destruct i]. Qed.

Lemma is_walk_cons G x y l :
  is_walk G (x :: y :: l) ↔ linked G x y ∧ is_walk G (y :: l).
Proof.
  split.
  - intros Hw. split; [by apply (Hw 0%nat)|].
    intros i a b Ha Hb. by apply (Hw (S i)).
  - intros [Hxy Hw] [|i] a b Ha Hb.
    + by injection Ha as <-; injection Hb as <-.
    + by apply (Hw i).
Qed.

(** Two walks that share an endpoint make one walk. *)
Lemma is_walk_app G l1 x l2 :
  is_walk G (l1 ++ [x]) → is_walk G (x :: l2) → is_walk G (l1 ++ x :: l2).
Proof.
  induction l1 as [|a l1 IH]; [done|]. intros H1 H2.
  destruct l1 as [|b l1]; simpl in *.
  - apply is_walk_cons. apply is_walk_cons in H1 as [Hab _]. done.
  - apply is_walk_cons in H1 as [Hab H1]. apply is_walk_cons.
    split; [done|]. by apply IH.
Qed.

Lemma path_edges_cons x y l :
  path_edges (x :: y :: l) = (x, y) :: path_edges (y :: l).
Proof. reflexivity. Qed.

Lemma elem_of_path_edges l e : e ∈ path_edges l → e.1 ∈ l ∧ e.2 ∈ l.
Proof.
  induction l as [|x [|y l] IH]; [by inversion 1|by inversion 1|].
  rewrite path_edges_cons. intros [->|He]%elem_of_cons; simpl.
  - split; [by left|right; by left].
  - destruct (IH He). split; by right.
Qed.

(** In a path without repeated waypoints an edge is walked once, in one
    direction. *)
Lemma path_edges_NoDup_head x y l e :
  NoDup (x :: y :: l) → e ∈ path_edges (y :: l) → e ≠ (x, y) ∧ e ≠ (y, x).
Proof.
  intros [Hx Hnd]%NoDup_cons He. split; intros ->.
  - apply elem_of_path_edges in He as [He _]. done.
  - apply elem_of_path_edges in He as [_ He]. done.
Qed.

Lemma slice_to_app {A} (l1 l2 : list A) :
  slice_to (l1 ++ l2) (Z.of_nat (length l1)) = l1.
Proof.
  unfold slice_to, py_bound.
  assert ((Z.of_nat (length l1) <? 0) = false) as -> by (apply Z.ltb_ge; lia).
  rewrite Nat2Z.id. by rewrite take_app_length.
Qed.

Lemma slice_from_app {A} (l1 l2 : list A) (n : nat) :
  slice_from (l1 ++ l2) (Z.of_nat (length l1) + Z.of_nat n) = drop n l2.
Proof.
  unfold slice_from, py_bound.
  assert ((Z.of_nat (length l1) + Z.of_nat n <? 0) = false) as ->
    by (apply Z.ltb_ge; lia).
  replace (Z.to_nat (Z.of_nat (length l1) + Z.of_nat n))
    with (length l1 + n)%nat by lia.
  by rewrite drop_app_add.
Qed.

(** The loop of lines 120-125 from the waypoint [x] on: [pre] is what
    lies before [x] in the reference path, [P] what the detailed path
    holds in its place, [total] the whole combination. *)
Lemma detail_loop_is_walk (sp : path_oracle) (G : Graph) (path : list string)
    (total : list (string * string)) :
  NoDup path →
  sound_oracle sp G →
  (∀ pre x y rest,
     path = pre ++ x :: y :: rest → (x, y) ∉ total → linked G x y) →
  ∀ rest x pre remaining P adjustment d,
    path = pre ++ x :: rest →
    remaining `sublist_of` path_edges (x :: rest) →
    (∀ e, e ∈ total → e ∈ remaining ∨ e.1 ∈ pre) →
    Z.of_nat (length P) = Z.of_nat (length pre) + adjustment →
    is_walk G (P ++ [x]) →
    detail_loop sp G path remaining (P ++ x :: rest) adjustment = Ok d →
    is_walk G d ∧ last d = last path ∧ head d = head (P ++ [x]).
Proof.
  intros Hnd Hsp Hun.
  induction rest as [|y rest IH];
    intros x pre remaining P adjustment d Hpath Hsub Htotal Hlen Hwalk.
  { apply sublist_nil_r in Hsub as ->. simpl. intros [= <-].
    split_and!; [done| |by destruct P].
    by rewrite Hpath, !last_snoc. }
  rewrite path_edges_cons in Hsub.
  assert (Hnd' : NoDup (pre ++ x :: y :: rest)) by by rewrite <-Hpath.
  apply NoDup_app in Hnd' as (_ & Hpre & Hsuf).
  assert (Hpath' : path = (pre ++ [x]) ++ y :: rest)
    by by rewrite <-app_assoc.
  assert (Hlater : ∀ e, e ∈ total → e.1 ∈ pre → e ≠ (x, y)).
  { intros e _ He ->. apply (Hpre x He). by left. }
  apply sublist_cons_r in Hsub as [Hsub|(comb' & -> & Hsub)].
  - (* the edge from [x] to [y] is not blocked *)
    assert ((x, y) ∉ total) as Hfree.
    { intros Hin. destruct (Htotal _ Hin) as [Hr|Hp].
      - pose proof (elem_of_sublist _ _ _ Hr Hsub) as Hr'.
        by destruct (path_edges_NoDup_head _ _ _ _ Hsuf Hr').
      - by eapply Hlater. }
    replace (P ++ x :: y :: rest) with ((P ++ [x]) ++ y :: rest)
      by by rewrite <-app_assoc.
    intros Hrun.
    destruct (IH y (pre ++ [x]) remaining (P ++ [x]) adjustment d) as
      (Hw & Hl & Hh); try done.
    + intros e He. destruct (Htotal e He) as [Hr|Hp]; [by left|].
      right. apply elem_of_app. by left.
    + rewrite !length_app. simpl. lia.
    + rewrite <-app_assoc. apply is_walk_app; [done|].
      apply is_walk_cons. split; [|apply is_walk_singleton].
      by eapply Hun.
    + split_and!; [done|done|]. rewrite Hh. by destruct P.
  - (* the edge from [x] to [y] is blocked and replaced by its bypass *)
    simpl. destruct (sp G x y) as [bypass|] eqn:Hby; simpl; [|done].
    rewrite (index_of_lookup path (length pre) x Hnd)
      by (rewrite Hpath; by apply list_lookup_middle).
    simpl. rewrite <-Hlen.
    rewrite slice_to_app.
    change (Z.of_nat (length P) + 2) with (Z.of_nat (length P) + Z.of_nat 2).
    rewrite slice_from_app. simpl. rewrite drop_0.
    destruct (Hsp _ _ _ Hby) as (Hhead & Hlast & Hbw).
    destruct bypass as [|b0 bypass]; [done|]. injection Hhead as ->.
    destruct (decide (bypass = [])) as [->|Hne].
    { injection Hlast as ->. exfalso. apply NoDup_cons in Hsuf as [Hx _].
      apply Hx. by left. }
    destruct (exists_last Hne) as (mid & z & ->).
    rewrite app_comm_cons, last_snoc in Hlast. injection Hlast as ->.
    replace (P ++ (x :: mid ++ [y]) ++ rest)
      with ((P ++ x :: mid) ++ y :: rest)
      by (by rewrite <-!app_assoc; simpl; rewrite <-app_assoc).
    intros Hrun.
    destruct (IH y (pre ++ [x]) comb' (P ++ x :: mid)
                (adjustment + (Z.of_nat (length (x :: mid ++ [y])) - 2)) d)
      as (Hw & Hl & Hh); try done.
    + intros e He. destruct (Htotal e He) as [[->|Hr]%elem_of_cons|Hp].
      * right. apply elem_of_app. right. by left.
      * by left.
      * right. apply elem_of_app. by left.
    + rewrite !length_app. simpl. rewrite length_app. simpl. lia.
    + rewrite <-app_assoc. simpl. by apply is_walk_app.
    + split_and!; [done|done|]. rewrite Hh. by destruct P.
Qed.

Lemma path_edges_lookup l (i : nat) a b :
  path_edges l !! i = Some (a, b) ↔ l !! i = Some a ∧ l !! S i = Some b.
Proof. unfold path_edges. by rewrite lookup_zip_Some, lookup_tail. Qed.

Lemma elem_of_path_edges_lookup l e :
  e ∈ path_edges l ↔ ∃ i : nat, l !! i = Some e.1 ∧ l !! S i = Some e.2.
Proof.
  destruct e as [a b]. rewrite list_elem_of_lookup.
  by setoid_rewrite path_edges_lookup.
Qed.
End synthesizer_more_facts.

(** ** Results on the synthesizer's output *)

Section synthesizer_more_results.
Import NX BlockEdge Scenario.

(** X1.  The reduced path never repeats a waypoint and starts with the
    first waypoint of the reference path; the test that feeds
    [duplicate_num] therefore never succeeds, and the counter keeps its
    value through every path that is processed. *)
Theorem reduced_path_never_repeats (sp : path_oracle) (G : Graph)
    (path : list string) :
  (∀ w : walk_state,
     walk sp G path = Ok w →
     NoDup (new_path w) ∧ head (new_path w) = head path)
  ∧ (∀ nums scan path_id (st st' : State),
       process_path sp nums G scan path_id path st = Ok st' →
       duplicate_num st' = duplicate_num st).
Proof.
  split.
  - intros w Hw. split; [by eapply walk_NoDup|].
    by destruct (walk_heads _ _ _ _ Hw).
  - intros nums scan path_id st st' Hrun.
    apply process_path_effect in Hrun
      as (_ & _ & _ & _ & rs & (_ & _ & _ & Hdup & _) & _).
    done.
Qed.

(** X2.  On a well-formed graph the loop that removes the edges of a
    combination fails exactly when one of them is not an edge of the
    graph or has occurred earlier in the combination, in either
    direction; the failure is the NetworkXError of [remove_edge] and
    nothing else is raised. *)
Theorem check_comb_raises_on_missing_edge (G : Graph)
    (comb : list (string * string)) (flag : bool) :
  wf G →
  ((∃ r, check_comb G comb flag = Ok r) ↔
   ∀ (i : nat) e, comb !! i = Some e →
     linked G e.1 e.2 ∧ e ∉ take i comb ∧ prod_swap e ∉ take i comb)
  ∧ (∀ x, check_comb G comb flag = Raise x → x = NetworkXError).
Proof.
  revert G flag. induction comb as [|[u v] comb IH]; intros G flag Hwf.
  { split; [|done]. split; [by intros _ i e|by eexists]. }
  simpl. unfold remove_edge.
  destruct (has_edge G u v) eqn:Hedge; simpl.
  - apply bool_decide_eq_true in Hedge.
    set (G1 := mkGraph (node_set G) (edge_set G ∖ {[(u, v); (v, u)]})).
    assert (remove_edge G u v = Ok G1) as Hrm.
    { unfold remove_edge, has_edge. by rewrite bool_decide_eq_true_2. }
    assert (wf G1) as Hwf1 by eauto using wf_remove_edge.
    destruct (linked_nodes G u v Hwf Hedge) as [Hu Hv].
    unfold has_path, has_node. simpl.
    rewrite !bool_decide_eq_true_2 by done. simpl.
    destruct (IH G1 (if bool_decide (v ∈ component G1 u) then flag else false)
                Hwf1) as [Hiff Hexn].
    split; [|exact Hexn]. rewrite Hiff. clear Hiff Hexn.
    assert (∀ (i : nat) e,
              linked G1 e.1 e.2 ∧ e ∉ take i comb ∧ prod_swap e ∉ take i comb
              ↔ linked G e.1 e.2 ∧ e ∉ (u, v) :: take i comb
                ∧ prod_swap e ∉ (u, v) :: take i comb) as Hstep.
    { intros i [a b]. simpl.
      rewrite <-(remove_edges_nil G1), (remove_edges_cons _ _ _ _ [] Hrm).
      rewrite linked_remove_edges, !not_elem_of_cons.
      unfold prod_swap. simpl.
      split; intros; destruct_and?; split_and!; try done;
        try apply not_elem_of_nil; congruence. }
    split.
    + intros Hall [|i] e Hi; simpl in Hi.
      * injection Hi as <-. simpl. split_and!; [done|apply not_elem_of_nil..].
      * simpl. apply Hstep. by apply Hall.
    + intros Hall i e Hi. apply Hstep. by apply (Hall (S i)).
  - split; [|by intros x [= <-]].
    split; [by intros [r Hr]|]. intros Hall.
    destruct (Hall 0%nat (u, v) eq_refl) as [Hl _].
    apply bool_decide_eq_false in Hedge. done.
Qed.

Lemma check_comb_raises_on_missing_edge_witness :
  (∃ r, check_comb G_tri [("A", "B"); ("B", "C")] true = Ok r)
  ∧ check_comb (from_edges (path_edges path_aba)) (path_edges path_aba) true
    = Raise NetworkXError.
Proof.
  split.
  - apply (proj2 (proj1 (check_comb_raises_on_missing_edge G_tri
                           [("A", "B"); ("B", "C")] true (wf_from_edges _)))).
    intros [|[|i]] e He; [| |by destruct i]; injection He as <-; simpl;
      split_and!; try apply not_elem_of_nil.
    + vm_compute_decide.
    + vm_compute_decide.
    + apply not_elem_of_cons. split; [done|apply not_elem_of_nil].
    + apply not_elem_of_cons. split; [done|apply not_elem_of_nil].
  - destruct (check_comb _ _ _) as [r|x] eqn:Hrun.
    + exfalso.
      pose proof (proj1 (proj1 (check_comb_raises_on_missing_edge
                                  (from_edges (path_edges path_aba))
                                  (path_edges path_aba) true
                                  (wf_from_edges _))) (ex_intro _ r Hrun)
                    1%nat ("B", "A") eq_refl) as (_ & _ & Hswap).
      apply Hswap. by left.
    + f_equal.
      exact (proj2 (check_comb_raises_on_missing_edge _ _ _
                      (wf_from_edges _)) x Hrun).
Defined.

(** X3.  The records a reference path adds to the output come in the
    order of the combinations; each one blocks [nums] edges of the path,
    listed in path order, all of which keep their endpoints connected in
    the residual graph; its reduced path has at most 15 waypoints, none
    repeated, taken from the path in path order.  [modified_lengths]
    receives the length of each record's detailed path and the entries
    of the other paths are left alone. *)
Theorem emitted_records_well_formed (sp : path_oracle) (nums : nat)
    (G : Graph) (scan : string) (path_id : Z) (path : list string)
    (st st' : State) :
  wf G →
  process_path sp nums G scan path_id path st = Ok st' →
  ∃ rs,
    block_entry (block_list st') scan path_id
    = block_entry (block_list st) scan path_id ++ rs
    ∧ (∀ scan' path_id',
         (scan', path_id') ≠ (scan, path_id) →
         block_entry (block_list st') scan' path_id'
         = block_entry (block_list st) scan' path_id')
    ∧ modified_lengths st'
      = modified_lengths st
        ++ ((λ r, Z.of_nat (length (rec_detailed_path r))) <$> rs)
    ∧ (rec_comb <$> rs) `sublist_of` combinations (path_edges path) nums
    ∧ Forall (λ r,
                length (rec_comb r) = nums
                ∧ rec_comb r `sublist_of` path_edges path
                ∧ (∀ e, e ∈ rec_comb r →
                     connected (remove_edges G (rec_comb r)) e.1 e.2)
                ∧ (length (rec_new_path r) ≤ 15)%nat
                ∧ NoDup (rec_new_path r)
                ∧ rec_new_path r `sublist_of` path) rs.
Proof.
  intros Hwf Hrun.
  apply process_path_effect in Hrun
    as (_ & _ & _ & _ & rs & (E1 & E2 & E3 & _) & _ & Hsub & Hall).
  exists rs. split_and!; try done.
  apply Forall_forall. intros r Hr.
  assert (rec_comb r ∈ combinations (path_edges path) nums) as Hc.
  { eapply elem_of_sublist; [|exact Hsub]. apply list_elem_of_fmap.
    by exists r. }
  destruct (combinations_spec _ _ _ Hc) as [Hs Hl].
  rewrite Forall_forall in Hall.
  destruct (Hall r Hr) as (G' & w & Hcheck & Hw & _ & -> & _ & Hlen).
  destruct (check_comb_spec _ _ _ _ _ Hwf Hcheck) as [-> Hflag].
  split_and!; try done.
  - by apply Hflag.
  - by eapply walk_NoDup.
  - by eapply walk_sublist.
Qed.

Lemma emitted_records_well_formed_witness :
  ∃ rs,
    block_entry (block_list init_state) "scan" 7 ++ rs
    = [mkRecord [("B", "C")] ["A"; "B"; "D"] path_abcd
         ["A"; "B"; "X"; "C"; "D"]]
    ∧ Forall (λ r, length (rec_comb r) = 1%nat
                   ∧ (length (rec_new_path r) ≤ 15)%nat
                   ∧ NoDup (rec_new_path r)) rs.
Proof.
  assert (∃ st', process_path bfs_shortest_path 1 G_abcd "scan" 7 path_abcd
                   init_state = Ok st'
                 ∧ block_entry (block_list st') "scan" 7
                   = [mkRecord [("B", "C")] ["A"; "B"; "D"] path_abcd
                        ["A"; "B"; "X"; "C"; "D"]])
    as (st' & Hrun & Hout) by (eexists; split; vm_compute; reflexivity).
  destruct (emitted_records_well_formed bfs_shortest_path 1 G_abcd "scan" 7
              path_abcd init_state st' (wf_from_edges _) Hrun)
    as (rs & Hrs & _ & _ & _ & Hall).
  exists rs. split; [by rewrite <-Hrs|].
  eapply Forall_impl; [exact Hall|]. simpl. intros r. tauto.
Defined.

(** X5.  For a reference path without repeated waypoints that follows
    edges of the graph, and a path oracle whose answers can be followed
    in the residual graph, the detailed path of a combination of the
    path's edges starts and ends where the reference path does and goes
    along edges of the residual graph only: it never crosses a blocked
    edge, in either direction. *)
Theorem detailed_path_avoids_blocked_edges (sp : path_oracle) (G : Graph)
    (path : list string) (comb : list (string * string)) (d : list string) :
  NoDup path →
  is_walk G path →
  comb `sublist_of` path_edges path →
  sound_oracle sp (remove_edges G comb) →
  detail sp (remove_edges G comb) path comb = Ok d →
  head d = head path
  ∧ last d = last path
  ∧ is_walk (remove_edges G comb) d
  ∧ ∀ (i : nat) a b,
      d !! i = Some a → d !! S i = Some b → (a, b) ∉ comb ∧ (b, a) ∉ comb.
Proof.
  intros Hnd Hpath Hsub Hsp Hd.
  assert (head d = head path ∧ last d = last path
          ∧ is_walk (remove_edges G comb) d) as (Hh & Hl & Hw).
  { destruct path as [|x rest].
    { apply sublist_nil_r in Hsub as ->. injection Hd as <-.
      split_and!; [done|done|apply is_walk_nil]. }
    unfold detail in Hd.
    destruct (detail_loop_is_walk sp (remove_edges G comb) (x :: rest) comb
                Hnd Hsp) with (rest := rest) (x := x) (pre := @nil string)
                (remaining := comb) (P := @nil string) (adjustment := 0)
                (d := d) as (Hw & Hl & Hh); try done.
    - intros pre a b rest' Heq Hfree. apply linked_remove_edges.
      assert (path_lookup : (x :: rest) !! length pre = Some a
                            ∧ (x :: rest) !! S (length pre) = Some b).
      { rewrite Heq. split; [by apply list_lookup_middle|].
        rewrite (lookup_app_r pre) by lia.
        by replace (S (length pre) - length pre)%nat with 1%nat by lia. }
      destruct path_lookup as [Ha Hb].
      split_and!; [by eapply Hpath|done|].
      intros Hrev. apply (elem_of_sublist _ _ _ Hrev) in Hsub.
      apply elem_of_path_edges_lookup in Hsub as (j & Hj1 & Hj2).
      cbn [fst snd] in Hj1, Hj2.
      pose proof (NoDup_lookup _ _ _ _ Hnd Hj1 Hb).
      pose proof (NoDup_lookup _ _ _ _ Hnd Hj2 Ha). lia.
    - intros e He. by left. }
  split_and!; try done.
  intros i a b Ha Hb.
  by pose proof (Hw i a b Ha Hb) as (_ & ? & ?)%linked_remove_edges.
Qed.

Lemma detailed_path_avoids_blocked_edges_witness :
  head ["A"; "B"; "X"; "C"; "D"] = head path_abcd
  ∧ last ["A"; "B"; "X"; "C"; "D"] = last path_abcd
  ∧ is_walk (remove_edges G_abcd [("B", "C")]) ["A"; "B"; "X"; "C"; "D"]
  ∧ ∀ (i : nat) a b,
      ["A"; "B"; "X"; "C"; "D"] !! i = Some a →
      ["A"; "B"; "X"; "C"; "D"] !! S i = Some b →
      (a, b) ∉ [("B", "C")] ∧ (b, a) ∉ [("B", "C")].
Proof.
  apply (detailed_path_avoids_blocked_edges bfs_shortest_path G_abcd
           path_abcd [("B", "C")]).
  - vm_compute_decide.
  - unfold path_abcd.
    repeat (apply is_walk_cons; split; [vm_compute_decide|]).
    apply is_walk_singleton.
  - apply sublist_cons, sublist_skip, sublist_nil_l.
  - intros u v p Hp.
    assert (u ∈ ["A"; "B"; "C"; "D"; "X"] ∧ v ∈ ["A"; "B"; "C"; "D"; "X"])
      as [Hu Hv].
    { unfold bfs_shortest_path, has_node in Hp.
      assert (node_set (remove_edges G_abcd [("B", "C")])
              = list_to_set ["A"; "B"; "C"; "D"; "X"]) as Hn
        by (vm_compute; reflexivity).
      rewrite Hn in Hp. do 2 case_bool_decide; try done.
      split; [by apply elem_of_list_to_set in H
             |by apply elem_of_list_to_set in H0]. }
    repeat (apply elem_of_cons in Hu as [->|Hu]);
      [..|by apply not_elem_of_nil in Hu];
      repeat (apply elem_of_cons in Hv as [->|Hv]);
      try (by apply not_elem_of_nil in Hv);
      vm_compute in Hp; injection Hp as <-;
      (split_and!; [reflexivity|reflexivity|]);
      repeat (apply is_walk_cons; split; [vm_compute_decide|]);
      first [apply is_walk_singleton|apply is_walk_nil].
  - vm_compute. reflexivity.
Defined.
End synthesizer_more_results.

(** ** The script as a whole *)

Section script_facts.
Import NX BlockEdge.
Context (sp : path_oracle) (nums : nat).

Lemma extends_by_has_record scan path_id (st st' : State) rs :
  extends_by scan path_id st st' rs →
  (modified_lengths st ≠ [] → has_record st) →
  modified_lengths st' ≠ [] → has_record st'.
Proof.
  intros (E1 & E2 & E3 & _) Hinv Hne.
  destruct rs as [|r rs].
  - rewrite app_nil_r in E3. rewrite E3 in Hne.
    destruct (Hinv Hne) as (scan' & id' & Hrec). exists scan', id'.
    destruct (decide ((scan', id') = (scan, path_id))) as [[= -> ->]|Hd].
    + by rewrite E1, app_nil_r.
    + by rewrite E2.
  - exists scan, path_id. rewrite E1. by intros [_ [=]]%app_eq_nil.
Qed.

Lemma run_data_inv graphs data : ∀ (st st' : State),
  run_data sp nums graphs data st = Ok st' →
  paths st' = paths st ++ (x_path_id <$> data)
  ∧ (NoDup (paths st) → NoDup (paths st'))
  ∧ ((modified_lengths st ≠ [] → has_record st) →
     modified_lengths st' ≠ [] → has_record st')
  ∧ BlockEdge.original_lengths st'
    = BlockEdge.original_lengths st
      ++ ((λ x, Z.of_nat (length (x_path x))) <$> data)
  ∧ path_num st' = path_num st.
Proof.
  induction data as [|x data IH]; simpl; intros st st'.
  { intros [= <-]. by rewrite !app_nil_r. }
  case_bool_decide as Hdup; [done|].
  destruct (graphs !! x_scan x) as [G|]; simpl; [|done].
  destruct (process_path sp nums G (x_scan x) (x_path_id x) (x_path x) st)
    as [st1|] eqn:H1; simpl; [|done].
  intros (P1 & P2 & P3 & P4 & P5)%IH.
  apply process_path_effect in H1
    as (Hfresh & Q1 & Q2 & Q3 & rs & Hext & _).
  split_and!.
  - by rewrite P1, Q1, <-app_assoc.
  - intros Hnd. apply P2. rewrite Q1. apply NoDup_app.
    split_and!; [done| |apply NoDup_singleton].
    intros y Hy ->%list_elem_of_singleton. done.
  - intros Hinv. apply P3. by eapply extends_by_has_record.
  - by rewrite P4, Q3, <-app_assoc.
  - congruence.
Qed.

Lemma run_splits_inv load splits : ∀ (st st' : State),
  run_splits sp nums load splits st = Ok st' →
  paths st' = paths st ++ (x_path_id <$> concat splits)
  ∧ (NoDup (paths st) → NoDup (paths st'))
  ∧ ((modified_lengths st ≠ [] → has_record st) →
     modified_lengths st' ≠ [] → has_record st')
  ∧ BlockEdge.original_lengths st'
    = BlockEdge.original_lengths st
      ++ ((λ x, Z.of_nat (length (x_path x))) <$> concat splits)
  ∧ path_num st' = path_num st + Z.of_nat (length (concat splits)).
Proof.
  induction splits as [|data splits IH]; simpl; intros st st'.
  { intros [= <-]. rewrite !app_nil_r. split_and!; try done. lia. }
  unfold run_split.
  destruct (load _) as [graphs|]; simpl; [|done].
  destruct (run_data sp nums graphs data st) as [st1|] eqn:H1; simpl; [|done].
  intros (P1 & P2 & P3 & P4 & P5)%IH. simpl in *.
  apply run_data_inv in H1 as (Q1 & Q2 & Q3 & Q4 & Q5).
  split_and!.
  - by rewrite P1, Q1, fmap_app, <-app_assoc.
  - tauto.
  - tauto.
  - by rewrite P4, Q4, fmap_app, <-app_assoc.
  - rewrite P5, Q5, length_app. lia.
Qed.
End script_facts.

Section script_results.
Import NX BlockEdge Scenario.

(** X4.  When the script gets as far as writing its output, the path ids
    of the three annotation files taken together are pairwise different,
    at least one path was read and the output holds at least one record:
    a run in which no combination is accepted ends in the ValueError of
    [np.min] on the empty [modified_lengths], and a repeated path id ends
    it through [exit(0)], in both cases before anything is written. *)
Theorem script_output_is_never_empty (sp : path_oracle) (nums : nat)
    (load : gset string → result (gmap string Graph))
    (splits : list (list Annotation))
    (out : gmap string (gmap Z (list block_record))) :
  main sp nums load splits = Ok out →
  NoDup (x_path_id <$> concat splits)
  ∧ concat splits ≠ []
  ∧ ∃ scan path_id, block_entry out scan path_id ≠ [].
Proof.
  unfold main.
  destruct (run_splits sp nums load splits init_state) as [st|] eqn:Hrun;
    simpl; [|done].
  apply run_splits_inv in Hrun as (P1 & P2 & P3 & P4 & _). simpl in *.
  unfold report.
  destruct (BlockEdge.original_lengths st) as [|o os] eqn:Ho; simpl; [done|].
  destruct (modified_lengths st) as [|m ms] eqn:Hm; simpl; [done|].
  intros [= <-]. split_and!.
  - rewrite <-P1. apply P2. constructor.
  - intros Hnil. by rewrite Hnil in P4.
  - apply P3; done.
Qed.

Lemma script_output_is_never_empty_witness :
  NoDup (x_path_id <$> concat [data_abcd; []; []])
  ∧ concat [data_abcd; []; []] ≠ []
  ∧ ∃ scan path_id,
      block_entry
        {["scan" := {[7 := [mkRecord [("B", "C")] ["A"; "B"; "D"] path_abcd
                              ["A"; "B"; "X"; "C"; "D"]]]}]}
        scan path_id ≠ [].
Proof.
  apply (script_output_is_never_empty bfs_shortest_path 1 load_abcd
           [data_abcd; []; []]).
  vm_compute. reflexivity.
Defined.

(** With [--nums] above the number of edges of every path nothing is
    blocked, and the script stops at its statistics. *)
Lemma script_without_records_raises :
  main bfs_shortest_path 4 load_abcd [data_abcd; []; []] = Raise ValueError
  ∧ main bfs_shortest_path 1 load_abcd [data_abcd; data_abcd; []]
    = Raise SystemExit.
Proof. split; vm_compute; reflexivity. Qed.
End script_results.

(** ** The teacher policy *)

Section teacher_more_facts.
Import Agent.

(** The index [match_goal] returns: that of the first entry equal to the
    goal, and 0 when there is none. *)
Lemma match_goal_spec goal vpids : ∀ j,
  (Some goal ∉ vpids ∧ match_goal goal j vpids = 0)
  ∨ ∃ k : nat,
      vpids !! k = Some (Some goal)
      ∧ match_goal goal j vpids = j + Z.of_nat k
      ∧ ∀ k' : nat, (k' < k)%nat → vpids !! k' ≠ Some (Some goal).
Proof.
  induction vpids as [|vpid vpids IH]; intros j; simpl.
  { left. split; [apply not_elem_of_nil|done]. }
  case_bool_decide as Heq.
  - right. exists 0%nat. split_and!; [by rewrite Heq|lia|lia].
  - destruct (IH (j + 1)) as [[Hn ->]|(k & Hk & -> & Hfirst)].
    + left. split; [|done]. by apply not_elem_of_cons.
    + right. exists (S k). split_and!; [done|lia|].
      intros [|k'] Hlt; simpl; [congruence|]. apply Hfirst. lia.
Qed.

Lemma legal_Ok_true vm j :
  legal vm j = Ok true ↔
  0 < j ∧ ∀ row, vm = Some row → py_get row j = Ok false.
Proof.
  unfold legal. destruct (0 <? j) eqn:Hj.
  - apply Z.ltb_lt in Hj. destruct vm as [row|]; simpl.
    + split.
      * intros H. split; [done|]. intros row' [= <-].
        by destruct (py_get row j) as [[]|].
      * intros [_ H]. by rewrite (H row eq_refl).
    + split; [|done]. intros _. split; [done|]. by intros ? [=].
  - apply Z.ltb_ge in Hj. split; [done|]. intros [? _]. lia.
Qed.

(** A selected index is the initial one or that of an entry that was
    legal, was not skipped and got a score. *)
Lemma teacher_scan_legal skip score vm vpids : ∀ j m0 d0 a,
  teacher_scan skip score vm j vpids m0 d0 = Ok a →
  a = m0
  ∨ ∃ (k : nat) vpid dist,
      vpids !! k = Some vpid ∧ a = j + Z.of_nat k
      ∧ skip vpid = false ∧ legal vm a = Ok true ∧ score vpid = Ok dist.
Proof.
  induction vpids as [|vpid vpids IH]; intros j m0 d0 a; simpl.
  { intros [= <-]. by left. }
  assert (Hshift : ∀ m d,
    teacher_scan skip score vm (j + 1) vpids m d = Ok a →
    a = m ∨ ∃ (k : nat) v dist,
              (vpid :: vpids) !! k = Some v ∧ a = j + Z.of_nat k
              ∧ skip v = false ∧ legal vm a = Ok true ∧ score v = Ok dist).
  { intros m d [->|(k & v & dist & Hk & -> & Hs & Hl & Hd)]%IH; [by left|].
    right. exists (S k), v, dist.
    replace (j + Z.of_nat (S k)) with (j + 1 + Z.of_nat k) by lia.
    by split_and!. }
  destruct (skip vpid) eqn:Hskip; [apply Hshift|].
  destruct (legal vm j) as [[]|] eqn:Hl; simpl; [|apply Hshift|done].
  destruct (score vpid) as [dist|] eqn:Hd; simpl; [|done].
  destruct (PrimFloat.ltb dist d0); [|apply Hshift].
  intros [->|H]%Hshift; [|by right].
  right. exists 0%nat, vpid, dist. rewrite Z.add_0_r. by split_and!.
Qed.

(** The loop of [_stop_action]. *)
Lemma stop_scan_selected env ob visited_masks vpids : ∀ j m0 d0 a,
  stop_scan env ob visited_masks j vpids m0 d0 = Ok a →
  a = m0
  ∨ ∃ (k : nat) vp,
      vpids !! k = Some (Some vp) ∧ a = j + Z.of_nat k ∧ 0 < a
      ∧ visited_masks !! Z.to_nat a = Some true.
Proof.
  induction vpids as [|vpid vpids IH]; intros j m0 d0 a; simpl.
  { intros [= <-]. by left. }
  assert (Hshift : ∀ m d,
    stop_scan env ob visited_masks (j + 1) vpids m d = Ok a →
    a = m ∨ ∃ (k : nat) vp,
              (vpid :: vpids) !! k = Some (Some vp) ∧ a = j + Z.of_nat k
              ∧ 0 < a ∧ visited_masks !! Z.to_nat a = Some true).
  { intros m d [->|(k & vp & Hk & -> & Hpos & Hm)]%IH; [by left|].
    right. exists (S k), vp.
    replace (j + Z.of_nat (S k)) with (j + 1 + Z.of_nat k) by lia.
    by split_and!. }
  destruct (0 <? j) eqn:Hj; simpl; [|apply Hshift].
  apply Z.ltb_lt in Hj.
  destruct (py_get visited_masks j) as [[]|] eqn:Hm; simpl;
    [|apply Hshift|done].
  destruct (shortest_distances env _) as [table|]; simpl; [|done].
  destruct vpid as [vp|]; simpl; [|done].
  destruct (table vp (endpoint ob)) as [dist|]; simpl; [|done].
  apply py_get_lookup in Hm; [|lia].
  destruct (PrimFloat.ltb dist d0); [|apply Hshift].
  intros [->|H]%Hshift; [|by right].
  right. exists 0%nat, vp. rewrite Z.add_0_r. by split_and!.
Qed.

Lemma stop_scan_none env ob visited_masks vpids : ∀ j m0 d0,
  0 ≤ j →
  (∀ k : nat, (k < length vpids)%nat → 0 < j + Z.of_nat k →
     visited_masks !! Z.to_nat (j + Z.of_nat k) = Some false) →
  stop_scan env ob visited_masks j vpids m0 d0 = Ok m0.
Proof.
  induction vpids as [|vpid vpids IH]; intros j m0 d0 Hj Hall; [done|].
  simpl.
  assert (stop_scan env ob visited_masks (j + 1) vpids m0 d0 = Ok m0) as Hrest.
  { apply IH; [lia|]. intros k Hk Hpos.
    replace (j + 1 + Z.of_nat k) with (j + Z.of_nat (S k)) by lia.
    apply Hall; simpl; lia. }
  destruct (0 <? j) eqn:Hpos; simpl; [|done]. apply Z.ltb_lt in Hpos.
  assert (py_get visited_masks j = Ok false) as ->.
  { apply py_get_lookup; [lia|]. specialize (Hall 0%nat).
    rewrite Z.add_0_r in Hall. apply Hall; simpl; lia. }
  done.
Qed.
End teacher_more_facts.

Section teacher_more_results.
Import Agent Scenario.

(** X6.  Under imitation learning, for an episode that has not ended,
    a teacher function that returns has found the agent on waypoint [t]
    of the ground-truth path (and, for the vln variant, on waypoint
    [base_t] of the original path).  At the last waypoint it returns 0;
    otherwise it returns the position of the first entry of [vpids] that
    is the next waypoint, and 0, the stop index, when no entry is.  An
    agent off the path is an AssertionError, and [exit(0)] in the vln
    variant. *)
Theorem teacher_imitation_follows_path (args : Args) (env : Env)
    (gmap : GraphMap) (ob : Ob) (vpids : list (option string))
    (vm : option (list bool)) (t base_t : Z) (traj : list (list string))
    (target : string) :
  let next (path : list string) (i a : Z) :=
    if t =? Z.of_nat (length (gt_path ob)) - 1 then a = 0
    else ∃ goal, py_get path (i + 1) = Ok goal
                 ∧ ((Some goal ∉ vpids ∧ a = 0)
                    ∨ ∃ k : nat,
                        vpids !! k = Some (Some goal) ∧ a = Z.of_nat k
                        ∧ ∀ k' : nat, (k' < k)%nat →
                            vpids !! k' ≠ Some (Some goal)) in
  (∀ a,
     _teacher_action_r4r args env gmap ob vpids false vm true t traj = Ok a
     ∨ _teacher_action_r4r_search args env gmap ob vpids false target vm
         true t = Ok a →
     py_get (gt_path ob) t = Ok (viewpoint ob) ∧ next (gt_path ob) t a)
  ∧ (∀ a,
       _teacher_action_r4r_vln args env gmap ob vpids false vm true t traj
         base_t = Ok a →
       py_get (gt_path ob) t = Ok (viewpoint ob)
       ∧ py_get (original_path ob) base_t = Ok (viewpoint ob)
       ∧ next (original_path ob) base_t a)
  ∧ (∀ cur,
       py_get (gt_path ob) t = Ok cur → cur ≠ viewpoint ob →
       _teacher_action_r4r args env gmap ob vpids false vm true t traj
       = Raise AssertionError
       ∧ _teacher_action_r4r_search args env gmap ob vpids false target vm
           true t = Raise AssertionError
       ∧ _teacher_action_r4r_vln args env gmap ob vpids false vm true t traj
           base_t = Raise SystemExit).
Proof.
  intros next.
  assert (Hnext : ∀ (path : list string) (i a : Z),
            (if t =? Z.of_nat (length (gt_path ob)) - 1 then Ok 0
             else goal_vp ← py_get path (i + 1);
                  Ok (match_goal goal_vp 0 vpids)) = Ok a →
            next path i a).
  { intros path i a. unfold next.
    destruct (t =? Z.of_nat (length (gt_path ob)) - 1); [by intros [= <-]|].
    destruct (py_get path (i + 1)) as [goal|]; simpl; [|done].
    intros [= <-]. exists goal. split; [done|].
    destruct (match_goal_spec goal vpids 0) as [?|(k & Hk & -> & Hf)];
      [by left|right]. exists k. by split_and!. }
  split_and!.
  - intros a Hrun.
    assert ((cur ← py_get (gt_path ob) t;
             if negb (String.eqb (viewpoint ob) cur) then Raise AssertionError
             else if t =? Z.of_nat (length (gt_path ob)) - 1 then Ok 0
             else goal_vp ← py_get (gt_path ob) (t + 1);
                  Ok (match_goal goal_vp 0 vpids)) = Ok a) as H
      by by destruct Hrun.
    clear Hrun. destruct (py_get (gt_path ob) t) as [cur|]; simpl in H; [|done].
    destruct (String.eqb (viewpoint ob) cur) eqn:Hcur; simpl in H; [|done].
    apply String.eqb_eq in Hcur as <-. split; [done|]. by apply Hnext.
  - intros a. unfold _teacher_action_r4r_vln. simpl.
    destruct (py_get (gt_path ob) t) as [cur|]; simpl; [|done].
    destruct (py_get (original_path ob) base_t) as [orig|]; simpl; [|done].
    destruct (String.eqb (viewpoint ob) cur) eqn:Hcur; simpl; [|done].
    destruct (String.eqb (viewpoint ob) orig) eqn:Horig; simpl; [|done].
    apply String.eqb_eq in Hcur as <-. apply String.eqb_eq in Horig as <-.
    intros H. split_and!; [done|done|]. by apply Hnext.
  - intros cur Hcur Hne.
    unfold _teacher_action_r4r, _teacher_action_r4r_search,
      _teacher_action_r4r_vln. simpl. rewrite Hcur. simpl.
    assert (String.eqb (viewpoint ob) cur = false) as ->.
    { apply String.eqb_neq. congruence. }
    simpl. split_and!; [done|done|].
    by destruct (py_get (original_path ob) base_t).
Qed.

(** X7.  In objective mode, for an episode that has not ended, the index
    a teacher function returns is 0, the ignore index, or the position
    (at least 1) of an entry of [vpids] that names a viewpoint and, when
    visited masks are given, is not masked as visited: neither the stop
    entry nor a visited node is ever the scored choice. *)
Theorem teacher_objective_selects_open_node (args : Args) (env : Env)
    (gmap : GraphMap) (ob : Ob) (vpids : list (option string))
    (vm : option (list bool)) (t base_t i : Z) (traj : list (list string))
    (target : string) (a : Z) :
  _teacher_action args env i ob vpids false vm = Ok a
  ∨ _teacher_action_r4r args env gmap ob vpids false vm false t traj = Ok a
  ∨ _teacher_action_r4r_vln args env gmap ob vpids false vm false t traj
      base_t = Ok a
  ∨ _teacher_action_r4r_search args env gmap ob vpids false target vm false t
    = Ok a →
  a = 0
  ∨ a = ignoreid args
  ∨ (0 < a
     ∧ (∃ vp, vpids !! Z.to_nat a = Some (Some vp))
     ∧ ∀ row, vm = Some row → row !! Z.to_nat a = Some false).
Proof.
  assert (Hscan : ∀ skip score,
            (∀ vpid dist, score vpid = Ok dist → ∃ vp, vpid = Some vp) →
            teacher_scan skip score vm 0 vpids (ignoreid args)
              PrimFloat.infinity = Ok a →
            a = 0 ∨ a = ignoreid args
            ∨ (0 < a
               ∧ (∃ vp, vpids !! Z.to_nat a = Some (Some vp))
               ∧ ∀ row, vm = Some row → row !! Z.to_nat a = Some false)).
  { intros skip score Hsome
      [->|(k & vpid & dist & Hk & -> & _ & Hl & Hd)]%teacher_scan_legal;
      [by right; left|].
    right. right. apply legal_Ok_true in Hl as [Hpos Hrow].
    destruct (Hsome _ _ Hd) as [vp ->].
    rewrite Z.add_0_l, Nat2Z.id in *. split_and!; [done|by exists vp|].
    intros row Hvm. specialize (Hrow row Hvm).
    apply py_get_lookup in Hrow; [|lia]. by rewrite Nat2Z.id in Hrow. }
  assert (Hopt : ∀ (f : string → result float) vpid dist,
            (vp ← of_option KeyError vpid; f vp) = Ok dist →
            ∃ vp, vpid = Some vp).
  { intros f [vp|] dist; [by exists vp|done]. }
  intros [H|[H|[H|H]]].
  - unfold _teacher_action in H. simpl in H.
    destruct (py_get (gt_path ob) (-1)) as [final|]; simpl in H; [|done].
    destruct (String.eqb (viewpoint ob) final); [injection H as <-; by left|].
    eapply Hscan; [|exact H]. intros vpid dist. apply Hopt.
  - unfold _teacher_action_r4r in H. simpl in H.
    destruct (py_get (gt_path ob) (-1)) as [final|]; simpl in H; [|done].
    destruct (String.eqb (viewpoint ob) final); [injection H as <-; by left|].
    eapply Hscan; [|exact H]. intros vpid dist.
    destruct (expert_policy args); [apply Hopt|]. unfold ndtw_dist. apply Hopt.
  - unfold _teacher_action_r4r_vln in H. simpl in H.
    destruct (py_get (gt_path ob) (-1)) as [final|]; simpl in H; [|done].
    destruct (String.eqb (viewpoint ob) final); [injection H as <-; by left|].
    eapply Hscan; [|exact H]. intros vpid dist.
    destruct (expert_policy args); [apply Hopt|]. unfold ndtw_dist. apply Hopt.
  - unfold _teacher_action_r4r_search in H. simpl in H.
    destruct (String.eqb (viewpoint ob) target); [injection H as <-; by left|].
    eapply Hscan; [|exact H]. intros vpid dist. apply Hopt.
Qed.

Lemma teacher_objective_selects_open_node_witness :
  1 = 0 ∨ 1 = ignoreid args_spl
  ∨ (0 < 1
     ∧ (∃ vp, vpids_A !! Z.to_nat 1 = Some (Some vp))
     ∧ ∀ row, (None : option (list bool)) = Some row →
         row !! Z.to_nat 1 = Some false).
Proof.
  apply (teacher_objective_selects_open_node args_spl env_flat gmap_A ob_A
           vpids_A None 0 0 0 [["A"]] "G" 1).
  right. left. vm_compute. reflexivity.
Defined.

(** X8.  [_stop_action] returns the ignore index or the position (at
    least 1) of an entry of [vpids] that names a viewpoint and is marked
    as visited; when no position from 1 on is marked as visited it
    returns the ignore index. *)
Theorem stop_action_selects_visited_node (args : Args) (env : Env) (ob : Ob)
    (vpids : list (option string)) (visited_masks : list bool) :
  (∀ a,
     _stop_action args env ob vpids visited_masks = Ok a →
     a = ignoreid args
     ∨ (0 < a
        ∧ (∃ vp, vpids !! Z.to_nat a = Some (Some vp))
        ∧ visited_masks !! Z.to_nat a = Some true))
  ∧ ((∀ k : nat, (0 < k < length vpids)%nat →
        visited_masks !! k = Some false) →
     _stop_action args env ob vpids visited_masks = Ok (ignoreid args)).
Proof.
  split.
  - intros a [->|(k & vp & Hk & -> & Hpos & Hm)]%stop_scan_selected;
      [by left|right].
    rewrite Z.add_0_l, Nat2Z.id in *. split_and!; [done|by exists vp|done].
  - intros Hall. apply stop_scan_none; [done|].
    intros k Hk Hpos. rewrite Z.add_0_l, Nat2Z.id. apply Hall. lia.
Qed.
End teacher_more_results.

(** ** The candidate cache and the resolvers *)

Section cache_facts.
Import Agent.

(** What an entry holds after an update: the direction of the last
    candidate with that viewpoint id, or what it held before. *)
Lemma update_row_lookup_fold row cands vp :
  update_row row cands !! vp
  = foldl (λ acc c, if bool_decide (viewpointId c = vp)
                    then Some (pointId c) else acc) (row !! vp) cands.
Proof.
  induction cands as [|c cands IH] using rev_ind; [done|].
  rewrite update_row_snoc, foldl_app. simpl. case_bool_decide as Hc.
  - by rewrite Hc, lookup_insert_eq.
  - by rewrite lookup_insert_ne.
Qed.

Lemma last_direction_cases (cands : list Cand) vp :
  let f := λ (acc : option Z) c,
    if bool_decide (viewpointId c = vp) then Some (pointId c) else acc in
  (∀ acc, foldl f acc cands = acc) ∨ ∃ p, ∀ acc, foldl f acc cands = Some p.
Proof.
  intros f. induction cands as [|c cands IH] using rev_ind; [by left|].
  destruct (decide (viewpointId c = vp)) as [Hc|Hc].
  - right. exists (pointId c). intros acc. rewrite foldl_app. simpl.
    unfold f at 1. by rewrite bool_decide_eq_true_2.
  - destruct IH as [IH|[p IH]]; [left|right; exists p]; intros acc;
      rewrite foldl_app; simpl; unfold f at 1;
      by rewrite bool_decide_eq_false_2.
Qed.

Lemma update_row_idempotent row cands :
  update_row (update_row row cands) cands = update_row row cands.
Proof.
  apply map_eq. intros vp. rewrite (update_row_lookup_fold (update_row _ _)).
  rewrite update_row_lookup_fold.
  destruct (last_direction_cases cands vp) as [H|[p H]]; by rewrite !H.
Qed.

Lemma update_row_keeps row cands vp :
  is_Some (row !! vp) → is_Some (update_row row cands !! vp).
Proof.
  intros Hvp. rewrite update_row_lookup_fold.
  destruct (last_direction_cases cands vp) as [H|[p H]]; rewrite H; eauto.
Qed.

Lemma update_cands_search_keeps cache ob key row vp :
  cache !! key = Some row → is_Some (row !! vp) →
  ∃ row', _update_scanvp_cands_search cache ob !! key = Some row'
          ∧ is_Some (row' !! vp).
Proof.
  intros Hkey Hvp. unfold _update_scanvp_cands_search.
  destruct (decide (key = scanvp_key (scan ob) (viewpoint ob))) as [->|Hne].
  - rewrite lookup_insert_eq, Hkey. simpl. eexists. split; [done|].
    by apply update_row_keeps.
  - rewrite lookup_insert_ne by done. by exists row.
Qed.

Lemma update_cands_keeps obs : ∀ cache key row vp,
  cache !! key = Some row → is_Some (row !! vp) →
  ∃ row', _update_scanvp_cands cache obs !! key = Some row'
          ∧ is_Some (row' !! vp).
Proof.
  induction obs as [|ob obs IH]; intros cache key row vp Hkey Hvp.
  { by exists row. }
  destruct (update_cands_search_keeps cache ob key row vp Hkey Hvp)
    as (row1 & H1 & Hvp1).
  by apply (IH _ _ row1).
Qed.
End cache_facts.

Section cache_results.
Import Agent Scenario.

(** X9.  The candidate cache only grows: an entry that is there stays
    there through any number of observations, with every viewpoint id it
    knows (the direction of an id is that of the last candidate observed
    with it); and observing the same panorama a second time changes
    nothing. *)
Theorem cache_grows_and_absorbs_repeats (cache : cand_cache) :
  (∀ obs key row vp,
     cache !! key = Some row → is_Some (row !! vp) →
     ∃ row', _update_scanvp_cands cache obs !! key = Some row'
             ∧ is_Some (row' !! vp))
  ∧ (∀ ob,
       _update_scanvp_cands_search (_update_scanvp_cands_search cache ob) ob
       = _update_scanvp_cands_search cache ob)
  ∧ (∀ ob,
       _update_scanvp_cands cache [ob; ob] = _update_scanvp_cands cache [ob]).
Proof.
  assert (∀ ob,
    _update_scanvp_cands_search (_update_scanvp_cands_search cache ob) ob
    = _update_scanvp_cands_search cache ob) as Hidem.
  { intros ob. unfold _update_scanvp_cands_search.
    rewrite lookup_insert_eq. simpl.
    by rewrite insert_insert_eq, update_row_idempotent. }
  split_and!; [|done|intros ob; apply Hidem].
  intros obs key row vp. apply update_cands_keeps.
Qed.

(** X10.  A hop right after an observation: when the action is a
    candidate of the panorama just observed, the map gives the direct
    path to it and the trajectory ends on the current viewpoint, each
    resolver succeeds, appends the one-hop segment and turns the
    simulator to the direction of that candidate.  A path that comes
    back empty, as for a hop to the viewpoint the agent stands on, is an
    IndexError. *)
Theorem hop_after_observation (cache : cand_cache) (gmap : GraphMap)
    (ob : Ob) (traj : list (list string)) (sim : Sim) :
  (∀ c seg,
     c ∈ candidate ob →
     (∀ c', c' ∈ candidate ob →
        viewpointId c' = viewpointId c → pointId c' = pointId c) →
     graph_path gmap (viewpoint ob) (Some (viewpointId c))
     = Ok [viewpointId c] →
     last traj = Some seg → last seg = Some (viewpoint ob) →
     make_equiv_action (_update_scanvp_cands cache [ob])
       (Some (viewpointId c)) (mkLane gmap ob traj sim)
     = Ok (mkLane gmap ob (traj ++ [[viewpointId c]])
             (mkSim (scan ob) (viewpointId c) (heading_of (pointId c))
                (elevation_of (pointId c))))
     ∧ make_equiv_action_search (_update_scanvp_cands_search cache ob)
         (Some (viewpointId c)) (mkLane gmap ob traj sim)
       = Ok (mkLane gmap ob (traj ++ [[viewpointId c]])
               (mkSim (scan ob) (viewpointId c) (heading_of (pointId c))
                  (elevation_of (pointId c)))))
  ∧ (∀ action,
       graph_path gmap (viewpoint ob) (Some action) = Ok [] →
       make_equiv_action cache (Some action) (mkLane gmap ob traj sim)
       = Raise IndexError
       ∧ make_equiv_action_search cache (Some action)
           (mkLane gmap ob traj sim)
         = Raise IndexError).
Proof.
  split.
  - intros c seg Hc Hfun Hpath Htraj Hseg.
    assert (take_hop (_update_scanvp_cands_search cache ob) gmap ob traj
              (viewpointId c)
            = Ok (traj ++ [[viewpointId c]],
                  mkSim (scan ob) (viewpointId c) (heading_of (pointId c))
                    (elevation_of (pointId c)))) as Hhop.
    { unfold take_hop. rewrite Hpath. simpl.
      rewrite py_get_before_last, py_get_last, Htraj. simpl.
      rewrite py_get_last, Hseg. simpl.
      unfold _update_scanvp_cands_search. rewrite lookup_insert_eq. simpl.
      by rewrite (update_row_lookup _ _ c Hc Hfun). }
    unfold make_equiv_action, make_equiv_action_search, _update_scanvp_cands.
    simpl. by rewrite Hhop.
  - intros action Hpath.
    unfold make_equiv_action, make_equiv_action_search, take_hop. simpl.
    by rewrite Hpath.
Qed.

Lemma hop_after_observation_witness :
  make_equiv_action (_update_scanvp_cands ∅ [ob_A]) (Some "B") lane_A
  = Ok lane_B.
Proof.
  apply (proj1 (hop_after_observation ∅ gmap_A ob_A [["A"]]
                  (mkSim "scan" "A" PrimFloat.zero PrimFloat.zero))
           (mkCand "B" 3) ["A"]).
  - by left.
  - by intros c' ->%list_elem_of_singleton.
  - reflexivity.
  - reflexivity.
  - reflexivity.
Defined.
End cache_results.

(** ** The rollout and the search *)

Section rollout_facts.
Import Agent.
Context {H : Type} (W : World H) (args : Args) (feedback : Feedback)
  (train_ml : option float).

Lemma take_hop_segment cache gmap ob traj action traj' sim :
  take_hop cache gmap ob traj action = Ok (traj', sim) →
  ∃ seg, traj' = traj ++ [seg] ∧ seg ≠ [] ∧ sim_viewpoint sim = action.
Proof.
  unfold take_hop.
  destruct (graph_path gmap (viewpoint ob) (Some action)) as [hops|];
    simpl; [|done].
  destruct (if (length hops =? 1)%nat then _ else _) as [prev_vp|] eqn:Hprev;
    simpl; [|done].
  destruct (cache !! _) as [row|]; simpl; [|done].
  destruct (row !! action) as [viewidx|]; simpl; [|done].
  intros [= <- <-]. exists hops. split_and!; [done| |done].
  intros ->. simpl in Hprev. done.
Qed.

(** What a resolver does to a lane. *)
Lemma make_equiv_action_search_cases cache action (ln ln' : Lane) :
  make_equiv_action_search cache action ln = Ok ln' →
  lane_gmap ln' = lane_gmap ln ∧ lane_ob ln' = lane_ob ln
  ∧ match action with
    | None => ln' = ln
    | Some vp =>
        ∃ seg, lane_traj ln' = lane_traj ln ++ [seg] ∧ seg ≠ []
               ∧ sim_viewpoint (lane_sim ln') = vp
    end.
Proof.
  destruct action as [vp|]; simpl; [|by intros [= <-]].
  destruct (take_hop _ _ _ _ _) as [[traj' sim]|] eqn:Hhop; simpl; [|done].
  intros [= <-]. simpl. split_and!; [done|done|].
  by apply take_hop_segment in Hhop.
Qed.

Lemma search_decide_loss target real_target search_start_vp start_step step
    (s : SearchState H) cpu_a_t gmap h loss :
  search_decide W args feedback train_ml target real_target search_start_vp
    start_step step s = Ok (cpu_a_t, gmap, h, loss) →
  train_ml = None → loss = st_loss s.
Proof.
  intros Hd ->. unfold search_decide in Hd.
  destruct (vln_bert W _ _ _ _ _ _) as [outs h1].
  destruct (_nav_gmap_variable_search _ _ _) as [nav|]; simpl in Hd; [|done].
  destruct (select_fusion args outs nav) as [logits0 nav_vpids].
  destruct (masked_fill _ _ _) as [nav_logits|]; simpl in Hd; [|done].
  destruct (py_get _ 0) as [stop_prob|]; simpl in Hd; [|done].
  destruct (choose _ _ _ _ _ _ _ _) as [[a_t h2]|]; simpl in Hd; [|done].
  destruct (_ || _ || _); simpl in Hd; [by injection Hd as _ _ _ <-|].
  destruct (py_get nav_vpids a_t) as [cpu|]; simpl in Hd; [|done].
  by injection Hd as _ _ _ <-.
Qed.

(** Each iteration of the search that moves on appends one segment to
    the trajectory and advances the step counter by one. *)
Lemma search_loop_trajectory target real_target search_start_vp start_step
    fuel : ∀ step (s : SearchState H) step' s',
  search_loop fuel W args feedback train_ml target real_target
    search_start_vp start_step step s = Some (Ok (step', s')) →
  ∃ segs,
    lane_traj (st_lane s') = lane_traj (st_lane s) ++ segs
    ∧ Z.of_nat (length segs) = step' - step
    ∧ Forall (λ seg, seg ≠ []) segs
    ∧ (train_ml = None → st_loss s' = st_loss s)
    ∧ ∀ key row vp,
        st_cands s !! key = Some row → is_Some (row !! vp) →
        ∃ row', st_cands s' !! key = Some row' ∧ is_Some (row' !! vp).
Proof.
  induction fuel as [|fuel IH]; intros step s step' s'; [done|]. simpl.
  destruct (search_decide _ _ _ _ _ _ _ _ _ _) as [[[[cpu_a_t gmap] h] loss]|e]
    eqn:Hd; [|done].
  destruct (make_equiv_action_search _ _ _) as [ln1|e] eqn:Hact; [|done].
  apply make_equiv_action_search_cases in Hact as (Hg & Ho & Hcase).
  pose proof (search_decide_loss _ _ _ _ _ _ _ _ _ _ Hd) as Hloss.
  destruct cpu_a_t as [vp|].
  - destruct Hcase as (seg & Htraj & Hseg & _).
    intros (segs & Hsegs & Hlen & Hall & Hl & Hcache)%IH. simpl in *.
    exists (seg :: segs). rewrite Hsegs, Htraj, <-app_assoc.
    split_and!; [done|simpl length; lia|by constructor| |].
    + intros Hml. rewrite (Hl Hml). by apply Hloss.
    + intros key row vp' Hkey Hvp.
      destruct (update_cands_search_keeps (st_cands s)
                  (get_ob W (lane_sim ln1)) key row vp' Hkey Hvp)
        as (row1 & H1 & Hvp1).
      by apply (Hcache _ row1).
  - intros [= <- <-]. subst ln1. simpl. exists [].
    rewrite app_nil_r. split_and!; [done|simpl; lia|constructor|done|].
    intros key row vp'. apply update_cands_search_keeps.
Qed.
End rollout_facts.

Section rollout_results.
Import Agent Scenario.

(** X11.  The search advances the step counter by exactly the number of
    hops it makes: when it returns, the trajectory has grown by that many
    segments, none of them empty; the candidate cache has kept all it
    held; and without a training weight the loss it reports is zero. *)
Theorem search_counts_its_hops {H : Type} (W : World H) (args : Args)
    (feedback : Feedback) (train_ml : option float)
    (target real_target : string) (start_step : Z) (s : SearchState H)
    (fuel : nat) (step' : Z) (s' : SearchState H) :
  search_rollout fuel W args feedback train_ml target real_target start_step s
  = Some (Ok (step', s')) →
  ∃ segs,
    lane_traj (st_lane s') = lane_traj (st_lane s) ++ segs
    ∧ Z.of_nat (length segs) = step' - start_step
    ∧ Forall (λ seg, seg ≠ []) segs
    ∧ (train_ml = None → st_loss s' = PrimFloat.zero)
    ∧ ∀ key row vp,
        st_cands s !! key = Some row → is_Some (row !! vp) →
        ∃ row', st_cands s' !! key = Some row' ∧ is_Some (row' !! vp).
Proof.
  unfold search_rollout. intros Hrun.
  by apply search_loop_trajectory in Hrun.
Qed.

Lemma search_counts_its_hops_witness :
  ∃ s' segs,
    search_rollout 3 world_loop args_teacher teacher (Some 0x1p+0%float)
      "G" "G" 0 search_T = Some (Ok (1, s'))
    ∧ lane_traj (st_lane s') = lane_traj (st_lane search_T) ++ segs
    ∧ Z.of_nat (length segs) = 1 - 0
    ∧ Forall (λ seg, seg ≠ []) segs.
Proof.
  assert (∃ s', search_rollout 3 world_loop args_teacher teacher
                  (Some 0x1p+0%float) "G" "G" 0 search_T
                = Some (Ok (1, s')))
    as [s' Hrun] by (eexists; vm_compute; reflexivity).
  destruct (search_counts_its_hops _ _ _ _ _ _ _ _ _ _ _ Hrun)
    as (segs & Htraj & Hlen & Hall & _).
  by exists s', segs.
Defined.

(** X13.  When the environment action of a lane is the stop (the lane is
    on the goal under teacher or sample feedback, index 0 was chosen
    under the other feedbacks, no viewpoint is left, or the step counter
    is at [max_action_len - 1]), no search starts and no hop is made:
    whatever the fuel, the iteration either fails inside the
    stop-viewpoint block or ends with the episode marked as ended, the
    step counter and the simulator as they were, and the trajectory
    extended by at most the one segment that leads to the stop
    viewpoint. *)
Theorem stop_action_ends_episode {H : Type} (W : World H) (args : Args)
    (feedback : Feedback) (train_ml : option float)
    (nav_vpids : list (option string)) (nav : NavInputs) (outs : NavOuts)
    (a_t step : Z) (just_ended a_t_stop : bool) (s : SearchState H)
    (fuel : nat) :
  stop_flag feedback (lane_ob (st_lane s)) a_t = Ok a_t_stop →
  a_t_stop = true ∨ no_vp_left nav = true ∨ step = max_action_len args - 1 →
  (∃ e, rollout_act fuel W args feedback train_ml nav_vpids nav outs a_t step
          false just_ended s = Some (Raise e))
  ∨ ∃ ep,
      rollout_act fuel W args feedback train_ml nav_vpids nav outs a_t step
        false just_ended s = Some (Ok ep)
      ∧ ep_ended ep = true ∧ ep_just_ended ep = true ∧ ep_step ep = step
      ∧ lane_sim (st_lane (ep_state ep)) = lane_sim (st_lane s)
      ∧ (lane_traj (st_lane (ep_state ep)) = lane_traj (st_lane s)
         ∨ ∃ seg, lane_traj (st_lane (ep_state ep))
                  = lane_traj (st_lane s) ++ [seg]).
Proof.
  intros Hflag Hstop. unfold rollout_act. rewrite Hflag. simpl.
  assert (prepare_action args a_t_stop false nav step nav_vpids a_t just_ended
          = Ok (None, true)) as ->.
  { unfold prepare_action.
    destruct Hstop as [->|[->| ->]];
      by rewrite ?Z.eqb_refl, ?orb_true_r. }
  assert (∀ gmap traj loss,
    (∃ e, stop_viewpoint W args feedback train_ml false true
            (lane_ob (st_lane s)) nav_vpids nav outs gmap traj loss = Raise e)
    ∨ ∃ traj' loss',
        stop_viewpoint W args feedback train_ml false true
          (lane_ob (st_lane s)) nav_vpids nav outs gmap traj loss
        = Ok (traj', loss')
        ∧ (traj' = traj ∨ ∃ seg, traj' = traj ++ [seg])) as Hblock.
  { intros gmap traj loss.
    destruct (stop_viewpoint _ _ _ _ _ _ _ _ _ _ _ _ _) as [[traj' loss']|e]
      eqn:Hsv; [right|left; by exists e].
    exists traj', loss'. split; [done|].
    unfold stop_viewpoint in Hsv. simpl in Hsv.
    destruct (seen_stop args).
    - destruct (match train_ml with Some _ => _ | None => _ end) as [l|];
        simpl in Hsv; [|done].
      destruct feedback;
        try (destruct (row_argmax _) as [s_t|]; simpl in Hsv; [|done];
             destruct (py_get nav_vpids s_t) as [stop_node|]; simpl in Hsv;
               [|done];
             case_bool_decide; [injection Hsv as <- <-; by left|];
             destruct (graph_path _ _ _) as [hops|]; simpl in Hsv; [|done];
             injection Hsv as <- <-; right; by exists hops).
      destruct (py_get _ (-1)) as [final|]; simpl in Hsv; [|done].
      destruct (String.eqb _ _); [|done]. injection Hsv as <- <-. by left.
    - destruct (best_stop _ _ _) as [stop_node|];
        [|injection Hsv as <- <-; by left].
      destruct (String.eqb _ _); [injection Hsv as <- <-; by left|].
      destruct (graph_path _ _ _) as [hops|]; simpl in Hsv; [|done].
      injection Hsv as <- <-. right. by exists hops. }
  destruct (search_target args); simpl.
  - destruct (Hblock (lane_gmap (st_lane s)) (lane_traj (st_lane s))
                (st_loss s)) as [[e He]|(traj' & loss' & He & Htraj)];
      rewrite He; simpl; [left; by exists e|right].
    eexists. split; [done|]. simpl. by split_and!.
  - destruct (Hblock (lane_gmap (st_lane s)) (lane_traj (st_lane s))
                (st_loss s)) as [[e He]|(traj' & loss' & He & Htraj)];
      rewrite He; simpl; [left; by exists e|right].
    eexists. split; [done|]. simpl. by split_and!.
Qed.

Lemma stop_action_ends_episode_witness :
  ∃ ep,
    rollout_act 0 world_loop args_teacher argmax None vpids_T nav_T outs_T 3 1
      false false search_T = Some (Ok ep)
    ∧ ep_ended ep = true ∧ ep_just_ended ep = true ∧ ep_step ep = 1
    ∧ lane_sim (st_lane (ep_state ep)) = lane_sim (st_lane search_T)
    ∧ (lane_traj (st_lane (ep_state ep)) = lane_traj (st_lane search_T)
       ∨ ∃ seg, lane_traj (st_lane (ep_state ep))
                = lane_traj (st_lane search_T) ++ [seg]).
Proof.
  destruct (stop_action_ends_episode world_loop args_teacher argmax None
              vpids_T nav_T outs_T 3 1 false false search_T 0)
    as [[e He]|Hep].
  - reflexivity.
  - right. right. reflexivity.
  - vm_compute in He. discriminate He.
  - exact Hep.
Defined.
End rollout_results.

(** ** The teacher's choice is a closest candidate *)

Section float_facts.

Lemma SFltb_trans x y z :
  SFltb x y = true → SFltb y z = true → SFltb x z = true.
Proof.
  unfold SFltb, SFcompare.
  destruct x as [[]|[]| |[] m1 e1], y as [[]|[]| |[] m2 e2],
    z as [[]|[]| |[] m3 e3]; try done;
    change (Pos.compare_cont Eq) with Pos.compare;
    destruct (Z.compare_spec e1 e2), (Z.compare_spec e2 e3),
      (Z.compare_spec e1 e3); try done; try lia;
    destruct (Pos.compare_spec m1 m2), (Pos.compare_spec m2 m3),
      (Pos.compare_spec m1 m3); simpl; try done; try lia.
Qed.

Lemma SFltb_irrefl x : SFltb x x = false.
Proof.
  unfold SFltb, SFcompare.
  destruct x as [[]|[]| |[] m e]; try done;
    rewrite Z.compare_refl; change (Pos.compare_cont Eq) with Pos.compare;
    by rewrite Pos.compare_refl.
Qed.

Lemma ltb_trans (x y z : PrimFloat.float) :
  PrimFloat.ltb x y = true → PrimFloat.ltb y z = true →
  PrimFloat.ltb x z = true.
Proof. rewrite !ltb_spec. apply SFltb_trans. Qed.

Lemma ltb_irrefl (x : PrimFloat.float) : PrimFloat.ltb x x = false.
Proof. rewrite ltb_spec. apply SFltb_irrefl. Qed.

Lemma ltb_asym (x y : PrimFloat.float) :
  PrimFloat.ltb x y = true → PrimFloat.ltb y x = false.
Proof.
  intros Hxy. destruct (PrimFloat.ltb y x) eqn:Hyx; [|done].
  by rewrite <-(ltb_irrefl x), (ltb_trans x y x).
Qed.
End float_facts.

Section closest_facts.
Import Agent.

(** The scoring loop keeps the smallest score seen so far. *)
Lemma teacher_scan_minimal skip score vm vpids : ∀ j m0 d0 a,
  teacher_scan skip score vm j vpids m0 d0 = Ok a →
  ∃ dmin,
    ((a = m0 ∧ dmin = d0)
     ∨ ∃ (k : nat) vpid,
         vpids !! k = Some vpid ∧ a = j + Z.of_nat k
         ∧ skip vpid = false ∧ legal vm a = Ok true
         ∧ score vpid = Ok dmin ∧ PrimFloat.ltb dmin d0 = true)
    ∧ ∀ (k : nat) vpid d,
        vpids !! k = Some vpid → skip vpid = false →
        legal vm (j + Z.of_nat k) = Ok true →
        score vpid = Ok d → PrimFloat.ltb d dmin = false.
Proof.
  induction vpids as [|vpid vpids IH]; intros j m0 d0 a; simpl.
  { intros [= <-]. exists d0. split; [by left|]. by intros k vpid d. }
  assert (Hshift : ∀ m d,
    (∀ dist, skip vpid = false → legal vm j = Ok true → score vpid = Ok dist →
       (m = m0 ∧ d = d0 ∧ PrimFloat.ltb dist d0 = false)
       ∨ (m = j ∧ d = dist ∧ PrimFloat.ltb dist d0 = true)) →
    (m = m0 ∧ d = d0) ∨ (m = j ∧ skip vpid = false ∧ legal vm j = Ok true
                         ∧ score vpid = Ok d ∧ PrimFloat.ltb d d0 = true) →
    teacher_scan skip score vm (j + 1) vpids m d = Ok a →
    ∃ dmin,
      ((a = m0 ∧ dmin = d0)
       ∨ ∃ (k : nat) v,
           (vpid :: vpids) !! k = Some v ∧ a = j + Z.of_nat k
           ∧ skip v = false ∧ legal vm a = Ok true
           ∧ score v = Ok dmin ∧ PrimFloat.ltb dmin d0 = true)
      ∧ ∀ (k : nat) v d',
          (vpid :: vpids) !! k = Some v → skip v = false →
          legal vm (j + Z.of_nat k) = Ok true →
          score v = Ok d' → PrimFloat.ltb d' dmin = false).
  { intros m d Hhead Hcur (dmin & Hsel & Hmin)%IH.
    exists dmin. split.
    - destruct Hsel as [[-> ->]|(k & v & Hk & -> & Hs & Hl & Hd & Hlt)].
      + destruct Hcur as [[-> ->]|(-> & Hs & Hl & Hd & Hlt)]; [by left|].
        right. exists 0%nat, vpid. rewrite Z.add_0_r. by split_and!.
      + right. exists (S k), v.
        replace (j + Z.of_nat (S k)) with (j + 1 + Z.of_nat k) by lia.
        split_and!; try done.
        destruct Hcur as [[-> ->]|(-> & _ & _ & _ & Hlt')]; [done|].
        by eapply ltb_trans.
    - intros [|k] v d' Hk Hs Hl Hd; simpl in Hk.
      + injection Hk as <-. rewrite Z.add_0_r in Hl.
        destruct (Hhead d' Hs Hl Hd) as [(-> & -> & Hge)|(-> & -> & Hlt)].
        * destruct Hsel as [[_ ->]|(k & v & _ & _ & _ & _ & _ & Hlt)];
            [done|].
          destruct (PrimFloat.ltb d' dmin) eqn:Hlt'; [|done].
          by rewrite (ltb_trans _ _ _ Hlt' Hlt) in Hge.
        * destruct Hsel as [[_ ->]|(k & v & _ & _ & _ & _ & _ & Hlt')].
          -- apply ltb_irrefl.
          -- by apply ltb_asym.
      + apply (Hmin k v d'); try done.
        by replace (j + 1 + Z.of_nat k) with (j + Z.of_nat (S k)) by lia. }
  destruct (skip vpid) eqn:Hskip.
  { apply Hshift; [done|by left]. }
  destruct (legal vm j) as [[]|] eqn:Hl; simpl; [| |done].
  - destruct (score vpid) as [dist|] eqn:Hd; simpl; [|done].
    destruct (PrimFloat.ltb dist d0) eqn:Hlt.
    + apply Hshift.
      * intros dist' _ _ [= <-]. by right.
      * right. by split_and!.
    + apply Hshift; [|by left]. intros dist' _ _ [= <-]. by left.
  - apply Hshift; [done|by left].
Qed.

Lemma teacher_scan_closest skip score vm vpids ignore a :
  teacher_scan skip score vm 0 vpids ignore PrimFloat.infinity = Ok a →
  closest_candidate vpids
    (λ j vpid, skip vpid = false ∧ legal vm j = Ok true) score ignore a.
Proof.
  intros (dmin & Hsel & Hmin)%teacher_scan_minimal.
  destruct Hsel as [[-> ->]|(k & vpid & Hk & -> & Hs & Hl & Hd & Hlt)].
  - left. split; [done|]. intros k vpid d Hk [Hs Hl] Hd.
    by apply (Hmin k vpid d).
  - right. exists vpid, dmin. rewrite Z.add_0_l, Nat2Z.id in *.
    pose proof (legal_positive _ _ Hl).
    split_and!; try done. intros k' vpid' d Hk' [Hs' Hl'] Hd'.
    by apply (Hmin k' vpid' d).
Qed.
End closest_facts.

Section closest_results.
Import Agent Scenario.

(** X14.  In objective mode, for an episode that has not ended and an
    agent that is not on the goal, each teacher function returns a
    closest candidate: among the entries of [vpids] that take part
    (position at least 1, not masked as visited, and in
    [_teacher_action_r4r] and [_teacher_action_r4r_search] nearer than
    the sentinel on the map) none has a score strictly below that of the
    entry returned; the ignore index is returned only when no score is
    below infinity.  The score is the distance through the candidate to
    the goal (or minus the nDTW of the extended trajectory); the vln
    variant scores a surrogate node by its real viewpoint. *)
Theorem teacher_returns_closest_candidate (args : Args) (env : Env)
    (gmap : GraphMap) (ob : Ob) (vpids : list (option string))
    (vm : option (list bool)) (t base_t i : Z) (traj : list (list string))
    (target : string) (a : Z) :
  let near vpid := fge (graph_distance gmap (viewpoint ob) vpid) sentinel in
  let open (j : Z) (_ : option string) := legal vm j = Ok true in
  let open_near (j : Z) (vpid : option string) :=
    near vpid = false ∧ legal vm j = Ok true in
  (∀ final,
     py_get (gt_path ob) (-1) = Ok final → viewpoint ob ≠ final →
     (_teacher_action args env i ob vpids false vm = Ok a →
      closest_candidate vpids open
        (λ vpid, vp ← of_option KeyError vpid;
                 table ← shortest_distances env (ByIndexScan i (scan ob));
                 d1 ← table vp final;
                 d2 ← table (viewpoint ob) vp;
                 Ok (PrimFloat.add d1 d2))
        (ignoreid args) a)
     ∧ (_teacher_action_r4r args env gmap ob vpids false vm false t traj
        = Ok a →
        closest_candidate vpids open_near
          (λ vpid, match expert_policy args with
                   | ndtw => ndtw_dist env ob traj vpid
                   | spl => vp ← of_option KeyError vpid;
                            spl_dist env ob (endpoint ob) vp
                   end)
          (ignoreid args) a)
     ∧ (_teacher_action_r4r_vln args env gmap ob vpids false vm false t traj
          base_t = Ok a →
        closest_candidate vpids open
          (λ vpid, match expert_policy args with
                   | ndtw => ndtw_dist env ob traj vpid
                   | spl =>
                       vp ← of_option KeyError vpid;
                       real_vpid ← (if contains "seen_node" vp
                                    then of_option KeyError
                                           (real_name gmap !! vp)
                                    else Ok vp);
                       spl_dist env ob (endpoint ob) real_vpid
                   end)
          (ignoreid args) a))
  ∧ (viewpoint ob ≠ target →
     _teacher_action_r4r_search args env gmap ob vpids false target vm false t
     = Ok a →
     closest_candidate vpids open_near
       (λ vpid, vp ← of_option KeyError vpid; spl_dist env ob target vp)
       (ignoreid args) a).
Proof.
  intros near open open_near.
  assert (Hopen : ∀ score,
            closest_candidate vpids
              (λ j vpid, (λ _ : option string, false) vpid = false
                         ∧ legal vm j = Ok true) score (ignoreid args) a →
            closest_candidate vpids open score (ignoreid args) a).
  { intros score [[-> Hall]|(vpid & d_a & Hpos & Hk & [_ Hl] & Hd & Hlt & Hmin)].
    - left. split; [done|]. intros k vpid d Hk Hl. by apply (Hall k vpid d).
    - right. exists vpid, d_a. split_and!; try done.
      intros k vpid' d Hk' Hl'. by apply (Hmin k vpid' d). }
  split.
  - intros final Hfinal Hne.
    assert (String.eqb (viewpoint ob) final = false) as Hneq
      by by apply String.eqb_neq.
    split_and!.
    + unfold _teacher_action. simpl. rewrite Hfinal. simpl. rewrite Hneq.
      intros Hscan%teacher_scan_closest. by apply Hopen.
    + unfold _teacher_action_r4r. simpl. rewrite Hfinal. simpl. rewrite Hneq.
      by intros Hscan%teacher_scan_closest.
    + unfold _teacher_action_r4r_vln. simpl. rewrite Hfinal. simpl.
      rewrite Hneq. intros Hscan%teacher_scan_closest. by apply Hopen.
  - intros Hne. unfold _teacher_action_r4r_search. simpl.
    assert (String.eqb (viewpoint ob) target = false) as ->
      by by apply String.eqb_neq.
    by intros Hscan%teacher_scan_closest.
Qed.

Lemma teacher_returns_closest_candidate_witness :
  closest_candidate vpids_A
    (λ j vpid,
       fge (graph_distance gmap_A (viewpoint ob_A) vpid) sentinel = false
       ∧ legal None j = Ok true)
    (λ vpid, vp ← of_option KeyError vpid; spl_dist env_flat ob_A "G" vp)
    (ignoreid args_spl) 1.
Proof.
  apply (proj2 (teacher_returns_closest_candidate args_spl env_flat gmap_A
                  ob_A vpids_A None 0 0 0 [["A"]] "G" 1)).
  - discriminate.
  - vm_compute. reflexivity.
Defined.
End closest_results.

(** ** The step budget of an episode *)

Section budget_facts.
Import Agent.
Context {H : Type} (W : World H) (args : Args) (feedback : Feedback)
  (train_ml : option float).

(** The stop-viewpoint block adds at most one segment. *)
Lemma stop_viewpoint_segment ended just_ended ob nav_vpids nav outs gmap traj
    loss traj' loss' :
  stop_viewpoint W args feedback train_ml ended just_ended ob nav_vpids nav
    outs gmap traj loss = Ok (traj', loss') →
  (traj' = traj ∨ ∃ seg, traj' = traj ++ [seg])
  ∧ (just_ended = false → traj' = traj).
Proof.
  unfold stop_viewpoint.
  destruct (negb ended && just_ended) eqn:Hje; [|by intros [= <- <-]; auto].
  apply andb_true_iff in Hje as [_ ->].
  intros Hsv. split; [|done].
  destruct (seen_stop args).
  - destruct (match train_ml with Some _ => _ | None => _ end) as [l|];
      simpl in Hsv; [|done].
    destruct feedback;
      try (destruct (row_argmax _) as [s_t|]; simpl in Hsv; [|done];
           destruct (py_get nav_vpids s_t) as [stop_node|]; simpl in Hsv;
             [|done];
           case_bool_decide; [injection Hsv as <- <-; by left|];
           destruct (graph_path _ _ _) as [hops|]; simpl in Hsv; [|done];
           injection Hsv as <- <-; right; by exists hops).
    destruct (py_get _ (-1)) as [final|]; simpl in Hsv; [|done].
    destruct (String.eqb _ _); [|done]. injection Hsv as <- <-. by left.
  - destruct (best_stop _ _ _) as [stop_node|];
      [|injection Hsv as <- <-; by left].
    destruct (String.eqb _ _); [injection Hsv as <- <-; by left|].
    destruct (graph_path _ _ _) as [hops|]; simpl in Hsv; [|done].
    injection Hsv as <- <-. right. by exists hops.
Qed.

(** What the resolver of the rollout leaves: the step counter within the
    budget, at most a segment per step taken, and [just_ended] set only
    with [a_t = None]. *)
Lemma resolve_progress fuel cpu_a_t step (je : bool) (s : SearchState H) r :
  step ≤ max_action_len args - 1 →
  (cpu_a_t ≠ None → step ≠ max_action_len args - 1) →
  (je = true → cpu_a_t = None) →
  (if search_target args
   then make_equiv_action_vln fuel W args feedback train_ml cpu_a_t step je s
   else Some (ln ← make_equiv_action (st_cands s) cpu_a_t (st_lane s);
              Ok (mkResolved cpu_a_t step je (st_loss s)
                    (mkSearch ln (st_cands s) (st_hidden s) (st_loss s)))))
  = Some (Ok r) →
  (res_just_ended r = true → res_a_t r = None)
  ∧ step ≤ res_step r ≤ max_action_len args - 1
  ∧ (res_a_t r ≠ None → res_step r ≠ max_action_len args - 1)
  ∧ ∃ segs,
      lane_traj (st_lane (res_state r)) = lane_traj (st_lane s) ++ segs
      ∧ Z.of_nat (length segs)
        ≤ res_step r - step + (if res_a_t r then 1 else 0).
Proof.
  intros Hle Hbudget Hje.
  assert (Hhop : ∀ ln,
    make_equiv_action (st_cands s) cpu_a_t (st_lane s) = Ok ln →
    ∃ segs, lane_traj ln = lane_traj (st_lane s) ++ segs
            ∧ Z.of_nat (length segs) ≤ step - step + (if cpu_a_t then 1 else 0)).
  { intros ln. unfold make_equiv_action. destruct cpu_a_t as [vp|].
    - destruct (take_hop _ _ _ _ _) as [[traj' sim]|] eqn:Hhop; simpl; [|done].
      intros [= <-]. apply take_hop_segment in Hhop as (seg & -> & _).
      exists [seg]. split; [done|]. simpl. lia.
    - intros [= <-]. exists []. rewrite app_nil_r. split; [done|]. simpl. lia. }
  destruct (search_target args).
  - unfold make_equiv_action_vln. destruct cpu_a_t as [action|].
    + assert (je = false) as -> by (destruct je; [by specialize (Hje eq_refl)|done]).
      destruct (PrimFloat.ltb _ _).
      * destruct (make_equiv_action _ _ _) as [ln|] eqn:Hact; simpl; [|done].
        intros [= <-]. simpl. destruct (Hhop _ eq_refl) as (segs & Hs & Hl).
        split_and!; try done; try lia; try (by intros _; apply Hbudget).
        by exists segs.
      * destruct (real_name _ !! action) as [real_target|]; [|done].
        destruct (search_rollout _ _ _ _ _ _ _ _ _) as [[[step' s']|]|]
          eqn:Hrun; [|done..].
        intros [= <-]. simpl.
        pose proof Hrun as Hb. unfold search_rollout in Hb.
        apply search_loop_bounds in Hb; [|done].
        apply search_loop_trajectory in Hrun
          as (segs & Htraj & Hlen & _). simpl in Htraj.
        destruct (step' =? max_action_len args - 1) eqn:Hspent;
          [apply Z.eqb_eq in Hspent|apply Z.eqb_neq in Hspent];
          split_and!; try done; try lia; try (by intros _);
          exists segs; (split; [done|lia]).
    + intros [= <-]. simpl. split_and!; try done; try lia.
      exists []. rewrite app_nil_r. split; [done|]. simpl. lia.
  - destruct (make_equiv_action _ _ _) as [ln|] eqn:Hact; simpl; [|done].
    intros [= <-]. simpl. destruct (Hhop _ eq_refl) as (segs & Hs & Hl).
    split_and!; try done; try lia. by exists segs.
Qed.

(** An iteration of the rollout on a lane that has not ended. *)
Lemma rollout_act_progress fuel nav_vpids nav outs a_t step
    (s : SearchState H) :
  step ≤ max_action_len args - 1 →
  ((Z.to_nat (max_action_len args - 1 - step) < fuel)%nat →
   rollout_act fuel W args feedback train_ml nav_vpids nav outs a_t step false
     false s ≠ None)
  ∧ ∀ ep,
      rollout_act fuel W args feedback train_ml nav_vpids nav outs a_t step
        false false s = Some (Ok ep) →
      (ep_ended ep = false → ep_just_ended ep = false ∧ step < ep_step ep)
      ∧ step ≤ ep_step ep ≤ max_action_len args - 1
      ∧ ∃ segs,
          lane_traj (st_lane (ep_state ep)) = lane_traj (st_lane s) ++ segs
          ∧ Z.of_nat (length segs)
            ≤ ep_step ep - step + (if ep_ended ep then 1 else 0).
Proof.
  intros Hle. unfold rollout_act.
  destruct (stop_flag feedback _ a_t) as [a_t_stop|]; simpl; [|done].
  destruct (prepare_action _ _ _ _ _ _ _ _) as [[cpu_a_t je]|] eqn:Hprep;
    [|done].
  assert ((cpu_a_t ≠ None → step ≠ max_action_len args - 1)
          ∧ (je = true → cpu_a_t = None)) as [Hbudget Hje].
  { unfold prepare_action in Hprep.
    destruct (_ || _ || _ || (step =? _)) eqn:Hcond.
    - injection Hprep as <- <-. done.
    - apply orb_false_iff in Hcond as [_ Hstep%Z.eqb_neq].
      destruct (py_get nav_vpids a_t) as [vpid|]; simpl in Hprep; [|done].
      by injection Hprep as <- <-. }
  split.
  - intros Hfuel.
    assert ((if search_target args
             then make_equiv_action_vln fuel W args feedback train_ml cpu_a_t
                    step je s
             else Some (ln ← make_equiv_action (st_cands s) cpu_a_t (st_lane s);
                        Ok (mkResolved cpu_a_t step je (st_loss s)
                              (mkSearch ln (st_cands s) (st_hidden s)
                                 (st_loss s))))) ≠ None) as Hres.
    { destruct (search_target args); [|done].
      unfold make_equiv_action_vln. destruct cpu_a_t as [action|]; [|done].
      destruct (PrimFloat.ltb _ _); [done|].
      destruct (real_name _ !! action) as [real_target|]; [|done].
      pose proof (search_loop_terminates W args feedback train_ml action
                    real_target (viewpoint (lane_ob (st_lane s))) step fuel
                    step (mkSearch (st_lane s) (st_cands s) (st_hidden s)
                            PrimFloat.zero) Hle Hfuel) as Hterm.
      unfold search_rollout.
      by destruct (search_loop _ _ _ _ _ _ _ _ _ _ _) as [[[step' s']|e]|]. }
    destruct (if search_target args then _ else _) as [[r|e]|]; done.
  - intros ep.
    destruct (if search_target args then _ else _) as [[r|e]|] eqn:Hres;
      [|done..].
    apply resolve_progress in Hres
      as (Hjust & Hstep & Hspent & segs & Htraj & Hlen); try done.
    destruct (stop_viewpoint _ _ _ _ _ _ _ _ _ _ _ _ _)
      as [[traj_path ml_loss]|] eqn:Hsv; simpl; [|done].
    apply stop_viewpoint_segment in Hsv as [Hseg Hsame].
    intros [= <-]. simpl. unfold rollout_ended. simpl.
    destruct (res_a_t r) as [action|] eqn:Ha_t.
    + rewrite bool_decide_eq_false_2 by done.
      assert (res_just_ended r = false) as Hje'.
      { destruct (res_just_ended r); [by specialize (Hjust eq_refl)|done]. }
      specialize (Hsame Hje'). subst traj_path.
      assert (res_step r ≠ max_action_len args - 1) by by apply Hspent.
      split; [intros _; split; [done|lia]|]. split; [lia|].
      exists segs. split; [done|lia].
    + rewrite bool_decide_eq_true_2 by done.
      split; [done|]. split; [lia|].
      destruct Hseg as [->|[seg ->]].
      * exists segs. split; [done|lia].
      * exists (segs ++ [seg]). rewrite Htraj, <-app_assoc.
        split; [done|]. rewrite length_app. simpl. lia.
Qed.

Lemma rollout_decide_keeps nav_bert step base_t (s : SearchState H) a_t
    nav_vpids nav outs s1 :
  rollout_decide W nav_bert args feedback train_ml step base_t s
  = Ok (a_t, nav_vpids, nav, outs, s1) →
  lane_traj (st_lane s1) = lane_traj (st_lane s)
  ∧ lane_sim (st_lane s1) = lane_sim (st_lane s)
  ∧ st_cands s1 = st_cands s.
Proof.
  unfold rollout_decide.
  destruct (nav_bert _ _ _) as [nav_outs h1].
  destruct (_nav_gmap_variable _ _ _) as [navs|]; simpl; [|done].
  destruct (py_get navs 0) as [nav0|]; simpl; [|done].
  destruct (select_fusion args nav_outs nav0) as [logits0 vpids0].
  destruct (rollout_mask _ _ _) as [nav_logits|]; simpl; [|done].
  destruct (py_get _ 0) as [stop_prob|]; simpl; [|done].
  destruct (match train_ml with Some _ => _ | None => _ end)
    as [[nav_targets l]|]; simpl; [|done].
  destruct (choose _ _ _ _ _ _ _ _) as [[a h2]|]; simpl; [|done].
  by intros [= _ _ _ _ <-].
Qed.

(** The loop of the rollout: it returns once the fuel covers what is
    left of the budget, with the episode ended, the step counter within
    the budget and at most one segment per step, plus the one that leads
    to the stop viewpoint. *)
Lemma rollout_loop_budget nav_bert fuel : ∀ step base_t (s : SearchState H),
  step ≤ max_action_len args - 1 →
  ((Z.to_nat (max_action_len args - 1 - step) + 1 < fuel)%nat →
   rollout_loop fuel W nav_bert args feedback train_ml step base_t false s
   ≠ None)
  ∧ ∀ ep,
      rollout_loop fuel W nav_bert args feedback train_ml step base_t false s
      = Some (Ok ep) →
      ep_ended ep = true
      ∧ step ≤ ep_step ep ≤ max_action_len args - 1
      ∧ ∃ segs,
          lane_traj (st_lane (ep_state ep)) = lane_traj (st_lane s) ++ segs
          ∧ Z.of_nat (length segs) ≤ ep_step ep - step + 1.
Proof.
  induction fuel as [|fuel IH]; intros step base_t s Hle.
  { split; [lia|done]. }
  simpl.
  destruct (rollout_decide _ _ _ _ _ _ _ _)
    as [[[[[a_t nav_vpids] nav] outs] s1]|] eqn:Hdec; [|split; done].
  apply rollout_decide_keeps in Hdec as (Htraj1 & _ & _).
  destruct (rollout_act_progress fuel nav_vpids nav outs a_t step s1 Hle)
    as [Hterm Hact].
  destruct (rollout_act _ _ _ _ _ _ _ _ _ _ _ _ _) as [[ep1|e]|] eqn:Hrun.
  - destruct (Hact ep1 eq_refl) as (Hcont & Hstep & segs1 & Hsegs1 & Hlen1).
    destruct (ep_ended ep1) eqn:Hended.
    + split; [done|]. intros ep [= <-]. rewrite Hended.
      split_and!; try done; try lia. exists segs1. by rewrite <-Htraj1.
    + destruct (Hcont eq_refl) as [-> Hlt].
      destruct (IH (ep_step ep1) (base_t + 1) (ep_state ep1)) as [Hterm' Hres];
        [lia|].
      split.
      * intros Hfuel. apply Hterm'. lia.
      * intros ep (Hend & Hstep' & segs & Hsegs & Hlen)%Hres.
        split_and!; try done; try lia.
        exists (segs1 ++ segs). rewrite Hsegs, Hsegs1, Htraj1, <-app_assoc.
        split; [done|]. rewrite length_app. lia.
  - split; done.
  - split; [|done]. intros Hfuel. apply Hterm. lia.
Qed.
End budget_facts.

Section budget_results.
Import Agent Scenario.

(** X15.  An episode stays within its step budget, the hops of the
    searches included.  With [max_action_len] at least 1 the rollout of
    an episode returns (given fuel for [max_action_len + 1] iterations);
    its trajectory starts with the start viewpoint alone and holds at
    most [max_action_len] further segments: at most
    [max_action_len - 1] for the steps taken, in the rollout or in a
    search, and at most one that leads to the stop viewpoint. *)
Theorem episode_stays_within_budget {H : Type} (W : World H)
    (nav_bert : H → GraphMap → Ob → NavOuts * H)
    (new_gmap : string → GraphMap) (args : Args) (feedback : Feedback)
    (train_ml : option float) (cache : cand_cache) (h : H) (sim : Sim) :
  1 ≤ max_action_len args →
  (∀ fuel, (Z.to_nat (max_action_len args) < fuel)%nat →
     rollout fuel W nav_bert new_gmap args feedback train_ml cache h sim
     ≠ None)
  ∧ ∀ fuel traj,
      rollout fuel W nav_bert new_gmap args feedback train_ml cache h sim
      = Some (Ok traj) →
      ∃ segs,
        traj = [viewpoint (get_ob W sim)] :: segs
        ∧ Z.of_nat (length segs) ≤ max_action_len args.
Proof.
  intros Hmax. unfold rollout.
  set (s := mkSearch _ _ _ _). split.
  - intros fuel Hfuel.
    destruct (rollout_loop_budget W args feedback train_ml nav_bert fuel 0 0 s)
      as [Hterm _]; [lia|].
    destruct (rollout_loop _ _ _ _ _ _ _ _ _ _) as [[ep|e]|]; try done.
    exfalso. apply Hterm; [lia|done].
  - intros fuel traj.
    destruct (rollout_loop_budget W args feedback train_ml nav_bert fuel 0 0 s)
      as [_ Hres]; [lia|].
    destruct (rollout_loop _ _ _ _ _ _ _ _ _ _) as [[ep|e]|]; try done.
    intros [= <-].
    destruct (Hres ep eq_refl) as (_ & Hstep & segs & Hsegs & Hlen).
    exists segs. split; [by rewrite Hsegs|lia].
Qed.

Lemma episode_stays_within_budget_witness :
  ∃ traj segs,
    rollout 3 world_loop nav_bert_T (λ _, gmap_T) args_teacher argmax None ∅
      tt (mkSim "scan" "A" PrimFloat.zero PrimFloat.zero) = Some (Ok traj)
    ∧ traj = ["A"] :: segs
    ∧ Z.of_nat (length segs) ≤ 2.
Proof.
  assert (∃ traj,
    rollout 3 world_loop nav_bert_T (λ _, gmap_T) args_teacher argmax None ∅
      tt (mkSim "scan" "A" PrimFloat.zero PrimFloat.zero) = Some (Ok traj))
    as [traj Hrun] by (eexists; vm_compute; reflexivity).
  destruct (proj2 (episode_stays_within_budget world_loop nav_bert_T
                     (λ _, gmap_T) args_teacher argmax None ∅ tt
                     (mkSim "scan" "A" PrimFloat.zero PrimFloat.zero)
                     ltac:(done)) 3%nat traj Hrun)
    as (segs & Htraj & Hlen).
  exists traj, segs. split; [exact Hrun|]. split; [exact Htraj|exact Hlen].
Defined.
End budget_results.

(** ** The inputs of a batch of one lane *)

Section batch_facts.
Import Agent.

Lemma pad_same_length {A} (x : A) (l : list A) (n : nat) :
  length l = n → pad x n l = l.
Proof.
  intros <-. unfold pad. by rewrite Nat.sub_diag, app_nil_r.
Qed.
End batch_facts.

Section batch_results.
Import Agent.

(** X16.  For a batch of one lane [_nav_gmap_variable] and
    [_nav_vp_variable] fail or succeed as [_nav_gmap_variable_search]
    and [_nav_vp_variable_search] do on that lane, and give the same
    node list, masks and candidate list: the padding to the longest row
    adds nothing, so the rollout and the search choose among the same
    entries. *)
Theorem batch_of_one_is_search_inputs (args : Args) (gmap : GraphMap) (ob : Ob) :
  _nav_gmap_variable args (gmap, ob) []
  = (nav ← _nav_gmap_variable_search args gmap ob; Ok [nav]).
Proof.
  unfold _nav_gmap_variable, nav_lane, _nav_gmap_variable_search.
  cbn [mapM fst snd].
  set (vpids := if enc_full_graph args then _ else _).
  set (masks := if enc_full_graph args then _ else _).
  assert (length masks = length vpids) as Hlen.
  { unfold masks, vpids. destruct (enc_full_graph args); simpl;
      rewrite ?length_app, ?length_replicate, ?length_fmap; done. }
  destruct (mapM _ (seen_vp args gmap ob)) as [ids|e]; [|done].
  simpl. destruct (length vpids <=? 1)%nat; [done|]. simpl.
  do 2 f_equal. unfold compose. simpl.
  rewrite !Nat.max_0_r.
  by rewrite !pad_same_length.
Qed.
End batch_results.

(** ** The connectivity graphs *)

Section loader_facts.
Import NX BlockEdge.
Context (fpow : float → float → result float) (data : list Item).

Lemma loaded_ext (D D' : nat → nat → Prop) G :
  (∀ i j a b, sees data i j a b → (D i j ↔ D' i j)) →
  loaded data D G → loaded data D' G.
Proof.
  intros Hext (He & Hn & Hs). split_and!; [|done|].
  - intros u v. rewrite He. split; intros (i & j & a & b & HD & Hsees & ?);
      exists i, j, a, b; split; [by apply (Hext i j a b)|done|by apply (Hext i j a b)|done].
  - intros i j a b HD Hsees. apply (Hs i j a b); [|done].
    by apply (Hext i j a b).
Qed.

Lemma link_loaded i item j conn G G' (D : nat → nat → Prop) :
  data !! i = Some item → included item = true →
  unobstructed item !! j = Some conn →
  link fpow data i item j conn G = Ok G' →
  loaded data D G →
  loaded data (λ i' j', D i' j' ∨ (i' = i ∧ j' = j)) G'.
Proof.
  intros Hi Hinc Hj Hlink HG. unfold link in Hlink.
  destruct conn.
  2:{ injection Hlink as <-. eapply loaded_ext; [|done].
      intros i' j' a b (Ha & _ & _ & _ & Hc). split; [tauto|].
      intros [?|[-> ->]]; [done|]. congruence. }
  destruct (data !! j) as [other|] eqn:Ho; simpl in Hlink; [|done].
  destruct (included other) eqn:Hinco.
  2:{ injection Hlink as <-. eapply loaded_ext; [|done].
      intros i' j' a b (Ha & Hb & _ & Hib & Hc). split; [tauto|].
      intros [?|[-> ->]]; [done|]. congruence. }
  destruct (py_get (pose item) 3) as [p3|]; simpl in Hlink; [|done].
  destruct (py_get (pose item) 7) as [p7|]; simpl in Hlink; [|done].
  destruct (py_get (pose item) 11) as [p11|]; simpl in Hlink; [|done].
  destruct (unobstructed other !! i) as [[]|] eqn:Hback; simpl in Hlink;
    try done.
  destruct (distance fpow item other) as [w|]; simpl in Hlink; [|done].
  injection Hlink as <-.
  destruct HG as (He & Hn & Hs).
  assert (∀ u v, (u, v) ∈ edge_set (add_edge G (image_id item) (image_id other))
                 ↔ ∃ i' j' a b, (D i' j' ∨ i' = i ∧ j' = j) ∧ sees data i' j' a b
                     ∧ u = image_id a ∧ v = image_id b) as He'.
  { intros u v. simpl. rewrite elem_of_union, elem_of_singleton, He. split.
    - intros [[= -> ->]|(i' & j' & a & b & HD & Hsees & ?)].
      + exists i, j, item, other. split; [by right|]. by split.
      + exists i', j', a, b. split; [by left|done].
    - intros (i' & j' & a & b & [HD|[-> ->]] & Hsees & -> & ->).
      + right. by exists i', j', a, b.
      + left. destruct Hsees as (Ha & Hb & _). congruence. }
  split_and!; [done| |].
  - intros v. unfold linked. simpl.
    rewrite !elem_of_union, elem_of_singleton, Hn. unfold linked.
    set_solver.
  - intros i' j' a b [HD|[-> ->]] Hsees; [by eapply Hs|].
    destruct Hsees as (Ha & Hb & _). congruence.
Qed.

Lemma inner_loaded i item :
  data !! i = Some item → included item = true →
  ∀ l (j0 : nat) G G' (D : nat → nat → Prop),
    (∀ (k : nat) c, l !! k = Some c →
       unobstructed item !! (j0 + k)%nat = Some c) →
    for_enumerate (link fpow data i item) j0 l G = Ok G' →
    loaded data D G →
    loaded data (λ i' j', D i' j' ∨ (i' = i ∧ (j0 ≤ j' < j0 + length l)%nat)) G'.
Proof.
  intros Hi Hinc. induction l as [|c l IH]; intros j0 G G' D Hl Hrun HG.
  - injection Hrun as <-. eapply loaded_ext; [|done].
    intros i' j' a b _. simpl. split; [tauto|]. intros [?|[_ ?]]; [done|lia].
  - simpl in Hrun.
    destruct (link fpow data i item j0 c G) as [G1|] eqn:Hlink;
      simpl in Hrun; [|done].
    eapply link_loaded in Hlink; [|done|done| |done].
    2:{ specialize (Hl 0%nat c eq_refl). by rewrite Nat.add_0_r in Hl. }
    eapply IH in Hrun; [| |done].
    2:{ intros k c' Hk. specialize (Hl (S k) c' Hk).
        by replace (S j0 + k)%nat with (j0 + S k)%nat by lia. }
    eapply loaded_ext; [|done].
    intros i' j' a b _. simpl. split.
    + intros [[?|[-> ->]]|[-> ?]]; [by left|right; split; [done|lia]..].
    + intros [?|[-> ?]]; [by left; left|].
      destruct (decide (j' = j0)) as [->|]; [left; by right|].
      right. split; [done|lia].
Qed.

Lemma outer_loaded : ∀ l (i0 : nat) G G',
  (∀ (k : nat) x, l !! k = Some x → data !! (i0 + k)%nat = Some x) →
  for_enumerate
    (λ i item G,
       if included item
       then for_enumerate (link fpow data i item) 0 (unobstructed item) G
       else Ok G)
    i0 l G = Ok G' →
  loaded data (λ i' _, (i' < i0)%nat) G →
  loaded data (λ i' _, (i' < i0 + length l)%nat) G'.
Proof.
  induction l as [|x l IH]; intros i0 G G' Hl Hrun HG.
  - injection Hrun as <-. eapply loaded_ext; [|done].
    intros i' j' a b _. simpl. lia.
  - simpl in Hrun.
    assert (data !! i0 = Some x) as Hx.
    { specialize (Hl 0%nat x eq_refl). by rewrite Nat.add_0_r in Hl. }
    assert (∀ (k : nat) y, l !! k = Some y → data !! (S i0 + k)%nat = Some y)
      as Hl'.
    { intros k y Hk. specialize (Hl (S k) y Hk).
      by replace (S i0 + k)%nat with (i0 + S k)%nat by lia. }
    destruct (included x) eqn:Hinc.
    + destruct (for_enumerate _ 0%nat (unobstructed x) G) as [G1|] eqn:Hin;
        simpl in Hrun; [|done].
      eapply inner_loaded in Hin; [|done|done|done|done].
      eapply IH in Hrun; [|done|].
      * eapply loaded_ext; [|done]. intros i' j' a b _. simpl. lia.
      * eapply loaded_ext; [|done].
        intros i' j' a b (Ha & _ & _ & _ & Hc). split.
        -- intros [?|[-> _]]; lia.
        -- intros Hlt. destruct (decide (i' = i0)) as [->|]; [|left; lia].
           right. split; [done|]. simplify_eq.
           apply lookup_lt_Some in Hc. lia.
    + simpl in Hrun. eapply IH in Hrun; [|done|].
      * eapply loaded_ext; [|done]. intros i' j' a b _. simpl. lia.
      * eapply loaded_ext; [|done].
        intros i' j' a b (Ha & _ & Hia & _). split; [lia|].
        intros Hlt. destruct (decide (i' = i0)) as [->|]; [|lia].
        congruence.
Qed.

Lemma graph_of_scan_loaded G :
  graph_of_scan fpow data = Ok G → loaded data (λ _ _, True) G.
Proof.
  intros Hrun. unfold graph_of_scan in Hrun.
  eapply outer_loaded in Hrun.
  - eapply loaded_ext; [|done].
    intros i j a b (Ha & _). apply lookup_lt_Some in Ha. simpl. split; [done|lia].
  - done.
  - split_and!.
    + intros u v. simpl. split; [set_solver|]. intros (i & j & a & b & ? & _). lia.
    + intros v. unfold linked. simpl. set_solver.
    + intros i j a b ?. lia.
Qed.

End loader_facts.

Section loader_more_facts.
Import NX BlockEdge.
Context (read : string → result (list Item))
        (fpow : float → float → result float).

Lemma load_loop_spec : ∀ scans graphs0 graphs,
  load_loop read fpow scans graphs0 = Ok graphs →
  dom graphs = list_to_set scans ∪ dom graphs0
  ∧ (∀ scan, scan ∈ scans →
       ∃ data G, read scan = Ok data ∧ graph_of_scan fpow data = Ok G
                 ∧ graphs !! scan = Some G)
  ∧ (∀ scan, scan ∉ scans → graphs !! scan = graphs0 !! scan).
Proof.
  induction scans as [|s scans IH]; intros graphs0 graphs Hrun.
  - injection Hrun as <-. split_and!; [set_solver|set_solver|done].
  - simpl in Hrun.
    destruct (read s) as [data|] eqn:Hread; simpl in Hrun; [|done].
    destruct (graph_of_scan fpow data) as [G|] eqn:HG; simpl in Hrun; [|done].
    destruct (IH _ _ Hrun) as (Hdom & Hin & Hout). split_and!.
    + rewrite Hdom, dom_insert_L. set_solver.
    + intros scan Hscan. destruct (decide (scan ∈ scans)) as [?|Hn];
        [by apply Hin|].
      apply elem_of_cons in Hscan as [->|?]; [|done].
      exists data, G. split_and!; [done|done|].
      by rewrite (Hout _ Hn), lookup_insert_eq.
    + intros scan Hscan. apply not_elem_of_cons in Hscan as [? ?].
      rewrite Hout by done. by rewrite lookup_insert_ne.
Qed.
End loader_more_facts.

Section loader_results.
Import NX BlockEdge Scenario.

(** X17.  When [load_nav_graphs] returns, the dict has one graph per
    scan asked for, and each graph mirrors its connectivity file: two
    viewpoints are joined exactly when an included entry lists another
    included entry as unobstructed; the nodes are the viewpoints that
    have such an edge (an included viewpoint without one is not a node);
    every edge joins nodes of the graph; and the file is symmetric
    between included entries, since an entry that is not listed back
    stops the loader. *)
Theorem loaded_graphs_mirror_connectivity
    (read : string → result (list Item))
    (fpow : float → float → result float) (scans : list string)
    (graphs : gmap string Graph) :
  load_nav_graphs read fpow scans = Ok graphs →
  dom graphs = list_to_set scans
  ∧ ∀ scan, scan ∈ scans →
      ∃ data G,
        read scan = Ok data ∧ graphs !! scan = Some G
        ∧ wf G
        ∧ (∀ v, v ∈ node_set G ↔ ∃ u, linked G u v)
        ∧ (∀ u v, linked G u v ↔
                  ∃ i j a b, sees data i j a b
                             ∧ u = image_id a ∧ v = image_id b)
        ∧ (∀ i j a b, sees data i j a b → sees data j i b a).
Proof.
  intros Hrun. apply load_loop_spec in Hrun as (Hdom & Hin & _). split.
  { rewrite Hdom, dom_empty_L. set_solver. }
  intros scan Hscan. destruct (Hin scan Hscan) as (data & G & Hread & HG & Hg).
  exists data, G. apply graph_of_scan_loaded in HG as (He & Hn & Hs).
  assert (∀ i j a b, sees data i j a b → sees data j i b a) as Hsym.
  { intros i j a b Hsees. pose proof (Hs i j a b I Hsees) as Hback.
    destruct Hsees as (Ha & Hb & Hia & Hib & _). by split_and!. }
  split_and!; try done.
  - intros u v Huv. split; apply Hn; [exists v; by right|exists u; by left].
  - intros u v. unfold linked. rewrite !He. split.
    + intros [(i & j & a & b & _ & Hsees & -> & ->)
             |(i & j & a & b & _ & Hsees & -> & ->)].
      * by exists i, j, a, b.
      * exists j, i, b, a. split; [by apply Hsym|done].
    + intros (i & j & a & b & Hsees & -> & ->). left. by exists i, j, a, b.
Qed.

Lemma loaded_graphs_mirror_connectivity_witness :
  ∃ graphs,
    load_nav_graphs (λ _, Ok conn_abc) fpow_T ["scan"] = Ok graphs
    ∧ dom graphs = list_to_set ["scan"]
    ∧ ∀ scan, scan ∈ ["scan"] →
        ∃ data G,
          (λ _ : string, Ok conn_abc) scan = Ok data
          ∧ graphs !! scan = Some G
          ∧ wf G
          ∧ (∀ v, v ∈ node_set G ↔ ∃ u, linked G u v)
          ∧ (∀ u v, linked G u v ↔
                    ∃ i j a b, sees data i j a b
                               ∧ u = image_id a ∧ v = image_id b)
          ∧ (∀ i j a b, sees data i j a b → sees data j i b a).
Proof.
  assert (∃ graphs,
    load_nav_graphs (λ _, Ok conn_abc) fpow_T ["scan"] = Ok graphs)
    as [graphs Hrun] by (eexists; vm_compute; reflexivity).
  exists graphs. split; [exact Hrun|].
  exact (loaded_graphs_mirror_connectivity _ _ _ _ Hrun).
Defined.
End loader_results.
